(** * The XYZ multi-frame parser of fatman_clients, embedded in Rocq

    Source: [src/fatman_clients/__init__.py], function [xyz_parser_iterator]
    with its local class [BlockIterator] and its two compiled patterns
    [pos_regex] and [pos_block_regex].

    The file has five parts.
    - The model: a backtracking matcher for the fragment of Python's [re]
      syntax that the two patterns use (flags [re.X | re.M]), with [finditer];
      the two patterns, written out as syntax trees term by term; Python's
      [int] and [float] on text; [BlockIterator.__next__] and the generator
      [xyz_parser_iterator]; then [try_verify_by_system_ca_bundle] of the
      same module and, from [src/fatman_clients/fclient.py], the scan of
      [struct_add], which is the caller of the generator, and the callback
      [validate_basis_set_families].
    - The vocabulary of the properties: a declarative reading of patterns,
      the shapes of matches, sample inputs.
    - Lemmas: soundness of the matcher, sufficiency of its fuel, the shape of
      every match of either pattern, the iterator call by call.
    - The claims C1 to C10 about the parser, each settled by a theorem or by
      an evaluation on a concrete input.
    - Further properties of the parser, of its caller and of the two other
      functions, numbered from X1 on.

    Conventions.  The interpreter is CPython 3 with its defaults.  Text is
    [list ascii]: a [str] whose code points lie below 256.  For such text
    [\d] is [0-9], [\s] is the twelve characters 9 to 13, 28 to 32, 133 and
    160, [int] and [float] skip the eight characters 9 to 13, 32, 133 and 160
    around a numeral, and [int] refuses more than 4300 digits.

    [BlockIterator.__next__] advances the wrapped iterator with
    [self._it.next()].  The iterator that [finditer] returns has a method of
    that name under the iterator protocol of Python 2 only; under that of
    Python 3 it has [__next__], and the call raises [AttributeError].  The
    model takes the protocol as a parameter, [Python3] being the interpreter
    the module runs on and [Python2] showing what lines 56 to 90 do where the
    call of line 55 succeeds.  A lazy iterator over matches is represented
    by the list of matches it has still to produce; a generator or a loop run
    to its end by what it produced and how it ended. *)

From Stdlib Require Import List String Ascii Bool Arith ZArith Lia.
From Stdlib Require Import Floats.SpecFloat.
Import ListNotations.

Set Implicit Arguments.

Local Open Scope char_scope.
Local Open Scope list_scope.

(** ** Text *)

Definition text := list ascii.

Definition txt (s : string) : text := list_ascii_of_string s.

Definition LF : ascii := "010".
Definition TAB : ascii := "009".
Definition VT : ascii := "011".
Definition FF : ascii := "012".
Definition CR : ascii := "013".

(** [lines l] is the text made of the lines of [l], each one terminated by a
    line feed. *)
Fixpoint lines (l : list string) : text :=
  match l with
  | [] => []
  | s :: l' => txt s ++ LF :: lines l'
  end.

Definition is_digit (c : ascii) : bool :=
  (N.leb (N_of_ascii "0") (N_of_ascii c)) && (N.leb (N_of_ascii c) (N_of_ascii "9")).

(** [\s] in a [str] pattern: the white space of Unicode, of which these
    twelve characters lie below 256. *)
Definition is_space (c : ascii) : bool :=
  Ascii.eqb c " " || Ascii.eqb c TAB || Ascii.eqb c LF
  || Ascii.eqb c CR || Ascii.eqb c FF || Ascii.eqb c VT
  || Ascii.eqb c "028" || Ascii.eqb c "029" || Ascii.eqb c "030"
  || Ascii.eqb c "031" || Ascii.eqb c "133" || Ascii.eqb c "160".

(** The white space that [int] and [float] skip before and after a numeral:
    that of C below 128 and that of Unicode above. *)
Definition is_numeral_space (c : ascii) : bool :=
  Ascii.eqb c " " || Ascii.eqb c TAB || Ascii.eqb c LF
  || Ascii.eqb c CR || Ascii.eqb c FF || Ascii.eqb c VT
  || Ascii.eqb c "133" || Ascii.eqb c "160".

(** ** Regular expressions: syntax *)

Module Re.

(** Members of a bracketed character set. *)
Inductive citem : Type :=
| Ch (c : ascii)            (* a literal character *)
| Rg (lo hi : ascii)        (* a range lo-hi *)
| ClsDigit                  (* \d *)
| ClsSpace.                 (* \s *)

Definition in_item (c : ascii) (i : citem) : bool :=
  match i with
  | Ch d => Ascii.eqb c d
  | Rg lo hi => (N.leb (N_of_ascii lo) (N_of_ascii c)) && (N.leb (N_of_ascii c) (N_of_ascii hi))
  | ClsDigit => is_digit c
  | ClsSpace => is_space c
  end.

Definition in_set (items : list citem) (c : ascii) : bool :=
  existsb (in_item c) items.

(** The pattern fragment.  Unnamed parentheses only group: the program reads
    named groups and whole-match spans, never numbered groups. *)
Inductive re : Type :=
| Eps
| Bol                       (* ^ under re.M *)
| Dot                       (* . without re.S: anything but a line feed *)
| Set_ (items : list citem) (* [...] , or a single escaped character *)
| Cat (r1 r2 : re)
| Alt (r1 r2 : re)          (* r1|r2, r1 tried first *)
| Star (r : re)             (* r*, greedy *)
| Named (n : string) (r : re).   (* (?P<n>r) *)

Definition Plus (r : re) : re := Cat r (Star r).      (* r+ *)
Definition Opt (r : re) : re := Alt r Eps.            (* r? *)
Definition Rep3 (r : re) : re := Cat r (Cat r r).     (* r{3} *)

Fixpoint Seq (l : list re) : re :=
  match l with
  | [] => Eps
  | [r] => r
  | r :: l' => Cat r (Seq l')
  end.

(** ** Regular expressions: the backtracking matcher *)

(** A captured group: its span in the subject and the text of that span. *)
Record capture : Type := Capture {
  c_start : nat;
  c_end : nat;
  c_text : text
}.

(** The matcher's position in the subject. [bol] says whether [^] matches here
    under [re.M]: at the start of the subject or just after a line feed. *)
Record cursor : Type := Cursor {
  pos : nat;
  bol : bool;
  rest : text;
  caps : list (string * capture)
}.

Definition advance (ch : ascii) (tl : text) (c : cursor) : cursor :=
  {| pos := S (pos c); bol := Ascii.eqb ch LF; rest := tl; caps := caps c |}.

Definition set_cap (n : string) (c0 c1 : cursor) : cursor :=
  {| pos := pos c1; bol := bol c1; rest := rest c1;
     caps := (n, {| c_start := pos c0; c_end := pos c1;
                    c_text := firstn (pos c1 - pos c0) (rest c0) |}) :: caps c1 |}.

Definition kont := cursor -> option cursor.

(** Greedy repetition of [body]: one more iteration is tried first, and the
    continuation only when every way of iterating once more has failed.  An
    iteration has to consume input; [fuel] bounds the number of iterations by
    the length of the remaining subject, which that makes sufficient. *)
Fixpoint star_loop (body : cursor -> kont -> option cursor)
         (fuel : nat) (c : cursor) (k : kont) : option cursor :=
  match fuel with
  | O => k c
  | S f =>
      match body c (fun c1 => if Nat.ltb (pos c) (pos c1) then star_loop body f c1 k else None) with
      | Some v => Some v
      | None => k c
      end
  end.

(** [rmatch r c k]: the first way, in the engine's priority order, of matching
    [r] at [c] such that the continuation [k] succeeds from where it ends. *)
Fixpoint rmatch (r : re) (c : cursor) (k : kont) : option cursor :=
  match r with
  | Eps => k c
  | Bol => if bol c then k c else None
  | Dot =>
      match rest c with
      | ch :: tl => if Ascii.eqb ch LF then None else k (advance ch tl c)
      | [] => None
      end
  | Set_ items =>
      match rest c with
      | ch :: tl => if in_set items ch then k (advance ch tl c) else None
      | [] => None
      end
  | Cat r1 r2 => rmatch r1 c (fun c1 => rmatch r2 c1 k)
  | Alt r1 r2 =>
      match rmatch r1 c k with
      | Some v => Some v
      | None => rmatch r2 c k
      end
  | Star r1 => star_loop (rmatch r1) (S (List.length (rest c))) c k
  | Named n r1 => rmatch r1 c (fun c1 => k (set_cap n c c1))
  end.

(** ** Match objects, [search] and [finditer] *)

Record match_object : Type := MatchObject {
  m_start : nat;
  m_end : nat;
  m_groups : list (string * capture)
}.

Definition span (m : match_object) : nat * nat := (m_start m, m_end m).

(** [m.group(name)]; [None] is Python's [None] for a group that did not
    take part in the match. *)
Fixpoint assoc (n : string) (l : list (string * capture)) : option capture :=
  match l with
  | [] => None
  | (n', v) :: l' => if String.eqb n n' then Some v else assoc n l'
  end.

Definition group (m : match_object) (n : string) : option text :=
  option_map c_text (assoc n (m_groups m)).

(** The leftmost start at or after the cursor where the pattern matches,
    with the cursor at which that match ends. *)
Fixpoint scan (r : re) (p : nat) (b : bool) (s : text) : option (nat * cursor) :=
  match rmatch r {| pos := p; bol := b; rest := s; caps := [] |} Some with
  | Some e => Some (p, e)
  | None =>
      match s with
      | [] => None
      | ch :: tl => scan r (S p) (Ascii.eqb ch LF) tl
      end
  end.

(** Successive non-overlapping matches.  A match that is not empty is
    followed by the scan from its end.  The two patterns match no empty text
    (lemma [matches_not_empty]); the branch for an empty match, which resumes
    one character further on, is there for the recursion only. *)
Fixpoint finditer_from (r : re) (fuel : nat) (p : nat) (b : bool) (s : text)
  : list match_object :=
  match fuel with
  | O => []
  | S f =>
      match scan r p b s with
      | None => []
      | Some (st, e) =>
          {| m_start := st; m_end := pos e; m_groups := caps e |} ::
          (if Nat.ltb st (pos e) then finditer_from r f (pos e) (bol e) (rest e)
           else match rest e with
                | [] => []
                | ch :: tl => finditer_from r f (S (pos e)) (Ascii.eqb ch LF) tl
                end)
      end
  end.

Definition finditer (r : re) (s : text) : list match_object :=
  finditer_from r (S (List.length s)) 0 true s.

End Re.

Import Re.

(** ** The two patterns of [xyz_parser_iterator] *)

Definition sp_tab : re := Set_ [Ch " "; Ch TAB].          (* [ \t] *)
Definition digit : re := Set_ [ClsDigit].                 (* \d *)
Definition space : re := Set_ [ClsSpace].                 (* \s *)
Definition letter : re := Set_ [Rg "A" "Z"; Rg "a" "z"].  (* [A-Za-z] *)
Definition alnum : re := Set_ [Rg "A" "Z"; Rg "a" "z"; Rg "0" "9"].
Definition dot : re := Set_ [Ch "."].                     (* [\.] *)
Definition newline : re := Set_ [Ch LF].                  (* [\n] *)

(** [[\-|\+]?  ( \d*[\.]\d+  | \d+[\.]?\d* )  ([E | e][+|-]?\d+)?], the body
    of the groups x, y and z.  Under [re.X] white space inside brackets
    stays, so the bracketed sets hold what is written between the brackets. *)
Definition pos_number : re :=
  Seq [ Opt (Set_ [Ch "-"; Ch "|"; Ch "+"]);
        Alt (Seq [Star digit; dot; Plus digit])
            (Seq [Plus digit; Opt dot; Star digit]);
        Opt (Seq [ Set_ [Ch "E"; Ch " "; Ch "|"; Ch " "; Ch "e"];
                   Opt (Set_ [Ch "+"; Ch "|"; Ch "-"]);
                   Plus digit ]) ].

Definition pos_regex : re :=
  Seq [ Bol;
        Star sp_tab;
        Named "sym" (Seq [Plus letter; Star alnum]);
        Plus space;
        Named "x" pos_number; Plus sp_tab;
        Named "y" pos_number; Plus sp_tab;
        Named "z" pos_number ].

(** The repeated group of a positions line, lines 120 to 131 of the source:
    the bar of line 126 separates the whole of lines 121-125 from the whole of
    lines 127-130. *)
Definition block_number : re :=
  Alt (Seq [ Plus space;
             Opt (Set_ [Ch "-"; Ch " "; Ch "|"; Ch " "; Ch "+"; Ch " "]);
             Seq [Star digit; dot; Plus digit] ])
      (Seq [ Seq [Plus digit; Opt dot; Star digit];
             Opt (Seq [ Set_ [Ch "E"; Ch " "; Ch "|"; Ch " "; Ch "e"];
                        Opt (Set_ [Ch "+"; Ch "|"; Ch "-"]);
                        Plus digit ]) ]).

Definition block_line : re :=
  Seq [ Alt (Seq [ Star space;
                   Alt (Seq [Plus letter; Star alnum; Rep3 block_number])
                       (Set_ [Ch "#"]);
                   Star Dot ])
            (Star space);
        newline ].

Definition pos_block_regex : re :=
  Seq [ Bol; Star sp_tab; Named "natoms" (Plus (Set_ [Rg "0" "9"])); Star sp_tab; newline;
        Named "comment" (Star Dot); newline;
        Named "positions" (Plus block_line) ].

(** ** Python's [int] and [float] on text *)

Fixpoint drop_space (s : text) : text :=
  match s with
  | c :: t => if is_space c then drop_space t else s
  | [] => []
  end.

Fixpoint drop_numeral_space (s : text) : text :=
  match s with
  | c :: t => if is_numeral_space c then drop_numeral_space t else s
  | [] => []
  end.

(** The text between the white space that [int] and [float] skip. *)
Definition strip (s : text) : text :=
  rev (drop_numeral_space (rev (drop_numeral_space s))).

Fixpoint take_digits (s : text) : text * text :=
  match s with
  | c :: t => if is_digit c then let (d, r) := take_digits t in (c :: d, r) else ([], s)
  | [] => ([], [])
  end.

Definition digit_val (c : ascii) : Z := Z.of_N (N_of_ascii c - 48).

Definition digits_val (d : text) : Z :=
  fold_left (fun a c => (10 * a + digit_val c)%Z) d 0%Z.

Definition read_sign (s : text) : bool * text :=
  match s with
  | c :: t =>
      if Ascii.eqb c "-" then (true, t)
      else if Ascii.eqb c "+" then (false, t)
      else (false, s)
  | [] => (false, s)
  end.

(** [sys.get_int_max_str_digits()], as the interpreter starts. *)
Definition int_max_str_digits : Z := 4300.

(** [int(s)] in base ten, for text without underscores: surrounding white
    space, an optional sign, one or more digits, at most
    [int_max_str_digits] of them, leading zeros counted.  [None] stands for
    [ValueError]. *)
Definition py_int (s : text) : option Z :=
  let (neg, b) := read_sign (strip s) in
  match take_digits b with
  | ((_ :: _) as d, []) =>
      if (Z.of_nat (List.length d) <=? int_max_str_digits)%Z
      then Some (if neg then (- digits_val d)%Z else digits_val d)
      else None
  | _ => None
  end.

Definition lower (c : ascii) : ascii :=
  if (N.leb 65 (N_of_ascii c)) && (N.leb (N_of_ascii c) 90)
  then ascii_of_N (N_of_ascii c + 32) else c.

Fixpoint text_eqb (a b : text) : bool :=
  match a, b with
  | [], [] => true
  | x :: a', y :: b' => Ascii.eqb x y && text_eqb a' b'
  | _, _ => false
  end.

(** The binary64 number nearest to [m * 10 ^ e] (ties to even), [m >= 0]. *)
Definition dec_to_float (neg : bool) (m e : Z) : spec_float :=
  match m with
  | Zpos p =>
      if (0 <=? e)%Z then
        binary_round 53 1024 neg (p * Z.to_pos (10 ^ e)) 0
      else
        let '(q, e', l) := SFdiv_core_binary 53 1024 (Zpos p) 0 (10 ^ (- e)) 0 in
        binary_round_aux 53 1024 neg q e' l
  | _ => S754_zero neg
  end.

(** [inf], [infinity] and [nan], in any case. *)
Definition special (b : text) : option (bool -> spec_float) :=
  let lb := map lower b in
  if text_eqb lb (txt "inf") || text_eqb lb (txt "infinity") then Some S754_infinity
  else if text_eqb lb (txt "nan") then Some (fun _ => S754_nan)
  else None.

(** The exponent part of a numeral, if any: [e] or [E], an optional sign and
    one or more digits, up to the end of the text. *)
Definition parse_exponent (r : text) : option Z :=
  match r with
  | [] => Some 0%Z
  | c :: t =>
      if Ascii.eqb c "e" || Ascii.eqb c "E" then
        let (eneg, t') := read_sign t in
        match take_digits t' with
        | ((_ :: _) as ed, []) =>
            Some (if eneg then (- digits_val ed)%Z else digits_val ed)
        | _ => None
        end
      else None
  end.

(** An unsigned decimal numeral: digits with an optional point, at least one
    digit in all, and an optional exponent.  The result [(m, e)] stands for
    [m * 10 ^ e]. *)
Definition parse_decimal (b : text) : option (Z * Z) :=
  let (ip, r1) := take_digits b in
  let (fp, r2) := match r1 with
                  | c :: t => if Ascii.eqb c "." then take_digits t else ([], r1)
                  | [] => ([], r1)
                  end in
  match ip ++ fp with
  | [] => None
  | _ :: _ =>
      match parse_exponent r2 with
      | Some ev => Some (digits_val (ip ++ fp), (ev - Z.of_nat (List.length fp))%Z)
      | None => None
      end
  end.

(** [float(s)], for text without underscores: surrounding white space, an
    optional sign, then [inf], [infinity] or [nan], or a decimal numeral; the
    value is correctly rounded.  [None] stands for [ValueError]. *)
Definition py_float (s : text) : option spec_float :=
  let (neg, b) := read_sign (strip s) in
  match special b with
  | Some f => Some (f neg)
  | None =>
      match parse_decimal b with
      | Some (m, e) => Some (dec_to_float neg m e)
      | None => None
      end
  end.

Definition is_finite (f : spec_float) : bool :=
  match f with
  | S754_zero _ | S754_finite _ _ _ => true
  | _ => false
  end.

(** ** Exceptions *)

Inductive exn : Type :=
| StopIteration
| TypeError_smaller (catom natoms : Z)
    (* "Number of atom entries ({}) is smaller than the number of atoms ({})" *)
| TypeError_larger (catom natoms : Z)
    (* "Number of atom entries ({}) is larger than the number of atoms ({})" *)
| TypeError_None                  (* a conversion or a scan applied to None *)
| ValueError (arg : text)         (* int() or float() on text it cannot convert *)
| AttributeError_next.            (* the iterator object has no attribute 'next' *)

Inductive result (A : Type) : Type :=
| Return (a : A)
| Raise (e : exn).

Arguments Return {A} a.
Arguments Raise {A} e.

Definition is_arity_error (e : exn) : bool :=
  match e with
  | TypeError_smaller _ _ | TypeError_larger _ _ => true
  | _ => false
  end.

(** ** [BlockIterator] *)

Definition xyz := (spec_float * spec_float * spec_float)%type.

(** The tuples [__next__] returns: [(sym, (x, y, z))] or
    [(sym, (x, y, z), match)]. *)
Inductive atom_tuple : Type :=
| Atom2 (sym : option text) (p : xyz)
| Atom3 (sym : option text) (p : xyz) (m : match_object).

Record BlockIterator : Type := mkBlockIterator {
  _it : list match_object;
  _natoms : Z;
  _catom : Z;
  _include_match_object : bool
}.

(** [BlockIterator(it, natoms, include_match_object)] *)
Definition BlockIterator_init (it : list match_object) (natoms : Z)
           (include_match_object : bool) : BlockIterator :=
  {| _it := it; _natoms := natoms; _catom := 0;
     _include_match_object := include_match_object |}.

(** [float(match.group(n))] *)
Definition float_group (m : match_object) (n : string) : result spec_float :=
  match group m n with
  | None => Raise TypeError_None
  | Some t =>
      match py_float t with
      | Some f => Return f
      | None => Raise (ValueError t)
      end
  end.

(** The nested tuple of lines 74 to 90, its components evaluated from left
    to right. *)
Definition atom_of_match (m : match_object) (include_match_object : bool)
  : result atom_tuple :=
  let sym := group m "sym" in
  match float_group m "x" with
  | Raise e => Raise e
  | Return x =>
      match float_group m "y" with
      | Raise e => Raise e
      | Return y =>
          match float_group m "z" with
          | Raise e => Raise e
          | Return z =>
              if include_match_object
              then Return (Atom3 sym (x, y, z) m)
              else Return (Atom2 sym (x, y, z))
          end
      end
  end.

(** The iterator protocol that the object returned by [finditer]
    implements. *)
Inductive protocol : Type :=
| Python3    (* [__next__] only *)
| Python2.   (* [next] *)

(** [it.next()] on the iterator of [finditer], line 55: the outcome and the
    matches the iterator has still to produce. *)
Definition it_next (p : protocol) (it : list match_object)
  : result match_object * list match_object :=
  match p with
  | Python3 => (Raise AttributeError_next, it)
  | Python2 =>
      match it with
      | [] => (Raise StopIteration, [])
      | m :: it' => (Return m, it')
      end
  end.

(** [BlockIterator.__next__]: the outcome of the call and the iterator after
    it.  The [except] clause of line 56 catches [StopIteration] only. *)
Definition next (p : protocol) (self : BlockIterator)
  : result atom_tuple * BlockIterator :=
  match it_next p (_it self) with
  | (Raise StopIteration, _) =>
      if (_catom self =? _natoms self)%Z
      then (Raise StopIteration, self)
      else (Raise (TypeError_smaller (_catom self) (_natoms self)), self)
  | (Raise e, _) => (Raise e, self)
  | (Return m, it') =>
      let self' := {| _it := it'; _natoms := _natoms self;
                      _catom := (_catom self + 1)%Z;
                      _include_match_object := _include_match_object self |} in
      if (_catom self' >? _natoms self')%Z
      then (Raise (TypeError_larger (_catom self') (_natoms self')), self')
      else (atom_of_match m (_include_match_object self'), self')
  end.

(** [n] successive calls of [__next__], whatever each of them does. *)
Fixpoint pulls (p : protocol) (n : nat) (self : BlockIterator)
  : list (result atom_tuple) * BlockIterator :=
  match n with
  | O => ([], self)
  | S n' =>
      let (r, self') := next p self in
      let (rs, self'') := pulls p n' self' in
      (r :: rs, self'')
  end.

(** [list(it)] or a [for] loop run to its end: the tuples obtained and the
    exception that ended the loop, [StopIteration] for a normal end.  A call
    either raises or takes a match from [_it], so one call more than [_it]
    holds always reaches an exception. *)
Fixpoint drain_from (p : protocol) (fuel : nat) (self : BlockIterator)
  : list atom_tuple * option exn :=
  match fuel with
  | O => ([], None)
  | S f =>
      match next p self with
      | (Return a, self') => let (l, e) := drain_from p f self' in (a :: l, e)
      | (Raise e, _) => ([], Some e)
      end
  end.

Definition drain (p : protocol) (self : BlockIterator)
  : list atom_tuple * option exn :=
  drain_from p (S (List.length (_it self))) self.

(** ** [xyz_parser_iterator] *)

(** The tuples the generator yields.  The docstring announces
    [(natoms, comment, atomiter)], with the match object appended on
    request. *)
Inductive frame_tuple : Type :=
| Frame3 (natoms : Z) (comment : option text) (atomiter : BlockIterator)
| Frame4 (natoms : Z) (comment : option text) (atomiter : BlockIterator)
         (block : match_object).

Definition tuple_len (f : frame_tuple) : nat :=
  match f with
  | Frame3 _ _ _ => 3
  | Frame4 _ _ _ _ => 4
  end.

Definition f_natoms (f : frame_tuple) : Z :=
  match f with Frame3 n _ _ | Frame4 n _ _ _ => n end.

Definition f_comment (f : frame_tuple) : option text :=
  match f with Frame3 _ c _ | Frame4 _ c _ _ => c end.

Definition f_atomiter (f : frame_tuple) : BlockIterator :=
  match f with Frame3 _ _ a | Frame4 _ _ a _ => a end.

(** [int(block.group('natoms'))] *)
Definition int_group (m : match_object) (n : string) : result Z :=
  match group m n with
  | None => Raise TypeError_None
  | Some t =>
      match py_int t with
      | Some z => Return z
      | None => Raise (ValueError t)
      end
  end.

(** The body of the [for] loop of lines 145 to 164 for one [block]: the tuple
    it yields, or the exception it raises. *)
Definition frame_of_block (block : match_object) (include_match_object : bool)
  : result frame_tuple :=
  match int_group block "natoms" with
  | Raise e => Raise e
  | Return natoms =>
      let comment := group block "comment" in
      match group block "positions" with
      | None => Raise TypeError_None
      | Some positions =>
          if include_match_object then
            Return (Frame4 natoms comment
                      (BlockIterator_init (finditer pos_regex positions) natoms true)
                      block)
          else
            Return (Frame4 natoms comment
                      (BlockIterator_init (finditer pos_regex positions) natoms false)
                      block)
      end
  end.

(** The generator run to its end: the frames yielded, in order, and the
    exception that stopped it, if any. *)
Fixpoint frames_of (blocks : list match_object) (include_match_object : bool)
  : list frame_tuple * option exn :=
  match blocks with
  | [] => ([], None)
  | block :: bs =>
      match frame_of_block block include_match_object with
      | Raise e => ([], Some e)
      | Return f =>
          let (l, e) := frames_of bs include_match_object in (f :: l, e)
      end
  end.

Definition xyz_parser_iterator (string : text) (include_match_object : bool)
  : list frame_tuple * option exn :=
  frames_of (finditer pos_block_regex string) include_match_object.

(** ** [try_verify_by_system_ca_bundle] *)

(** Lines 10 to 25 of [__init__.py].  The file system enters through
    [path.exists] only, here the argument [path_exists]. *)
Definition CA_BUNDLE_SEARCH_PATHS : list string :=
  [ "/etc/ssl/ca-bundle.pem"%string;                (* OpenSUSE *)
    "/etc/ssl/certs/ca-certificates.crt"%string ].  (* Gentoo *)

(** The [for] loop of lines 20 to 22, with the [return None] of line 25 for
    its normal end. *)
Fixpoint first_existing (path_exists : string -> bool) (paths : list string)
  : option string :=
  match paths with
  | [] => None
  | ca_path :: paths' =>
      if path_exists ca_path then Some ca_path
      else first_existing path_exists paths'
  end.

Definition try_verify_by_system_ca_bundle (path_exists : string -> bool)
  : option string :=
  first_existing path_exists CA_BUNDLE_SEARCH_PATHS.

(** ** The caller: the scan of [struct_add]

    [fclient.py], lines 454 to 478: the loop over the frames of the file that
    fills the dictionary [structures], and the slices of the input that lines
    478 and 494 take from its entries. *)

(** [s.split(sep)] for a separator of one character: the text between
    successive separators, empty texts included. *)
Fixpoint split_on (sep : ascii) (s : text) : list text :=
  match s with
  | [] => [[]]
  | c :: t =>
      if Ascii.eqb c sep then [] :: split_on sep t
      else match split_on sep t with
           | p :: ps => (c :: p) :: ps
           | [] => [[c]]
           end
  end.

(** [l[i]] for an integer [i]: negative indices count from the end; [None]
    stands for [IndexError]. *)
Definition py_index (A : Type) (l : list A) (i : Z) : option A :=
  let n := Z.of_nat (List.length l) in
  if ((0 <=? i) && (i <? n))%Z then nth_error l (Z.to_nat i)
  else if ((- n <=? i) && (i <? 0))%Z then nth_error l (Z.to_nat (n + i))
  else None.

(** [s[a:b]] for indices that are not negative. *)
Definition slice (s : text) (a b : nat) : text := firstn (b - a) (skipn a s).

(** A dictionary with text keys, in insertion order.  Assigning to a key
    that is present replaces its value where it stands. *)
Definition dict (V : Type) : Type := list (text * V).

Fixpoint dict_set (V : Type) (k : text) (v : V) (d : dict V) : dict V :=
  match d with
  | [] => [(k, v)]
  | (k', v') :: d' =>
      if text_eqb k k' then (k, v) :: d' else (k', v') :: dict_set k v d'
  end.

Fixpoint dict_get (V : Type) (k : text) (d : dict V) : option V :=
  match d with
  | [] => None
  | (k', v') :: d' => if text_eqb k k' then Some v' else dict_get k d'
  end.

(** [k in d.keys()] *)
Definition dict_has (V : Type) (k : text) (d : dict V) : bool :=
  existsb (fun kv => text_eqb k (fst kv)) d.

(** What the scan can raise. *)
Inductive cli_exn : Type :=
| BadParameter (msg : text)
| UsageError (msg : text)
| IndexError                (* comment.split(';')[name_field] out of range *)
| AttributeError            (* comment is None *)
| UnpackError               (* a tuple that has not four components *)
| FromGenerator (e : exn).  (* raised by xyz_parser_iterator itself *)

(** The truth value of the option [--name]: [None] and the empty text are
    false. *)
Definition truthy (name : option text) : bool :=
  match name with
  | Some (_ :: _) => true
  | _ => false
  end.

(** ["...{}".format(name)] *)
Definition format_name (name : option text) : text :=
  match name with
  | Some n => n
  | None => txt "None"
  end.

(** The state of the loop: the dictionary and what [click.echo] has
    printed so far. *)
Record scan_state : Type := ScanState {
  structures : dict (nat * nat);
  echoed : list text
}.

(** The body of the loop of lines 461 to 478 for one tuple. *)
Definition struct_add_step (complete_input : text) (name : option text)
           (name_prefix : text) (name_field : Z) (dump : bool)
           (st : scan_state) (f : frame_tuple) : scan_state + cli_exn :=
  match f with
  | Frame3 _ _ _ => inr UnpackError
  | Frame4 _ comment _ match_ =>
      let named :=
        if truthy name then
          if Nat.leb 1 (List.length (structures st))
          then inr (BadParameter (txt "more than one structure found in XYZ file"))
          else inl (format_name name)
        else
          match comment with
          | None => inr AttributeError
          | Some c =>
              match py_index (split_on ";" c) name_field with
              | Some part => inl (name_prefix ++ part)
              | None => inr IndexError
              end
          end in
      match named with
      | inr e => inr e
      | inl structure_name =>
          if match name with
             | Some n => dict_has n (structures st)
             | None => false
             end
          then inr (UsageError (txt "duplicated name found for structure "
                                  ++ format_name name))
          else
            let found := txt "Found structure " ++ structure_name in
            inl {| structures := dict_set structure_name (span match_) (structures st);
                   echoed := echoed st ++ found ::
                               (if dump
                                then [slice complete_input (m_start match_) (m_end match_)]
                                else []) |}
      end
  end.

(** The loop over the tuples the generator yields, then the exception of the
    generator if it ended with one.  An exception of the body ends the loop;
    what was printed before it stays printed. *)
Fixpoint struct_add_loop (complete_input : text) (name : option text)
         (name_prefix : text) (name_field : Z) (dump : bool)
         (st : scan_state) (frames : list frame_tuple) (ended : option exn)
  : (dict (nat * nat) + cli_exn) * list text :=
  match frames with
  | [] =>
      match ended with
      | None => (inl (structures st), echoed st)
      | Some e => (inr (FromGenerator e), echoed st)
      end
  | f :: frames' =>
      match struct_add_step complete_input name name_prefix name_field dump st f with
      | inr e => (inr e, echoed st)
      | inl st' =>
          struct_add_loop complete_input name name_prefix name_field dump st' frames' ended
      end
  end.

(** Lines 457 to 478: the scan of the whole input. *)
Definition struct_add_scan (complete_input : text) (name : option text)
           (name_prefix : text) (name_field : Z) (dump : bool)
  : (dict (nat * nat) + cli_exn) * list text :=
  let (frames, ended) := xyz_parser_iterator complete_input true in
  struct_add_loop complete_input name name_prefix name_field dump
                  {| structures := []; echoed := [] |} frames ended.

(** Lines 482 and 494: the names and the slices of the input that are
    uploaded, in the order of the dictionary. *)
Definition struct_add_payloads (complete_input : text) (d : dict (nat * nat))
  : list (text * text) :=
  map (fun '(name, (spos, epos)) => (name, slice complete_input spos epos)) d.

(** ** [validate_basis_set_families]

    [fclient.py], lines 31 to 39, the callback of the options
    [--basis-set-family] and [--basis-set-family-fallback]; [values] is the
    tuple of the texts given.  Assertions are taken to be enabled. *)

(** [v.split(sep, 1)]: the text before and the text after the first
    separator, or the text alone when it holds none. *)
Fixpoint split_once (sep : ascii) (s : text) : list text :=
  match s with
  | [] => [[]]
  | c :: t =>
      if Ascii.eqb c sep then [[]; t]
      else match split_once sep t with
           | p :: ps => (c :: p) :: ps
           | [] => [[c]]
           end
  end.

(** The target [k, v] of the comprehension: [None] stands for the
    [ValueError] of unpacking a list that has not two items. *)
Definition unpack_pair (l : list text) : option (text * text) :=
  match l with
  | [k; v] => Some (k, v)
  | _ => None
  end.

(** The dictionary comprehension of line 34, value by value. *)
Fixpoint parse_families (values : list text) (parsed : dict text)
  : option (dict text) :=
  match values with
  | [] => Some parsed
  | v :: values' =>
      match unpack_pair (split_once ":" v) with
      | Some (k, v') => parse_families values' (dict_set k v' parsed)
      | None => None
      end
  end.

(** The truth value of a text. *)
Definition nonempty (t : text) : bool :=
  match t with
  | [] => false
  | _ :: _ => true
  end.

Definition validate_basis_set_families (values : list text) : dict text + cli_exn :=
  match parse_families values [] with
  | None => inr (BadParameter (txt "basis set family must be in format type:name"))
  | Some parsed =>
      if forallb nonempty (map fst parsed) && forallb nonempty (map snd parsed)
      then inl parsed
      else inr (BadParameter (txt "basis set family must be in format type:name"))
  end.

(** * Vocabulary of the properties *)

(** ** A declarative reading of patterns *)

(** [reach r c c']: read from cursor [c], the pattern [r] can match up to
    cursor [c'], recording the named groups it goes through. *)
Inductive reach : re -> cursor -> cursor -> Prop :=
| R_eps c : reach Eps c c
| R_bol c : bol c = true -> reach Bol c c
| R_dot c ch tl :
    rest c = ch :: tl -> Ascii.eqb ch LF = false -> reach Dot c (advance ch tl c)
| R_set items c ch tl :
    rest c = ch :: tl -> in_set items ch = true ->
    reach (Set_ items) c (advance ch tl c)
| R_cat r1 r2 c c1 c2 :
    reach r1 c c1 -> reach r2 c1 c2 -> reach (Cat r1 r2) c c2
| R_alt_l r1 r2 c c1 : reach r1 c c1 -> reach (Alt r1 r2) c c1
| R_alt_r r1 r2 c c1 : reach r2 c c1 -> reach (Alt r1 r2) c c1
| R_star_nil r c : reach (Star r) c c
| R_star_cons r c c1 c2 :
    reach r c c1 -> pos c < pos c1 -> reach (Star r) c1 c2 ->
    reach (Star r) c c2
| R_named n r c c1 : reach r c c1 -> reach (Named n r) c (set_cap n c c1).

(** The texts a pattern can match, captures and anchors aside. *)
Inductive in_lang : re -> text -> Prop :=
| L_eps : in_lang Eps []
| L_bol : in_lang Bol []
| L_dot ch : Ascii.eqb ch LF = false -> in_lang Dot [ch]
| L_set items ch : in_set items ch = true -> in_lang (Set_ items) [ch]
| L_cat r1 r2 w1 w2 :
    in_lang r1 w1 -> in_lang r2 w2 -> in_lang (Cat r1 r2) (w1 ++ w2)
| L_alt_l r1 r2 w : in_lang r1 w -> in_lang (Alt r1 r2) w
| L_alt_r r1 r2 w : in_lang r2 w -> in_lang (Alt r1 r2) w
| L_star_nil r : in_lang (Star r) []
| L_star_cons r w1 w2 :
    in_lang r w1 -> in_lang (Star r) w2 -> in_lang (Star r) (w1 ++ w2)
| L_named n r w : in_lang r w -> in_lang (Named n r) w.

(** Patterns without named groups leave the captures alone. *)
Fixpoint no_named (r : re) : bool :=
  match r with
  | Cat r1 r2 | Alt r1 r2 => no_named r1 && no_named r2
  | Star r1 => no_named r1
  | Named _ _ => false
  | _ => true
  end.

(** Spans that follow one another from position [p] on without overlap. *)
Fixpoint ordered_from (p : nat) (l : list match_object) : Prop :=
  match l with
  | [] => True
  | m :: l' => p <= m_start m /\ m_start m <= m_end m /\ ordered_from (m_end m) l'
  end.

(** Normal form of concatenations: nested to the right, conses pulled out. *)
Ltac app_norm := repeat (progress (cbn [app]; rewrite <- ?app_assoc)).

(** ** Lines and numerals *)

Definition no_LF (t : text) : bool := forallb (fun ch => negb (Ascii.eqb ch LF)) t.

(** The length of the longest run of digits in a text, [cur] being the
    length of the run that ends where [s] starts and [best] the longest run
    before it. *)
Fixpoint digit_run_from (cur best : nat) (s : text) : nat :=
  match s with
  | [] => Nat.max cur best
  | c :: t =>
      if is_digit c then digit_run_from (S cur) best t
      else digit_run_from 0 (Nat.max cur best) t
  end.

Definition longest_digit_run (s : text) : nat := digit_run_from 0 0 s.

(** Text on which [pos_regex] cannot start: after its spaces and tabs comes
    no letter. *)
Fixpoint skip_line_start (t : text) : bool :=
  match t with
  | [] => true
  | c :: t' =>
      if in_set [Ch " "; Ch TAB] c then skip_line_start t'
      else negb (in_set [Rg "A" "Z"; Rg "a" "z"] c)
  end.

(** A line that is white space only, or whose first character after white
    space is [#]. *)
Definition blank_or_comment (line : text) : bool :=
  match drop_space line with
  | [] => true
  | c :: _ => Ascii.eqb c "#"
  end.

(** Captured text free of the two characters that the bracketed sets of
    [pos_number] hold besides signs and exponent letters. *)
Definition clean_char (c : ascii) : bool :=
  negb (Ascii.eqb c " " || Ascii.eqb c "|").

Definition clean (t : text) : bool := forallb clean_char t.

(** The texts [pos_number] matches: sign, digits around an optional point,
    exponent. *)
Definition exponent_shape (ex : text) : Prop :=
  ex = [] \/
  exists ec es ed,
    ex = ec :: es ++ ed
    /\ in_set [Ch "E"; Ch " "; Ch "|"; Ch " "; Ch "e"] ec = true
    /\ (es = [] \/ exists c, es = [c] /\ in_set [Ch "+"; Ch "|"; Ch "-"] c = true)
    /\ forallb is_digit ed = true /\ ed <> [].

Definition numeral_shape (w : text) : Prop :=
  exists sg d1 dt d2 ex,
    w = sg ++ d1 ++ dt ++ d2 ++ ex
    /\ (sg = [] \/ exists c, sg = [c] /\ in_set [Ch "-"; Ch "|"; Ch "+"] c = true)
    /\ forallb is_digit d1 = true /\ forallb is_digit d2 = true
    /\ (dt = [] \/ dt = ["."]) /\ d1 ++ d2 <> []
    /\ exponent_shape ex.

(** How an exponent part starts, when there is one: not on a digit, not on
    the point. *)
Definition starts_exponent (ex : text) : Prop :=
  match ex with
  | [] => True
  | c :: _ => is_digit c = false /\ Ascii.eqb c "." = false
  end.

(** ** Matches of the two patterns *)

(** What every match of [pos_block_regex] looks like: the three named groups
    are set, natoms is a non-empty run of digits, the comment has no line
    feed, the positions block ends with a line feed and is the end of the
    match. *)
Definition block_shape (c e : cursor) : Prop :=
  exists lead natoms trail comment positions cn cc cp,
    caps e = [("positions"%string, cp); ("comment"%string, cc); ("natoms"%string, cn)]
    /\ c_text cn = natoms /\ c_text cc = comment
    /\ c_text cp = positions ++ [LF] /\ c_end cp = pos e
    /\ natoms <> [] /\ forallb is_digit natoms = true
    /\ no_LF comment = true
    /\ rest c = lead ++ natoms ++ trail ++ LF :: comment
                   ++ LF :: (positions ++ [LF]) ++ rest e
    /\ bol c = true.

(** The facts the generator relies on, for a match [m] of the framing pattern
    in the text [s]. *)
Definition good_block (s : text) (m : match_object) : Prop :=
  exists pre lead natoms trail comment positions post,
    group m "natoms" = Some natoms
    /\ natoms <> [] /\ forallb is_digit natoms = true
    /\ group m "comment" = Some comment
    /\ no_LF comment = true
    /\ group m "positions" = Some (positions ++ [LF])
    /\ s = pre ++ (lead ++ natoms ++ trail ++ LF :: comment
                     ++ LF :: positions ++ [LF]) ++ post
    /\ m_start m = List.length pre
    /\ m_end m = List.length pre
                 + List.length (lead ++ natoms ++ trail ++ LF :: comment
                                  ++ LF :: positions ++ [LF]).

(** What every match of [pos_regex] looks like: it starts a line on a letter
    after spaces and tabs, and its groups x, y and z hold numerals. *)
Definition good_atom_match (m : match_object) : Prop :=
  exists sym x y z,
    group m "sym" = Some sym /\ group m "x" = Some x
    /\ group m "y" = Some y /\ group m "z" = Some z
    /\ sym <> [] /\ numeral_shape x /\ numeral_shape y /\ numeral_shape z.

(** The three numeric groups of a match are set and clean. *)
Definition clean_group (m : match_object) (n : string) : bool :=
  match group m n with
  | Some t => clean t
  | None => false
  end.

Definition clean_match (m : match_object) : bool :=
  clean_group m "x" && clean_group m "y" && clean_group m "z".

(** ** Frames and atom tuples *)

(** The tuple the loop body builds for a block with these three groups. *)
Definition frame_for (m : match_object) (include_match_object : bool)
           (natoms comment positions : text) : frame_tuple :=
  Frame4 (digits_val natoms) (Some comment)
         (BlockIterator_init (finditer pos_regex (positions ++ [LF]))
                             (digits_val natoms) include_match_object)
         m.

Definition f_block (f : frame_tuple) : option match_object :=
  match f with
  | Frame4 _ _ _ block => Some block
  | Frame3 _ _ _ => None
  end.

(** Where the frame's match ends in the text, and the text of its positions
    block. *)
Definition f_span_end (f : frame_tuple) : nat :=
  match f_block f with
  | Some m => m_end m
  | None => 0
  end.

Definition f_positions (f : frame_tuple) : text :=
  match f_block f with
  | Some m => match group m "positions" with Some p => p | None => [] end
  | None => []
  end.

Definition first_frame (s : text) (b : bool) : frame_tuple :=
  hd (Frame3 0 None (BlockIterator_init [] 0 b)) (fst (xyz_parser_iterator s b)).

Definition first_match (r : re) (t : text) : match_object :=
  hd {| m_start := 0; m_end := 0; m_groups := [] |} (finditer r t).

Definition is_return (r : result atom_tuple) : bool :=
  match r with
  | Return _ => true
  | Raise _ => false
  end.

Definition no_arity_error (r : result atom_tuple) : bool :=
  match r with
  | Return _ => true
  | Raise e => negb (is_arity_error e)
  end.

(** The only exceptions a conversion raises. *)
Definition is_conversion_error (e : exn) : bool :=
  match e with
  | ValueError _ | TypeError_None => true
  | _ => false
  end.

(** The iterator after [k] calls that each took one match. *)
Definition after_pulls (k : nat) (self : BlockIterator) : BlockIterator :=
  {| _it := skipn k (_it self); _natoms := _natoms self;
     _catom := (_catom self + Z.of_nat k)%Z;
     _include_match_object := _include_match_object self |}.

(** ** Sample inputs *)

Definition water_monomer : text :=
  lines ["2"; "water monomer"; "O 0.000 0.000 0.000"; "H 0.000 0.000 0.957"]%string.

(** One atom line with a fifth column. *)
Definition extra_column : text := lines ["1"; "comment"; "H 1.0 2.0 3.0 4"]%string.

(** A coordinate beyond the range of binary64. *)
Definition huge_coordinate : text := lines ["1"; "comment"; "H 1.0 2.0 3.0e999"]%string.

(** Three atoms declared, one atom line. *)
Definition one_of_three : text := lines ["3"; "comment"; "H 1.0 2.0 3.0"]%string.

(** One atom declared, two atom lines. *)
Definition two_for_one : text :=
  lines ["1"; "comment"; "H 1.0 2.0 3.0"; "O 4.0 5.0 6.0"]%string.

(** Coordinates written without a decimal point. *)
Definition integer_coordinates : text := lines ["1"; "comment"; "H 1 2 3"]%string.

Definition with_skipped_lines : text :=
  lines ["2"; "comment"; ""; "# O 9.0 9.0 9.0"; "H 1.0 2.0 3.0"; "   ";
         "  # note"; "O 1.0 2.0 3.0"]%string.

Definition commented_and_extra_column : text :=
  lines ["1"; "comment"; "# note"; "H 1.0 2.0 3.0 4"]%string.

Definition two_frames : text :=
  lines ["1"; "first"; "H 1.0 2.0 3.0"; "2"; "second"; "O 1.0 2.0 3.0";
         "H 0.000 0.000 0.957"]%string.

Definition two_integer_frames : text :=
  lines ["1"; "first"; "H 1 2 3"; "1"; "second"; "O 4 5 6"]%string.

Definition unterminated_second_line : text :=
  lines ["1"; "comment"; "H 1.0 2.0 3.0"]%string ++ txt "O 4.0 5.0 6.0".

Definition terminated_part : text := lines ["2"; "comment"; "H 1.0 2.0 3.0"]%string.
Definition unterminated_part : text := txt "O 4.0 5.0 6.0".

(** Whether [int] accepts the count of a match of the framing pattern, and
    whether it accepts the count of every such match in a text. *)
Definition count_fits (m : match_object) : bool :=
  match group m "natoms" with
  | Some t => (Z.of_nat (List.length t) <=? int_max_str_digits)%Z
  | None => true
  end.

Definition counts_within_limit (s : text) : bool :=
  forallb count_fits (finditer pos_block_regex s).

(** One atom under a count line of 4301 digits. *)
Definition long_count : text :=
  repeat "1" 4301 ++ LF :: lines ["comment"; "H 1.0 2.0 3.0"]%string.

(** Binary64 values that occur below. *)
Definition f_0_0 : spec_float := S754_zero false.
Definition f_1_0 : spec_float := S754_finite false 4503599627370496 (-52).
Definition f_2_0 : spec_float := S754_finite false 4503599627370496 (-51).
Definition f_3_0 : spec_float := S754_finite false 6755399441055744 (-51).
(** 0x1.e9fbe76c8b439p-1, the binary64 number nearest to 0.957 *)
Definition f_0_957 : spec_float := S754_finite false 8619889686787129 (-53).

(** ** Vocabulary of the further properties *)

Definition f_span_start (f : frame_tuple) : nat :=
  match f_block f with
  | Some m => m_start m
  | None => 0
  end.

(** Whether the position just after [pre] is the start of a line. *)
Definition at_bol (pre : text) : bool :=
  match rev pre with
  | [] => true
  | c :: _ => Ascii.eqb c LF
  end.

Definition count_LF (s : text) : nat := count_occ ascii_dec s LF.

(** An atom tuple without its match object. *)
Definition erase_atom (a : atom_tuple) : atom_tuple :=
  match a with
  | Atom2 sym p => Atom2 sym p
  | Atom3 sym p _ => Atom2 sym p
  end.

Definition erase_result (r : result atom_tuple) : result atom_tuple :=
  match r with
  | Return a => Return (erase_atom a)
  | Raise e => Raise e
  end.

(** The number of tuples among the outcomes of successive calls. *)
Definition returned (rs : list (result atom_tuple)) : nat :=
  List.length (filter is_return rs).

(** The name [struct_add] reads off a frame when [--name] is not given. *)
Definition parsed_name (name_prefix : text) (name_field : Z) (f : frame_tuple)
  : option text :=
  match f_comment f with
  | Some c => option_map (app name_prefix) (py_index (split_on ";" c) name_field)
  | None => None
  end.

(** The span of the last frame of [frames] that has the name [k]. *)
Fixpoint last_span_named (name_prefix : text) (name_field : Z) (k : text)
         (frames : list frame_tuple) : option (nat * nat) :=
  match frames with
  | [] => None
  | f :: frames' =>
      match last_span_named name_prefix name_field k frames' with
      | Some sp => Some sp
      | None =>
          match parsed_name name_prefix name_field f with
          | Some n => if text_eqb k n then Some (f_span_start f, f_span_end f) else None
          | None => None
          end
      end
  end.

Definition is_UsageError (r : dict (nat * nat) + cli_exn) : bool :=
  match r with
  | inr (UsageError _) => true
  | _ => false
  end.

(** A run of spaces and tabs. *)
Definition blanks (w : text) : bool := forallb (in_set [Ch " "; Ch TAB]) w.

(** What a match of the framing pattern holds and where it lies in the
    text: blanks, the digits of group natoms, blanks, a line feed, the
    comment, a line feed, and the positions block up to its last line feed. *)
Definition block_parts (s : text) (m : match_object) : Prop :=
  exists pre lead natoms trail comment positions post,
    group m "natoms" = Some natoms
    /\ natoms <> [] /\ forallb is_digit natoms = true
    /\ blanks lead = true /\ blanks trail = true
    /\ group m "comment" = Some comment
    /\ no_LF comment = true
    /\ group m "positions" = Some (positions ++ [LF])
    /\ s = pre ++ (lead ++ natoms ++ trail ++ LF :: comment
                     ++ LF :: positions ++ [LF]) ++ post
    /\ m_start m = List.length pre
    /\ m_end m = List.length pre
                 + List.length (lead ++ natoms ++ trail ++ LF :: comment
                                  ++ LF :: positions ++ [LF]).

(** The scan of [all] stands at position [p], with [s] left to read, and the
    flag [b] tells whether [p] is the start of a line. *)
Definition synced (all : text) (p : nat) (b : bool) (s : text) : Prop :=
  exists pre, all = pre ++ s /\ p = List.length pre /\ b = at_bol pre.

(** A one-atom file whose last line has no line feed. *)
Definition no_final_newline : text :=
  lines ["1"; "comment"]%string ++ txt "H 1.0 2.0 3.0".

(** Two frames whose comments give the same name. *)
Definition same_name_twice : text :=
  lines ["1"; "water;first"; "H 1.0 2.0 3.0"; "1"; "water;second"; "O 1.0 2.0 3.0"]%string.

(** An element label: a letter, then letters and digits. *)
Definition symbol_shape (w : text) : bool :=
  match w with
  | [] => false
  | c :: w' =>
      in_set [Rg "A" "Z"; Rg "a" "z"] c
      && forallb (in_set [Rg "A" "Z"; Rg "a" "z"; Rg "0" "9"]) w'
  end.

Definition atom_sym (a : atom_tuple) : option text :=
  match a with
  | Atom2 sym _ | Atom3 sym _ _ => sym
  end.

Definition atom_match (a : atom_tuple) : option match_object :=
  match a with
  | Atom2 _ _ => None
  | Atom3 _ _ m => Some m
  end.

(** The family that the last of [values] with the type [k] gives. *)
Fixpoint last_family (k : text) (values : list text) : option text :=
  match values with
  | [] => None
  | v :: values' =>
      match last_family k values' with
      | Some x => Some x
      | None =>
          match unpack_pair (split_once ":" v) with
          | Some (k', x) => if text_eqb k k' then Some x else None
          | None => None
          end
      end
  end.

(** The match objects that the tuples of [frames] carry. *)
Fixpoint blocks_of (frames : list frame_tuple) : list match_object :=
  match frames with
  | [] => []
  | f :: frames' =>
      match f_block f with
      | Some m => m :: blocks_of frames'
      | None => blocks_of frames'
      end
  end.
(** * Properties *)

(** ** The matcher is sound for a declarative reading of patterns *)

Module ReFacts.

#[local] Hint Constructors reach : core.

Lemma star_loop_sound (r : re) :
  (forall c k v, rmatch r c k = Some v -> exists c', reach r c c' /\ k c' = Some v) ->
  forall fuel c k v,
    star_loop (rmatch r) fuel c k = Some v ->
    exists c', reach (Star r) c c' /\ k c' = Some v.
Proof.
  intros IH fuel.
  induction fuel as [|f IHf]; intros c k v H; simpl in H.
  - exists c; auto.
  - destruct (rmatch r c _) as [v0|] eqn:E.
    + injection H as ->.
      apply IH in E. destruct E as (c1 & Hr & Hk).
      destruct (Nat.ltb (pos c) (pos c1)) eqn:Hlt; [|discriminate].
      apply Nat.ltb_lt in Hlt.
      apply IHf in Hk. destruct Hk as (c2 & Hs & Hk).
      exists c2; eauto.
    + exists c; auto.
Qed.

Lemma rmatch_sound (r : re) :
  forall c k v, rmatch r c k = Some v -> exists c', reach r c c' /\ k c' = Some v.
Proof.
  induction r as [| | |items|r1 IH1 r2 IH2|r1 IH1 r2 IH2|r1 IH1|n r1 IH1];
    intros c k v H; cbn [rmatch] in H.
  - exists c; auto.
  - destruct (bol c) eqn:B; [|discriminate]. exists c; auto.
  - destruct (rest c) as [|ch tl] eqn:R; [discriminate|].
    destruct (Ascii.eqb ch LF) eqn:E; [discriminate|].
    exists (advance ch tl c); eauto.
  - destruct (rest c) as [|ch tl] eqn:R; [discriminate|].
    destruct (in_set items ch) eqn:E; [|discriminate].
    exists (advance ch tl c); eauto.
  - apply IH1 in H. destruct H as (c1 & H1 & H).
    apply IH2 in H. destruct H as (c2 & H2 & H).
    exists c2; eauto.
  - destruct (rmatch r1 c k) as [v0|] eqn:E.
    + injection H as ->. apply IH1 in E. destruct E as (c1 & H1 & Hk). eauto.
    + apply IH2 in H. destruct H as (c1 & H1 & Hk). eauto.
  - eapply star_loop_sound; eauto.
  - apply IH1 in H. destruct H as (c1 & H1 & Hk). eauto.
Qed.

(** Inversion, one lemma per constructor of patterns. *)
Lemma reach_eps_inv c c' : reach Eps c c' -> c' = c.
Proof. inversion 1; reflexivity. Qed.

Lemma reach_bol_inv c c' : reach Bol c c' -> c' = c /\ bol c = true.
Proof. inversion 1; auto. Qed.

Lemma reach_dot_inv c c' :
  reach Dot c c' ->
  exists ch tl, rest c = ch :: tl /\ Ascii.eqb ch LF = false /\ c' = advance ch tl c.
Proof. inversion 1; subst; eauto. Qed.

Lemma reach_set_inv items c c' :
  reach (Set_ items) c c' ->
  exists ch tl, rest c = ch :: tl /\ in_set items ch = true /\ c' = advance ch tl c.
Proof. inversion 1; subst; eauto. Qed.

Lemma reach_cat_inv r1 r2 c c' :
  reach (Cat r1 r2) c c' -> exists c1, reach r1 c c1 /\ reach r2 c1 c'.
Proof. inversion 1; subst; eauto. Qed.

Lemma reach_alt_inv r1 r2 c c' :
  reach (Alt r1 r2) c c' -> reach r1 c c' \/ reach r2 c c'.
Proof. inversion 1; subst; auto. Qed.

Lemma reach_star_inv r c c' :
  reach (Star r) c c' ->
  c' = c \/ exists c1, reach r c c1 /\ pos c < pos c1 /\ reach (Star r) c1 c'.
Proof. inversion 1; subst; eauto. Qed.

Lemma reach_named_inv n r c c' :
  reach (Named n r) c c' -> exists c1, reach r c c1 /\ c' = set_cap n c c1.
Proof. inversion 1; subst; eauto. Qed.

(** What a match consumes: a prefix of the remaining subject, position by
    position. *)
Lemma reach_consumes r c c' :
  reach r c c' ->
  exists w, rest c = w ++ rest c' /\ pos c' = pos c + List.length w.
Proof.
  induction 1.
  - exists []; simpl; auto.
  - exists []; simpl; auto.
  - exists [ch]; unfold advance; simpl; split; [assumption|lia].
  - exists [ch]; unfold advance; simpl; split; [assumption|lia].
  - destruct IHreach1 as (w1 & E1 & P1), IHreach2 as (w2 & E2 & P2).
    exists (w1 ++ w2). rewrite <- app_assoc, <- E2, length_app. split; [assumption|lia].
  - assumption.
  - assumption.
  - exists []; simpl; auto.
  - destruct IHreach1 as (w1 & E1 & P1), IHreach2 as (w2 & E2 & P2).
    exists (w1 ++ w2). rewrite <- app_assoc, <- E2, length_app. split; [assumption|lia].
  - destruct IHreach as (w & E & P). exists w. simpl. auto.
Qed.

Lemma reach_pos_le r c c' : reach r c c' -> pos c <= pos c'.
Proof.
  intros H. apply reach_consumes in H. destruct H as (w & _ & P). lia.
Qed.

Lemma reach_caps r c c' : reach r c c' -> no_named r = true -> caps c' = caps c.
Proof.
  induction 1; simpl; intros N; try reflexivity; try discriminate.
  - apply andb_prop in N. destruct N. rewrite IHreach2, IHreach1; auto.
  - apply andb_prop in N. destruct N. auto.
  - apply andb_prop in N. destruct N. auto.
  - rewrite IHreach2, IHreach1; auto.
Qed.

(** The text seen by a named group is the text its body consumed. *)
Lemma reach_named_text n r c c' :
  reach (Named n r) c c' ->
  exists c1 w, reach r c c1 /\ rest c = w ++ rest c1 /\
               c' = set_cap n c c1 /\
               firstn (pos c1 - pos c) (rest c) = w.
Proof.
  intros H. apply reach_named_inv in H. destruct H as (c1 & H & ->).
  destruct (reach_consumes H) as (w & E & P).
  exists c1, w. repeat split; auto.
  rewrite P, E.
  replace (pos c + List.length w - pos c) with (List.length w + 0) by lia.
  rewrite firstn_app_2. simpl. apply app_nil_r.
Qed.

(** Repetitions of a character set consume characters of the set. *)
Lemma reach_star_set items c c' :
  reach (Star (Set_ items)) c c' ->
  exists w, rest c = w ++ rest c' /\ forallb (in_set items) w = true.
Proof.
  remember (Star (Set_ items)) as r eqn:Er.
  induction 1; try discriminate.
  - exists []; auto.
  - injection Er as ->.
    destruct (IHreach2 eq_refl) as (w & E & F).
    apply reach_set_inv in H. destruct H as (ch & tl & Hr & Hi & ->).
    exists (ch :: w). simpl in *. rewrite Hr, E, Hi. auto.
Qed.

Lemma reach_plus_set items c c' :
  reach (Plus (Set_ items)) c c' ->
  exists ch w, rest c = ch :: w ++ rest c' /\
               forallb (in_set items) (ch :: w) = true.
Proof.
  intros H. apply reach_cat_inv in H. destruct H as (c1 & H1 & H2).
  apply reach_set_inv in H1. destruct H1 as (ch & tl & Hr & Hi & ->).
  apply reach_star_set in H2. destruct H2 as (w & E & F).
  exists ch, w. simpl in *. rewrite Hr, E, Hi. auto.
Qed.

Lemma reach_star_dot c c' :
  reach (Star Dot) c c' ->
  exists w, rest c = w ++ rest c' /\ forallb (fun ch => negb (Ascii.eqb ch LF)) w = true.
Proof.
  remember (Star Dot) as r eqn:Er.
  induction 1; try discriminate.
  - exists []; auto.
  - injection Er as ->.
    destruct (IHreach2 eq_refl) as (w & E & F).
    apply reach_dot_inv in H. destruct H as (ch & tl & Hr & Hi & ->).
    exists (ch :: w). simpl in *. rewrite Hr, E, Hi. auto.
Qed.

(** ** Matches produced by [scan] and [finditer] *)

Lemma scan_spec r : forall s p b st e,
  scan r p b s = Some (st, e) ->
  exists pre s' b',
    s = pre ++ s' /\ st = p + List.length pre /\
    rmatch r {| pos := st; bol := b'; rest := s'; caps := [] |} Some = Some e.
Proof.
  induction s as [|ch tl IH]; intros p b st e H; simpl in H.
  - destruct (rmatch r _ Some) as [e0|] eqn:E; [|discriminate].
    injection H as <- <-. exists [], [], b. simpl. rewrite Nat.add_0_r. auto.
  - destruct (rmatch r _ Some) as [e0|] eqn:E.
    + injection H as <- <-. exists [], (ch :: tl), b. simpl. rewrite Nat.add_0_r. auto.
    + apply IH in H. destruct H as (pre & s' & b' & -> & -> & H).
      exists (ch :: pre), s', b'. simpl. repeat split; auto; lia.
Qed.

(** Every match that [finditer_from] lists was found by the matcher, started
    with no captures, on a suffix of the text scanned. *)
Lemma finditer_from_spec r (P : match_object -> Prop) :
  forall fuel p b s,
    (forall st b' pre s' e,
        s = pre ++ s' -> st = p + List.length pre ->
        rmatch r {| pos := st; bol := b'; rest := s'; caps := [] |} Some = Some e ->
        P {| m_start := st; m_end := pos e; m_groups := caps e |}) ->
    Forall P (finditer_from r fuel p b s).
Proof.
  induction fuel as [|f IH]; intros p b s HP; simpl.
  - constructor.
  - destruct (scan r p b s) as [[st e]|] eqn:E; [|constructor].
    apply scan_spec in E. destruct E as (pre & s' & b' & Es & Est & Hm).
    constructor.
    + eapply HP; eauto.
    + destruct (rmatch_sound _ _ _ Hm) as (c' & Hr & Hk).
      injection Hk as ->.
      destruct (reach_consumes Hr) as (w & Ew & Pw). simpl in Ew, Pw.
      destruct (Nat.ltb st (pos e)).
      * apply IH. intros st2 b2 pre2 s2 e2 E2 Est2 Hm2.
        apply (HP st2 b2 (pre ++ w ++ pre2) s2 e2); auto.
        -- rewrite Es, Ew, E2, <- !app_assoc. reflexivity.
        -- rewrite !length_app. lia.
      * destruct (rest e) as [|ch tl] eqn:Re; [constructor|].
        apply IH. intros st2 b2 pre2 s2 e2 E2 Est2 Hm2.
        apply (HP st2 b2 (pre ++ w ++ ch :: pre2) s2 e2); auto.
        -- rewrite Es, Ew, E2, <- !app_assoc. reflexivity.
        -- rewrite !length_app. simpl. lia.
Qed.

Lemma finditer_spec r (P : match_object -> Prop) s :
  (forall st b' pre s' e,
      s = pre ++ s' -> st = List.length pre ->
      rmatch r {| pos := st; bol := b'; rest := s'; caps := [] |} Some = Some e ->
      P {| m_start := st; m_end := pos e; m_groups := caps e |}) ->
  Forall P (finditer r s).
Proof.
  intros HP. apply finditer_from_spec. intros; eapply HP; eauto.
Qed.

Lemma firstn_consumed (c c1 : cursor) (w : text) :
  rest c = w ++ rest c1 -> pos c1 = pos c + List.length w ->
  firstn (pos c1 - pos c) (rest c) = w.
Proof.
  intros E P. rewrite P, E.
  replace (pos c + List.length w - pos c) with (List.length w + 0) by lia.
  rewrite firstn_app_2. simpl. apply app_nil_r.
Qed.

Lemma reach_in_lang r c c' :
  reach r c c' -> exists w, rest c = w ++ rest c' /\ in_lang r w.
Proof.
  induction 1.
  - exists []. split; [reflexivity|constructor].
  - exists []. split; [reflexivity|constructor].
  - exists [ch]. split; [assumption|constructor; assumption].
  - exists [ch]. split; [assumption|constructor; assumption].
  - destruct IHreach1 as (w1 & E1 & L1), IHreach2 as (w2 & E2 & L2).
    exists (w1 ++ w2). rewrite <- app_assoc, <- E2. split; [assumption|constructor; assumption].
  - destruct IHreach as (w & E & L). exists w. split; [assumption|apply L_alt_l; assumption].
  - destruct IHreach as (w & E & L). exists w. split; [assumption|apply L_alt_r; assumption].
  - exists []. split; [reflexivity|constructor].
  - destruct IHreach1 as (w1 & E1 & L1), IHreach2 as (w2 & E2 & L2).
    exists (w1 ++ w2). rewrite <- app_assoc, <- E2. split; [assumption|constructor; assumption].
  - destruct IHreach as (w & E & L). exists w. split; [assumption|constructor; assumption].
Qed.

(** The text a named group captures belongs to the language of its body. *)
Lemma reach_named_lang n r c c' :
  reach (Named n r) c c' ->
  exists c1 w, c' = set_cap n c c1 /\ reach r c c1 /\ rest c = w ++ rest c1
               /\ firstn (pos c1 - pos c) (rest c) = w /\ in_lang r w.
Proof.
  intros H. apply reach_named_inv in H. destruct H as (c1 & H & ->).
  destruct (reach_in_lang H) as (w & E & L).
  destruct (reach_consumes H) as (w' & E' & P).
  assert (w' = w) by (rewrite E in E'; apply app_inv_tail in E'; auto). subst w'.
  exists c1, w. repeat split; auto. apply firstn_consumed; assumption.
Qed.

Lemma in_lang_eps_inv w : in_lang Eps w -> w = [].
Proof. inversion 1; reflexivity. Qed.
Lemma in_lang_set_inv items w :
  in_lang (Set_ items) w -> exists ch, w = [ch] /\ in_set items ch = true.
Proof. inversion 1; subst; eauto. Qed.
Lemma in_lang_cat_inv r1 r2 w :
  in_lang (Cat r1 r2) w -> exists w1 w2, w = w1 ++ w2 /\ in_lang r1 w1 /\ in_lang r2 w2.
Proof. inversion 1; subst; eauto. Qed.
Lemma in_lang_alt_inv r1 r2 w : in_lang (Alt r1 r2) w -> in_lang r1 w \/ in_lang r2 w.
Proof. inversion 1; subst; auto. Qed.
Lemma in_lang_opt_inv r w : in_lang (Opt r) w -> in_lang r w \/ w = [].
Proof.
  intros H. apply in_lang_alt_inv in H. destruct H as [H|H]; [auto|].
  right. apply in_lang_eps_inv. exact H.
Qed.
Lemma in_lang_star_set items w :
  in_lang (Star (Set_ items)) w -> forallb (in_set items) w = true.
Proof.
  remember (Star (Set_ items)) as r eqn:Er. induction 1; try discriminate.
  - reflexivity.
  - injection Er as ->. apply in_lang_set_inv in H. destruct H as (ch & -> & Hc).
    simpl. rewrite Hc. apply IHin_lang2. reflexivity.
Qed.
Lemma in_lang_plus_set items w :
  in_lang (Plus (Set_ items)) w -> w <> [] /\ forallb (in_set items) w = true.
Proof.
  intros H. apply in_lang_cat_inv in H. destruct H as (w1 & w2 & -> & H1 & H2).
  apply in_lang_set_inv in H1. destruct H1 as (ch & -> & Hc).
  apply in_lang_star_set in H2. simpl. rewrite Hc, H2. split; [discriminate|reflexivity].
Qed.

(** The matcher consults its continuation only at cursors the pattern reaches. *)
Lemma star_loop_ext (r : re) :
  (forall c k k', (forall c', reach r c c' -> k c' = k' c') -> rmatch r c k = rmatch r c k') ->
  forall fuel c k k',
    (forall c', reach (Star r) c c' -> k c' = k' c') ->
    star_loop (rmatch r) fuel c k = star_loop (rmatch r) fuel c k'.
Proof.
  intros IH fuel. induction fuel as [|f IHf]; intros c k k' H; simpl.
  - apply H. constructor.
  - rewrite (H c) by constructor.
    rewrite (IH c
               (fun c1 => if Nat.ltb (pos c) (pos c1) then star_loop (rmatch r) f c1 k else None)
               (fun c1 => if Nat.ltb (pos c) (pos c1) then star_loop (rmatch r) f c1 k' else None));
      [reflexivity|].
    intros c1 Hr. destruct (Nat.ltb (pos c) (pos c1)) eqn:E; [|reflexivity].
    apply Nat.ltb_lt in E. apply IHf. intros c2 Hs. apply H.
    econstructor; eauto.
Qed.

Lemma rmatch_ext (r : re) :
  forall c k k', (forall c', reach r c c' -> k c' = k' c') -> rmatch r c k = rmatch r c k'.
Proof.
  induction r as [| | |items|r1 IH1 r2 IH2|r1 IH1 r2 IH2|r1 IH1|n r1 IH1];
    intros c k k' H; cbn [rmatch].
  - apply H. constructor.
  - destruct (bol c) eqn:B; [|reflexivity]. apply H. constructor. exact B.
  - destruct (rest c) as [|ch tl] eqn:R; [reflexivity|].
    destruct (Ascii.eqb ch LF) eqn:E; [reflexivity|]. apply H. econstructor; eauto.
  - destruct (rest c) as [|ch tl] eqn:R; [reflexivity|].
    destruct (in_set items ch) eqn:E; [|reflexivity]. apply H. econstructor; eauto.
  - apply IH1. intros c1 H1. apply IH2. intros c2 H2. apply H. econstructor; eauto.
  - rewrite (IH1 c k k') by (intros; apply H; apply R_alt_l; assumption).
    rewrite (IH2 c k k') by (intros; apply H; apply R_alt_r; assumption).
    reflexivity.
  - apply star_loop_ext; assumption.
  - apply IH1. intros c1 H1. apply H. constructor. exact H1.
Qed.

Lemma reach_rest_shorter r c c' :
  reach r c c' -> pos c < pos c' -> List.length (rest c') < List.length (rest c).
Proof.
  intros H L. destruct (reach_consumes H) as (w & E & P).
  rewrite E, length_app. lia.
Qed.

(** The fuel of a repetition never runs out: any larger amount gives the same
    result. *)
Lemma star_fuel_enough r : forall fuel c k,
  List.length (rest c) < fuel ->
  star_loop (rmatch r) fuel c k = star_loop (rmatch r) (S fuel) c k.
Proof.
  induction fuel as [|f IH]; intros c k Hf; [lia|].
  cbn [star_loop].
  rewrite (@rmatch_ext r c
             (fun c1 => if Nat.ltb (pos c) (pos c1) then star_loop (rmatch r) f c1 k else None)
             (fun c1 => if Nat.ltb (pos c) (pos c1) then star_loop (rmatch r) (S f) c1 k else None));
    [reflexivity|].
  intros c1 Hr. destruct (Nat.ltb (pos c) (pos c1)) eqn:E; [|reflexivity].
  apply Nat.ltb_lt in E. apply IH.
  pose proof (reach_rest_shorter Hr E). lia.
Qed.

Lemma scan_rest r : forall s p b st e,
  scan r p b s = Some (st, e) -> List.length (rest e) <= List.length s /\ (st < pos e -> List.length (rest e) < List.length s).
Proof.
  intros s p b st e H. apply scan_spec in H.
  destruct H as (pre & s' & b' & -> & -> & Hm).
  destruct (rmatch_sound _ _ _ Hm) as (e' & Hr & He). injection He as ->.
  destruct (reach_consumes Hr) as (w & E & P). simpl in E, P.
  rewrite E, !length_app. split; lia.
Qed.

Lemma finditer_fuel_enough r : forall fuel p b s,
  List.length s < fuel ->
  finditer_from r fuel p b s = finditer_from r (S fuel) p b s.
Proof.
  induction fuel as [|f IH]; intros p b s Hf; [lia|].
  cbn [finditer_from].
  destruct (scan r p b s) as [[st e]|] eqn:E; [|reflexivity].
  destruct (@scan_rest _ _ _ _ _ _ E) as [L1 L2].
  f_equal. destruct (Nat.ltb st (pos e)) eqn:Hlt.
  - apply Nat.ltb_lt in Hlt. apply IH. specialize (L2 Hlt). lia.
  - destruct (rest e) as [|ch tl] eqn:Re; [reflexivity|].
    apply IH. simpl in L1. lia.
Qed.


Lemma ordered_from_weaken l : forall p q, q <= p -> ordered_from p l -> ordered_from q l.
Proof.
  destruct l as [|m l]; simpl; intros p q H; [auto|].
  intros (A & B & C). repeat split; auto. lia.
Qed.

Lemma finditer_from_ordered r : forall fuel p b s,
  ordered_from p (finditer_from r fuel p b s).
Proof.
  induction fuel as [|f IH]; intros p b s; cbn [finditer_from]; [exact I|].
  destruct (scan r p b s) as [[st e]|] eqn:E; [|exact I].
  apply scan_spec in E. destruct E as (pre & s' & b' & Es & Est & Hm).
  destruct (rmatch_sound _ _ _ Hm) as (e' & Hr & He). injection He as ->.
  pose proof (reach_pos_le Hr) as Hle. simpl in Hle.
  cbn [ordered_from m_start m_end]. split; [lia|]. split; [exact Hle|].
  destruct (Nat.ltb st (pos e)); [apply IH|].
  destruct (rest e) as [|ch tl]; [exact I|].
  apply (@ordered_from_weaken _ (S (pos e))); [lia|apply IH].
Qed.

End ReFacts.

Import ReFacts.

(** ** Conversions on the text the patterns capture *)

Lemma digit_not_space c : is_digit c = true -> is_space c = false.
Proof.
  destruct c as [[] [] [] [] [] [] [] []]; intros H; try discriminate H; reflexivity.
Qed.

Lemma digit_not_sign c :
  is_digit c = true -> Ascii.eqb c "-" = false /\ Ascii.eqb c "+" = false.
Proof.
  destruct c as [[] [] [] [] [] [] [] []]; intros H; try discriminate H; split; reflexivity.
Qed.

Lemma digit_val_nonneg c : (0 <= digit_val c)%Z.
Proof. unfold digit_val. apply N2Z.is_nonneg. Qed.

Lemma digits_val_nonneg d : (0 <= digits_val d)%Z.
Proof.
  unfold digits_val.
  assert (G : forall a, (0 <= a)%Z ->
             (0 <= fold_left (fun a c => (10 * a + digit_val c)%Z) d a)%Z).
  { induction d as [|c d IH]; intros a Ha; cbn [fold_left]; [assumption|].
    apply IH. pose proof (digit_val_nonneg c). lia. }
  apply G. lia.
Qed.

Lemma take_digits_all d :
  forallb is_digit d = true -> take_digits d = (d, []).
Proof.
  induction d as [|c d IH]; simpl; intros H; [reflexivity|].
  apply andb_prop in H. destruct H as [Hc Hd].
  rewrite Hc, (IH Hd). reflexivity.
Qed.

(** What [int] and [float] skip is white space for the patterns too. *)
Lemma numeral_space_is_space c : is_numeral_space c = true -> is_space c = true.
Proof.
  destruct c as [[] [] [] [] [] [] [] []]; intros H; try discriminate H; reflexivity.
Qed.

Lemma not_space_not_numeral_space c :
  is_space c = false -> is_numeral_space c = false.
Proof.
  intros H. destruct (is_numeral_space c) eqn:E; [|reflexivity].
  rewrite (numeral_space_is_space _ E) in H. discriminate.
Qed.

Lemma drop_space_digits d :
  forallb is_digit d = true -> drop_numeral_space d = d.
Proof.
  destruct d as [|c d]; simpl; intros H; [reflexivity|].
  apply andb_prop in H. destruct H as [Hc _].
  rewrite (not_space_not_numeral_space _ (digit_not_space _ Hc)). reflexivity.
Qed.

Lemma forallb_rev (A : Type) (f : A -> bool) l :
  forallb f (rev l) = forallb f l.
Proof.
  induction l as [|a l IH]; simpl; [reflexivity|].
  rewrite forallb_app, IH. simpl. rewrite andb_true_r. apply andb_comm.
Qed.

Lemma strip_digits d : forallb is_digit d = true -> strip d = d.
Proof.
  intros H. unfold strip.
  rewrite (drop_space_digits _ H).
  rewrite drop_space_digits by (rewrite forallb_rev; exact H).
  apply rev_involutive.
Qed.

(** [int] on a non-empty run of digits: a number that is not negative when
    the run is within the limit, [ValueError] when it is longer. *)
Lemma py_int_digits c d :
  forallb is_digit (c :: d) = true ->
  py_int (c :: d)
  = if (Z.of_nat (List.length (c :: d)) <=? int_max_str_digits)%Z
    then Some (digits_val (c :: d)) else None.
Proof.
  intros H. unfold py_int. rewrite (strip_digits _ H).
  pose proof H as H'. simpl in H'. apply andb_prop in H'. destruct H' as [Hc _].
  destruct (digit_not_sign _ Hc) as [E1 E2].
  unfold read_sign. rewrite E1, E2.
  rewrite (take_digits_all _ H). reflexivity.
Qed.

(** ** The shape of a match of the framing pattern *)

Lemma in_set_09 c : in_set [Rg "0" "9"] c = is_digit c.
Proof. unfold in_set. simpl. apply orb_false_r. Qed.

Lemma reach_newline c c' :
  reach newline c c' ->
  exists tl, rest c = LF :: tl /\ c' = advance LF tl c.
Proof.
  intros H. apply reach_set_inv in H. destruct H as (ch & tl & Hr & Hi & ->).
  unfold in_set in Hi. simpl in Hi. rewrite orb_false_r in Hi.
  apply Ascii.eqb_eq in Hi. subst ch. eauto.
Qed.

Lemma block_line_no_named : no_named block_line = true.
Proof. reflexivity. Qed.

(** A line of the positions block ends with the line feed of line 139. *)
Lemma reach_block_line c c' :
  reach block_line c c' ->
  exists w, rest c = (w ++ [LF]) ++ rest c' /\ bol c' = true.
Proof.
  intros H. unfold block_line in H. simpl in H.
  apply reach_cat_inv in H. destruct H as (c1 & H1 & H2).
  apply reach_newline in H2. destruct H2 as (tl & Hr & ->).
  destruct (reach_consumes H1) as (w & E & _).
  exists w. simpl. rewrite <- app_assoc. simpl. rewrite E, Hr. auto.
Qed.

Lemma reach_star_block_line c c' :
  reach (Star block_line) c c' ->
  c' = c \/ exists w, rest c = (w ++ [LF]) ++ rest c' /\ bol c' = true.
Proof.
  remember (Star block_line) as r eqn:Er.
  induction 1; try discriminate; [left; reflexivity|].
  injection Er as ->. right.
  apply reach_block_line in H. destruct H as (w1 & E1 & B1).
  destruct (IHreach2 eq_refl) as [->|(w2 & E2 & B2)].
  - exists w1. auto.
  - exists ((w1 ++ [LF]) ++ w2). rewrite E1, E2, <- !app_assoc. auto.
Qed.

Lemma reach_plus_block_line c c' :
  reach (Plus block_line) c c' ->
  exists w, rest c = (w ++ [LF]) ++ rest c' /\ bol c' = true.
Proof.
  intros H. apply reach_cat_inv in H. destruct H as (c1 & H1 & H2).
  apply reach_block_line in H1. destruct H1 as (w1 & E1 & B1).
  apply reach_star_block_line in H2. destruct H2 as [->|(w2 & E2 & B2)].
  - exists w1. auto.
  - exists ((w1 ++ [LF]) ++ w2). rewrite E1, E2, <- !app_assoc. auto.
Qed.


Lemma block_match_shape c e :
  caps c = [] -> reach pos_block_regex c e -> block_shape c e.
Proof.
  intros Hc H. unfold pos_block_regex in H. simpl in H.
  apply reach_cat_inv in H. destruct H as (c0 & H0 & H).
  apply reach_bol_inv in H0. destruct H0 as [-> Hbol].
  apply reach_cat_inv in H. destruct H as (c1 & H1 & H).
  pose proof (reach_caps H1 eq_refl) as C1.
  apply reach_star_set in H1. destruct H1 as (lead & E1 & _).
  apply reach_cat_inv in H. destruct H as (c2 & H2 & H).
  apply reach_named_inv in H2. destruct H2 as (c2' & H2 & ->).
  pose proof (reach_caps H2 eq_refl) as C2.
  destruct (reach_consumes H2) as (d & E2 & P2).
  pose proof (@firstn_consumed _ _ _ E2 P2) as T2.
  apply reach_plus_set in H2. destruct H2 as (ch & dw & E2' & F2).
  assert (Ed : d = ch :: dw).
  { rewrite E2 in E2'. change (ch :: dw ++ rest c2') with ((ch :: dw) ++ rest c2') in E2'.
    apply app_inv_tail in E2'. exact E2'. }
  apply reach_cat_inv in H. destruct H as (c3 & H3 & H).
  pose proof (reach_caps H3 eq_refl) as C3.
  apply reach_star_set in H3. destruct H3 as (trail & E3 & _).
  apply reach_cat_inv in H. destruct H as (c4 & H4 & H).
  apply reach_newline in H4. destruct H4 as (tl4 & E4 & ->).
  apply reach_cat_inv in H. destruct H as (c5 & H5 & H).
  apply reach_named_inv in H5. destruct H5 as (c5' & H5 & ->).
  pose proof (reach_caps H5 eq_refl) as C5.
  destruct (reach_consumes H5) as (cm & E5 & P5).
  pose proof (@firstn_consumed _ _ _ E5 P5) as T5.
  apply reach_star_dot in H5. destruct H5 as (cm' & E5' & F5).
  assert (Ecm : cm = cm').
  { rewrite E5 in E5'. apply app_inv_tail in E5'. exact E5'. }
  subst cm'.
  apply reach_cat_inv in H. destruct H as (c6 & H6 & H).
  apply reach_newline in H6. destruct H6 as (tl6 & E6 & ->).
  apply reach_named_inv in H. destruct H as (c7 & H7 & ->).
  pose proof (reach_caps H7 eq_refl) as C7.
  destruct (reach_consumes H7) as (ps & E7 & P7).
  pose proof (@firstn_consumed _ _ _ E7 P7) as T7.
  apply reach_plus_block_line in H7. destruct H7 as (pw & E7' & _).
  assert (Eps : ps = pw ++ [LF]).
  { rewrite E7 in E7'. apply app_inv_tail in E7'. exact E7'. }
  assert (Fd : forallb is_digit d = true).
  { rewrite Ed. rewrite forallb_forall in *. intros x Hx.
    rewrite <- in_set_09. apply F2. exact Hx. }
  clear F2.
  simpl in *.
  exists lead, d, trail, cm, pw.
  eexists _, _, _. simpl.
  rewrite C7, C5, C3, C2, C1, Hc. split; [reflexivity|]. simpl.
  rewrite T2, T5, T7, Eps.
  repeat split; auto.
  - rewrite Ed; discriminate.
  - rewrite E1, E2, E3, E4, E5, E6, E7, Eps. reflexivity.
Qed.

(** ** Every block that [finditer] hands to the generator *)

Lemma finditer_block_good s : Forall (good_block s) (finditer pos_block_regex s).
Proof.
  apply finditer_spec. intros st b' pre s' e Es Est Hm.
  destruct (rmatch_sound _ _ _ Hm) as (e' & Hr & He). injection He as ->.
  destruct (reach_consumes Hr) as (w & Ew & Pw). simpl in Ew, Pw.
  apply block_match_shape in Hr; [|reflexivity].
  destruct Hr as (lead & natoms & trail & comment & positions & cn & cc & cp
                  & Hcaps & Tn & Tc & Tp & _ & Hne & Hd & Hl & Ht & _).
  simpl in Ht.
  assert (Hw : w = lead ++ natoms ++ trail ++ LF :: comment ++ LF :: positions ++ [LF]).
  { apply (app_inv_tail (rest e)).
    rewrite <- Ew, Ht. app_norm. reflexivity. }
  exists pre, lead, natoms, trail, comment, positions, (rest e).
  unfold group. simpl. rewrite Hcaps. simpl. rewrite Tn, Tc, Tp.
  repeat split; auto.
  - rewrite Es, Ew, Hw. reflexivity.
  - rewrite Pw, Hw, Est. reflexivity.
Qed.

Lemma frame_of_good_block s m b :
  good_block s m ->
  exists natoms comment positions,
    group m "natoms" = Some natoms
    /\ group m "positions" = Some (positions ++ [LF])
    /\ frame_of_block m b
       = if (Z.of_nat (List.length natoms) <=? int_max_str_digits)%Z
         then Return (frame_for m b natoms comment positions)
         else Raise (ValueError natoms).
Proof.
  intros (pre & lead & natoms & trail & comment & positions & post
          & Gn & Hne & Hd & Gc & _ & Gp & _).
  exists natoms, comment, positions. split; [exact Gn|]. split; [exact Gp|].
  unfold frame_of_block, int_group. rewrite Gn.
  destruct natoms as [|c d]; [contradiction|].
  rewrite (py_int_digits _ _ Hd).
  destruct (Z.of_nat (List.length (c :: d)) <=? int_max_str_digits)%Z; [|reflexivity].
  rewrite Gc, Gp. destruct b; reflexivity.
Qed.

(** The generator yields the tuples of the blocks up to the first one whose
    body raises, and ends normally only after the last block. *)
Lemma frames_of_prefix b : forall blocks,
  exists ms rest,
    blocks = ms ++ rest
    /\ Forall2 (fun m f => frame_of_block m b = Return f) ms (fst (frames_of blocks b))
    /\ (snd (frames_of blocks b) = None -> rest = []).
Proof.
  induction blocks as [|m blocks IH]; cbn [frames_of].
  - exists [], []. repeat split; constructor.
  - destruct (frame_of_block m b) as [f|e] eqn:E.
    + destruct IH as (ms & rest & -> & F2 & Hn).
      destruct (frames_of (ms ++ rest) b) as [l e']. cbn [fst snd] in *.
      exists (m :: ms), rest. repeat split; [constructor; assumption|exact Hn].
    + exists [], (m :: blocks). cbn [fst snd]. repeat split; [constructor|discriminate].
Qed.

Lemma Forall2_In_r (A B : Type) (R : A -> B -> Prop) l1 l2 y :
  Forall2 R l1 l2 -> In y l2 -> exists x, In x l1 /\ R x y.
Proof.
  induction 1 as [|a b0 l1 l2 Hab H IH]; simpl; intros Hin; [contradiction|].
  destruct Hin as [<-|Hin].
  - exists a. auto.
  - destruct (IH Hin) as (x & Hx & Hr). exists x. auto.
Qed.

(** A yielded tuple is the tuple of one match of the framing pattern. *)
Lemma frame_block s b f :
  In f (fst (xyz_parser_iterator s b)) ->
  exists m, In m (finditer pos_block_regex s) /\ frame_of_block m b = Return f.
Proof.
  unfold xyz_parser_iterator. intros Hin.
  destruct (frames_of_prefix b (finditer pos_block_regex s)) as (ms & rest & E & F2 & _).
  destruct (@Forall2_In_r _ _ _ _ _ f F2 Hin) as (m & Hm & Hr).
  exists m. split; [rewrite E; apply in_or_app; left; exact Hm|exact Hr].
Qed.

(** When no count exceeds the limit of [int], the generator runs to its end:
    one tuple for each block. *)
Lemma frames_of_good s b : forall blocks,
  Forall (good_block s) blocks ->
  Forall (fun m => forall t, group m "natoms" = Some t ->
                   (Z.of_nat (List.length t) <= int_max_str_digits)%Z) blocks ->
  snd (frames_of blocks b) = None
  /\ Forall2 (fun m f => frame_of_block m b = Return f) blocks (fst (frames_of blocks b)).
Proof.
  induction 1 as [|m blocks Hm Hbs IH]; intros Hl; simpl.
  - split; [reflexivity|constructor].
  - inversion Hl as [|? ? Hlm Hlb]; subst.
    destruct (frame_of_good_block b Hm) as (n & c & p & Gn & _ & E).
    specialize (Hlm n Gn). apply Z.leb_le in Hlm. rewrite Hlm in E.
    rewrite E. destruct (frames_of blocks b) as [l e]. simpl in *.
    destruct (IH Hlb) as [-> IH']. split; [reflexivity|]. constructor; assumption.
Qed.

(** A frame the generator yields comes from one block of the text. *)
Lemma frame_origin s b f :
  In f (fst (xyz_parser_iterator s b)) ->
  exists m natoms comment positions,
    In m (finditer pos_block_regex s) /\ good_block s m
    /\ group m "positions" = Some (positions ++ [LF])
    /\ f = frame_for m b natoms comment positions.
Proof.
  intros Hin. destruct (frame_block _ _ _ Hin) as (m & Hm & Hr).
  pose proof (finditer_block_good s) as G. rewrite Forall_forall in G.
  destruct (frame_of_good_block b (G m Hm)) as (n & c & p & _ & Gp & E).
  rewrite E in Hr.
  destruct (Z.of_nat (List.length n) <=? int_max_str_digits)%Z; [|discriminate].
  injection Hr as <-. exists m, n, c, p. auto.
Qed.

Lemma frame_natoms_nonneg s b f :
  In f (fst (xyz_parser_iterator s b)) -> (0 <= f_natoms f)%Z.
Proof.
  intros H. destruct (frame_origin _ _ _ H) as (m & n & c & p & _ & _ & _ & ->).
  simpl. apply digits_val_nonneg.
Qed.

(** The atom iterator of a yielded frame is fresh: no call of [__next__] has
    happened, and it holds the frame's declared count. *)
Lemma frame_atomiter_fresh s b f :
  In f (fst (xyz_parser_iterator s b)) ->
  f_atomiter f = BlockIterator_init (_it (f_atomiter f)) (f_natoms f) b.
Proof.
  intros H. destruct (frame_origin _ _ _ H) as (m & n & c & p & _ & _ & _ & ->).
  reflexivity.
Qed.

(** ** [BlockIterator.__next__], call by call *)

Lemma float_group_raises m n e :
  float_group m n = Raise e -> is_conversion_error e = true.
Proof.
  unfold float_group. destruct (group m n) as [t|].
  - destruct (py_float t); intros H; [discriminate|]. injection H as <-. reflexivity.
  - intros H. injection H as <-. reflexivity.
Qed.

Lemma atom_of_match_raises m b e :
  atom_of_match m b = Raise e -> is_conversion_error e = true.
Proof.
  unfold atom_of_match.
  destruct (float_group m "x") eqn:Ex;
    [|intros H; injection H as <-; exact (float_group_raises _ _ Ex)].
  destruct (float_group m "y") eqn:Ey;
    [|intros H; injection H as <-; exact (float_group_raises _ _ Ey)].
  destruct (float_group m "z") eqn:Ez;
    [|intros H; injection H as <-; exact (float_group_raises _ _ Ez)].
  destruct b; discriminate.
Qed.

Lemma atom_of_match_no_arity m b : no_arity_error (atom_of_match m b) = true.
Proof.
  destruct (atom_of_match m b) as [a|e] eqn:E; [reflexivity|].
  apply atom_of_match_raises in E. destruct e; try discriminate E; reflexivity.
Qed.

(** Under the protocol of Python 2 the call of line 55 takes the next match
    or raises [StopIteration], and [__next__] is this. *)
Lemma next_Python2 self :
  next Python2 self =
  match _it self with
  | [] =>
      if (_catom self =? _natoms self)%Z
      then (Raise StopIteration, self)
      else (Raise (TypeError_smaller (_catom self) (_natoms self)), self)
  | m :: it' =>
      let self' := {| _it := it'; _natoms := _natoms self;
                      _catom := (_catom self + 1)%Z;
                      _include_match_object := _include_match_object self |} in
      if (_catom self' >? _natoms self')%Z
      then (Raise (TypeError_larger (_catom self') (_natoms self')), self')
      else (atom_of_match m (_include_match_object self'), self')
  end.
Proof. unfold next, it_next. destruct (_it self); reflexivity. Qed.

(** Under the protocol of Python 3 the call of line 55 raises
    [AttributeError], which line 56 does not catch: nothing is counted and
    no match is taken. *)
Lemma next_Python3 self : next Python3 self = (Raise AttributeError_next, self).
Proof. reflexivity. Qed.

Lemma pulls_Python3 : forall n self,
  pulls Python3 n self = (repeat (Raise AttributeError_next) n, self).
Proof.
  induction n as [|n IH]; intros self; [reflexivity|].
  cbn [pulls]. rewrite next_Python3, IH. reflexivity.
Qed.

Lemma drain_Python3 self : drain Python3 self = ([], Some AttributeError_next).
Proof. reflexivity. Qed.

Lemma after_pulls_0 self : after_pulls 0 self = self.
Proof. destruct self. unfold after_pulls. simpl. rewrite Z.add_0_r. reflexivity. Qed.

Lemma after_pulls_S k self m it' :
  _it self = m :: it' ->
  after_pulls k {| _it := it'; _natoms := _natoms self;
                   _catom := (_catom self + 1)%Z;
                   _include_match_object := _include_match_object self |}
  = after_pulls (S k) self.
Proof.
  intros E. unfold after_pulls. simpl. rewrite E. f_equal. lia.
Qed.

(** While matches remain and the count stays within the declared number, each
    call returns the tuple of the next match, or the exception of its
    conversion. *)
Lemma pulls_within : forall k self,
  k <= List.length (_it self) ->
  (_catom self + Z.of_nat k <= _natoms self)%Z ->
  pulls Python2 k self =
  (map (fun m => atom_of_match m (_include_match_object self)) (firstn k (_it self)),
   after_pulls k self).
Proof.
  induction k as [|k IH]; intros self Hk Hc.
  - simpl. rewrite after_pulls_0. reflexivity.
  - destruct (_it self) as [|m it'] eqn:E; [simpl in Hk; lia|].
    cbn [pulls]. rewrite next_Python2. rewrite E.
    cbn [_catom _natoms _include_match_object].
    destruct (Z.gtb_spec (_catom self + 1) (_natoms self)) as [G|G]; [lia|].
    rewrite IH; cbn [_it _catom _natoms _include_match_object].
    + rewrite (after_pulls_S k self E). reflexivity.
    + simpl in Hk. lia.
    + lia.
Qed.

Lemma pulls_app p : forall j k self,
  pulls p (j + k) self =
  (fst (pulls p j self) ++ fst (pulls p k (snd (pulls p j self))),
   snd (pulls p k (snd (pulls p j self)))).
Proof.
  induction j as [|j IH]; intros k self.
  - simpl. destruct (pulls p k self); reflexivity.
  - cbn [Nat.add pulls]. destruct (next p self) as [r self1].
    rewrite IH. destruct (pulls p j self1) as [rs self2]. simpl.
    destruct (pulls p k self2); reflexivity.
Qed.

Lemma pulls_1 p self : pulls p 1 self = ([fst (next p self)], snd (next p self)).
Proof. simpl. destruct (next p self); reflexivity. Qed.

(** The call that finds one match too many. *)
Lemma next_over self m it' :
  _it self = m :: it' -> (_natoms self < _catom self + 1)%Z ->
  next Python2 self =
  (Raise (TypeError_larger (_catom self + 1) (_natoms self)), after_pulls 1 self).
Proof.
  intros E H. rewrite next_Python2. rewrite E. cbn [_catom _natoms].
  destruct (Z.gtb_spec (_catom self + 1) (_natoms self)) as [G|G]; [|lia].
  unfold after_pulls. rewrite E. reflexivity.
Qed.

(** The call that finds the wrapped iterator exhausted. *)
Lemma next_exhausted self :
  _it self = [] ->
  next Python2 self =
  (Raise (if (_catom self =? _natoms self)%Z then StopIteration
          else TypeError_smaller (_catom self) (_natoms self)), self).
Proof.
  intros E. rewrite next_Python2. rewrite E. destruct (_catom self =? _natoms self)%Z; reflexivity.
Qed.

(** [StopIteration] leaves [__next__] only from an exhausted iterator whose
    count has reached the declared number. *)
Lemma next_stop self self' :
  next Python2 self = (Raise StopIteration, self') ->
  _it self = [] /\ _catom self = _natoms self.
Proof.
  rewrite next_Python2. destruct (_it self) as [|m it'].
  - destruct (Z.eqb_spec (_catom self) (_natoms self)); intros H; [auto|discriminate].
  - cbn [_catom _natoms _include_match_object].
    destruct (_ >? _)%Z; intros H; [discriminate|].
    apply (f_equal fst) in H. simpl in H.
    apply atom_of_match_raises in H. discriminate H.
Qed.

(** Calls never lose track of how many matches were taken. *)
Lemma next_count self :
  (_catom (snd (next Python2 self)) + Z.of_nat (List.length (_it (snd (next Python2 self))))
   = _catom self + Z.of_nat (List.length (_it self)))%Z
  /\ _natoms (snd (next Python2 self)) = _natoms self.
Proof.
  rewrite next_Python2. destruct (_it self) as [|m it'] eqn:E.
  - destruct (_ =? _)%Z; simpl; rewrite E; auto.
  - cbn [_catom _natoms _include_match_object].
    destruct (_ >? _)%Z; simpl; split; auto; lia.
Qed.

Lemma pulls_stop_only : forall j self,
  In (Raise StopIteration) (fst (pulls Python2 j self)) ->
  (_catom self + Z.of_nat (List.length (_it self)) = _natoms self)%Z.
Proof.
  induction j as [|j IH]; intros self H; [contradiction|].
  cbn [pulls] in H. destruct (next Python2 self) as [r self1] eqn:En.
  destruct (pulls Python2 j self1) as [rs self2] eqn:Ep. simpl in H.
  destruct H as [->|H].
  - apply next_stop in En. destruct En as [E1 E2]. rewrite E1. simpl. lia.
  - pose proof (next_count self) as [C N]. rewrite En in C, N. simpl in C, N.
    rewrite <- C, <- N. apply IH. rewrite Ep. exact H.
Qed.

Lemma pulls_S p n self :
  pulls p (S n) self =
  (fst (next p self) :: fst (pulls p n (snd (next p self))),
   snd (pulls p n (snd (next p self)))).
Proof.
  cbn [pulls]. destruct (next p self) as [r s1]. simpl.
  destruct (pulls p n s1); reflexivity.
Qed.

(** A loop over the iterator stops at the first exception. *)
Lemma drain_from_pulls p : forall recs e fuel self self',
  pulls p (S (List.length recs)) self = (map Return recs ++ [Raise e], self') ->
  List.length recs < fuel ->
  drain_from p fuel self = (recs, Some e).
Proof.
  induction recs as [|a recs IH]; intros e fuel self self' H Hf;
    (destruct fuel as [|fuel]; [lia|]); rewrite pulls_S in H;
    cbn [drain_from]; destruct (next p self) as [r s1];
    cbn [fst snd map app List.length] in H.
  - injection H as -> _. reflexivity.
  - injection H as -> Hrs _.
    rewrite (IH e fuel s1 (snd (pulls p (S (List.length recs)) s1)));
      [reflexivity| |simpl in Hf; lia].
    rewrite <- Hrs. apply surjective_pairing.
Qed.


Unset Implicit Arguments.

Lemma next_returns self a self' :
  next Python2 self = (Return a, self') -> S (List.length (_it self')) = List.length (_it self).
Proof.
  rewrite next_Python2. destruct (_it self) as [|m it'].
  - destruct (_ =? _)%Z; discriminate.
  - cbn [_catom _natoms _include_match_object].
    destruct (_ >? _)%Z; [discriminate|]. intros H. injection H as _ <-. reflexivity.
Qed.

Lemma drain_from_ends : forall fuel self,
  List.length (_it self) < fuel -> exists e, snd (drain_from Python2 fuel self) = Some e.
Proof.
  induction fuel as [|f IH]; intros self Hf; [lia|].
  cbn [drain_from]. destruct (next Python2 self) as [[a|e] self'] eqn:E.
  - apply next_returns in E.
    destruct (IH self') as (e & He); [lia|].
    destruct (drain_from Python2 f self') as [l o]. simpl in *. eauto.
  - simpl. eauto.
Qed.


Lemma after_pulls_add j k self :
  after_pulls j (after_pulls k self) = after_pulls (j + k) self.
Proof.
  unfold after_pulls. cbn [_it _natoms _catom _include_match_object].
  rewrite skipn_skipn. f_equal. lia.
Qed.

(** More matches than declared: call [n + 1] raises, after [n] calls that
    each gave the tuple of one match. *)
Lemma pulls_over n ms b :
  n < List.length ms ->
  pulls Python2 (S n) (BlockIterator_init ms (Z.of_nat n) b)
  = (map (fun m => atom_of_match m b) (firstn n ms)
       ++ [Raise (TypeError_larger (Z.of_nat n + 1) (Z.of_nat n))],
     after_pulls (S n) (BlockIterator_init ms (Z.of_nat n) b)).
Proof.
  intros Hn. set (it := BlockIterator_init ms (Z.of_nat n) b).
  replace (S n) with (n + 1) at 1 by lia.
  rewrite pulls_app, (@pulls_within n it); cbn [fst snd];
    [|simpl; lia|simpl; lia].
  rewrite pulls_1.
  destruct (skipn n ms) as [|m it'] eqn:Es.
  { apply (f_equal (@List.length _)) in Es. rewrite length_skipn in Es. simpl in Es. lia. }
  rewrite (@next_over (after_pulls n it) m it'); [|exact Es|simpl; lia].
  cbn [fst snd]. rewrite after_pulls_add. f_equal.
Qed.

(** No more matches than declared: the call after the last match raises
    [StopIteration] if the counts agree and the error for too few entries
    otherwise. *)
Lemma pulls_exhaust ms N b :
  (Z.of_nat (List.length ms) <= N)%Z ->
  pulls Python2 (S (List.length ms)) (BlockIterator_init ms N b)
  = (map (fun m => atom_of_match m b) ms
       ++ [Raise (if (Z.of_nat (List.length ms) =? N)%Z then StopIteration
                  else TypeError_smaller (Z.of_nat (List.length ms)) N)],
     after_pulls (List.length ms) (BlockIterator_init ms N b)).
Proof.
  intros Hn. set (it := BlockIterator_init ms N b).
  replace (S (List.length ms)) with (List.length ms + 1) by lia.
  rewrite pulls_app, (@pulls_within (List.length ms) it); cbn [fst snd];
    [|simpl; lia|simpl; lia].
  rewrite pulls_1, next_exhausted; [|simpl; apply skipn_all].
  cbn [fst snd]. simpl. rewrite firstn_all. reflexivity.
Qed.

Lemma map_Return_length (recs : list atom_tuple) (l : list (result atom_tuple)) :
  map Return recs = l -> List.length recs = List.length l.
Proof. intros <-. symmetry. apply length_map. Qed.

Lemma exhausted_init ms N b :
  let it := BlockIterator_init ms N b in
  let m := List.length ms in
  let all := map (fun x => atom_of_match x b) ms in
  ((Z.of_nat m < N)%Z ->
     pulls Python2 (S m) it
     = (all ++ [Raise (TypeError_smaller (Z.of_nat m) N)], after_pulls m it)
     /\ (forall recs, map Return recs = all ->
           drain Python2 it = (recs, Some (TypeError_smaller (Z.of_nat m) N))))
  /\ (Z.of_nat m = N ->
        pulls Python2 (S m) it = (all ++ [Raise StopIteration], after_pulls m it)
        /\ (forall recs, map Return recs = all ->
              drain Python2 it = (recs, Some StopIteration)))
  /\ (forall j, In (Raise StopIteration) (fst (pulls Python2 j it)) -> Z.of_nat m = N).
Proof.
  intros it m all.
  assert (P : (Z.of_nat m <= N)%Z ->
              pulls Python2 (S m) it
              = (all ++ [Raise (if (Z.of_nat m =? N)%Z then StopIteration
                                else TypeError_smaller (Z.of_nat m) N)],
                 after_pulls m it)).
  { intros Hle. apply pulls_exhaust. exact Hle. }
  assert (D : forall e recs,
             pulls Python2 (S m) it = (all ++ [Raise e], after_pulls m it) ->
             map Return recs = all -> drain Python2 it = (recs, Some e)).
  { intros e recs Hp Hrecs. unfold drain.
    pose proof (map_Return_length _ _ Hrecs) as Lr.
    unfold all in Lr. rewrite length_map in Lr. fold m in Lr.
    apply (@drain_from_pulls Python2 recs _ _ it (after_pulls m it)); [|simpl; fold m; lia].
    rewrite Lr, Hrecs. exact Hp. }
  repeat split.
  - rewrite P by lia. destruct (Z.eqb_spec (Z.of_nat m) N); [lia|reflexivity].
  - intros recs Hrecs. apply D; [|exact Hrecs].
    rewrite P by lia. destruct (Z.eqb_spec (Z.of_nat m) N); [lia|reflexivity].
  - rewrite P by lia. destruct (Z.eqb_spec (Z.of_nat m) N); [reflexivity|lia].
  - intros recs Hrecs. apply D; [|exact Hrecs].
    rewrite P by lia. destruct (Z.eqb_spec (Z.of_nat m) N); [reflexivity|lia].
  - intros j Hj. apply pulls_stop_only in Hj. simpl in Hj. fold m in Hj. lia.
Qed.

Lemma no_LF_app_LF (l post : text) : no_LF (l ++ LF :: post) = false.
Proof.
  unfold no_LF. rewrite forallb_app. cbn [forallb].
  rewrite Ascii.eqb_refl. cbn [negb andb]. apply andb_false_r.
Qed.

(** Text that ends with a line feed and is followed by a tail without one
    lies wholly before that tail. *)
Lemma before_unterminated_tail (head tail x post : text) :
  head ++ tail = (x ++ [LF]) ++ post -> no_LF tail = true ->
  exists l, head = (x ++ [LF]) ++ l.
Proof.
  intros E Ht. apply app_eq_app in E. destruct E as (l & [[E1 E2]|[E1 E2]]).
  - exists l. exact E1.
  - destruct l as [|c l] using rev_ind.
    + exists []. rewrite app_nil_r in E1. rewrite E1, app_nil_r. reflexivity.
    + clear IHl. rewrite app_assoc in E1. apply app_inj_tail in E1. destruct E1 as [_ <-].
      rewrite E2, <- app_assoc in Ht. simpl in Ht. rewrite no_LF_app_LF in Ht. discriminate.
Qed.


(** ** Lines on which the position pattern cannot start *)

Lemma letter_not_sp_tab c :
  in_set [Rg "A" "Z"; Rg "a" "z"] c = true -> in_set [Ch " "; Ch TAB] c = false.
Proof.
  destruct c as [[] [] [] [] [] [] [] []]; intros H; try discriminate H; reflexivity.
Qed.

Lemma sp_tab_is_space c : in_set [Ch " "; Ch TAB] c = true -> is_space c = true.
Proof.
  destruct c as [[] [] [] [] [] [] [] []]; intros H; try discriminate H; reflexivity.
Qed.

Lemma space_not_letter c :
  is_space c = true -> in_set [Rg "A" "Z"; Rg "a" "z"] c = false.
Proof.
  destruct c as [[] [] [] [] [] [] [] []]; intros H; try discriminate H; reflexivity.
Qed.

Lemma skip_line_start_letter w l tl :
  forallb (in_set [Ch " "; Ch TAB]) w = true ->
  in_set [Rg "A" "Z"; Rg "a" "z"] l = true ->
  skip_line_start (w ++ l :: tl) = false.
Proof.
  intros Hw Hl. induction w as [|c w IH]; cbn [app skip_line_start].
  - rewrite (letter_not_sp_tab _ Hl), Hl. reflexivity.
  - cbn [forallb] in Hw. apply andb_prop in Hw. destruct Hw as [Hc Hw].
    rewrite Hc. apply IH. exact Hw.
Qed.

Lemma reach_pos_regex_start c e :
  reach pos_regex c e -> bol c = true /\ skip_line_start (rest c) = false.
Proof.
  intros H. unfold pos_regex in H. cbn [Seq] in H.
  apply reach_cat_inv in H. destruct H as (c0 & H0 & H).
  apply reach_bol_inv in H0. destruct H0 as [-> Hbol].
  apply reach_cat_inv in H. destruct H as (c1 & H1 & H).
  apply reach_star_set in H1. destruct H1 as (w & E1 & F1).
  apply reach_cat_inv in H. destruct H as (c2 & H2 & _).
  apply reach_named_inv in H2. destruct H2 as (c2' & H2 & _).
  apply reach_cat_inv in H2. destruct H2 as (c3 & H3 & _).
  apply reach_plus_set in H3. destruct H3 as (l & lw & E3 & F3).
  cbn [forallb] in F3. apply andb_prop in F3. destruct F3 as [Fl _].
  split; [exact Hbol|]. rewrite E1, E3. apply skip_line_start_letter; assumption.
Qed.

Lemma pos_regex_skips c k :
  skip_line_start (rest c) = true -> rmatch pos_regex c k = None.
Proof.
  intros Hs. destruct (rmatch pos_regex c k) as [v|] eqn:E; [|reflexivity].
  apply rmatch_sound in E. destruct E as (c' & Hr & _).
  apply reach_pos_regex_start in Hr. destruct Hr as [_ Hr]. congruence.
Qed.

Lemma blank_or_comment_skips line tl :
  blank_or_comment line = true -> skip_line_start (line ++ LF :: tl) = true.
Proof.
  unfold blank_or_comment. induction line as [|c l IH]; intros H.
  - reflexivity.
  - cbn [app skip_line_start]. cbn [drop_space] in H.
    destruct (in_set [Ch " "; Ch TAB] c) eqn:Ec.
    + rewrite (sp_tab_is_space _ Ec) in H. apply IH. exact H.
    + destruct (is_space c) eqn:Es.
      * rewrite (space_not_letter _ Es). reflexivity.
      * apply Ascii.eqb_eq in H. subst c. reflexivity.
Qed.


(** ** Numerals: what [pos_number] matches and what [float] converts *)

Lemma in_set_digit c : in_set [ClsDigit] c = is_digit c.
Proof. unfold in_set. simpl. apply orb_false_r. Qed.

Lemma forallb_in_set_digit w :
  forallb (in_set [ClsDigit]) w = forallb is_digit w.
Proof.
  induction w as [|c w IH]; simpl; [reflexivity|].
  rewrite IH. f_equal. apply orb_false_r.
Qed.

Lemma in_lang_digits w : in_lang (Star digit) w -> forallb is_digit w = true.
Proof.
  intros H. apply in_lang_star_set in H. rewrite forallb_in_set_digit in H. exact H.
Qed.

Lemma in_lang_digits1 w :
  in_lang (Plus digit) w -> w <> [] /\ forallb is_digit w = true.
Proof.
  intros H. apply in_lang_plus_set in H. rewrite forallb_in_set_digit in H. exact H.
Qed.

Lemma in_lang_dot w : in_lang dot w -> w = ["."].
Proof.
  intros H. apply in_lang_set_inv in H. destruct H as (ch & -> & Hc).
  unfold in_set in Hc. simpl in Hc. rewrite orb_false_r in Hc.
  apply Ascii.eqb_eq in Hc. subst ch. reflexivity.
Qed.

Lemma pos_exponent_shape w :
  in_lang (Opt (Seq [ Set_ [Ch "E"; Ch " "; Ch "|"; Ch " "; Ch "e"];
                      Opt (Set_ [Ch "+"; Ch "|"; Ch "-"]);
                      Plus digit ])) w ->
  exponent_shape w.
Proof.
  intros H. apply in_lang_opt_inv in H. destruct H as [H| ->]; [|left; reflexivity].
  right. cbn [Seq] in H.
  apply in_lang_cat_inv in H. destruct H as (w1 & w' & -> & H1 & H).
  apply in_lang_set_inv in H1. destruct H1 as (ec & -> & Hec).
  apply in_lang_cat_inv in H. destruct H as (es & ed & -> & H2 & H3).
  apply in_lang_digits1 in H3. destruct H3 as [Hne Hd].
  exists ec, es, ed. repeat split; auto.
  apply in_lang_opt_inv in H2. destruct H2 as [H2| ->]; [|left; reflexivity].
  right. apply in_lang_set_inv in H2. destruct H2 as (c & -> & Hc). eauto.
Qed.

(** Every text [pos_number] matches is a sign, digits around an optional
    point, and an exponent, each as the bracketed sets allow. *)
Lemma pos_number_shape w : in_lang pos_number w -> numeral_shape w.
Proof.
  intros H. unfold pos_number in H. cbn [Seq] in H.
  apply in_lang_cat_inv in H. destruct H as (sg & w' & -> & Hs & H).
  apply in_lang_cat_inv in H. destruct H as (wm & ex & -> & Hm & He).
  apply pos_exponent_shape in He.
  assert (Hsg : sg = [] \/ exists c, sg = [c] /\ in_set [Ch "-"; Ch "|"; Ch "+"] c = true).
  { apply in_lang_opt_inv in Hs. destruct Hs as [Hs| ->]; [|left; reflexivity].
    right. apply in_lang_set_inv in Hs. destruct Hs as (c & -> & Hc). eauto. }
  apply in_lang_alt_inv in Hm. destruct Hm as [Hm|Hm].
  - apply in_lang_cat_inv in Hm. destruct Hm as (d1 & w2 & -> & H1 & Hm).
    apply in_lang_cat_inv in Hm. destruct Hm as (dt & d2 & -> & H2 & H3).
    apply in_lang_digits in H1. apply in_lang_dot in H2. subst dt.
    apply in_lang_digits1 in H3. destruct H3 as [Hne Hd2].
    exists sg, d1, ["."], d2, ex. rewrite <- !app_assoc.
    repeat split; auto.
    intros E. apply app_eq_nil in E. destruct E as [_ E]. contradiction.
  - apply in_lang_cat_inv in Hm. destruct Hm as (d1 & w2 & -> & H1 & Hm).
    apply in_lang_cat_inv in Hm. destruct Hm as (dt & d2 & -> & H2 & H3).
    apply in_lang_digits1 in H1. destruct H1 as [Hne Hd1].
    apply in_lang_digits in H3.
    assert (Hdt : dt = [] \/ dt = ["."]).
    { apply in_lang_opt_inv in H2. destruct H2 as [H2| ->]; [|left; reflexivity].
      right. apply in_lang_dot. exact H2. }
    exists sg, d1, dt, d2, ex. rewrite <- !app_assoc.
    repeat split; auto.
    intros E. apply app_eq_nil in E. destruct E as [E _]. contradiction.
Qed.

(** Character facts, each by inspection of the 256 characters. *)
Lemma sign_clean c :
  in_set [Ch "-"; Ch "|"; Ch "+"] c = true -> clean_char c = true ->
  c = "-" \/ c = "+".
Proof.
  destruct c as [[] [] [] [] [] [] [] []]; intros H1 H2;
    try discriminate H1; try discriminate H2; auto.
Qed.

Lemma exp_sign_clean c :
  in_set [Ch "+"; Ch "|"; Ch "-"] c = true -> clean_char c = true ->
  c = "-" \/ c = "+".
Proof.
  destruct c as [[] [] [] [] [] [] [] []]; intros H1 H2;
    try discriminate H1; try discriminate H2; auto.
Qed.

Lemma exp_letter_clean c :
  in_set [Ch "E"; Ch " "; Ch "|"; Ch " "; Ch "e"] c = true -> clean_char c = true ->
  c = "e" \/ c = "E".
Proof.
  destruct c as [[] [] [] [] [] [] [] []]; intros H1 H2;
    try discriminate H1; try discriminate H2; auto.
Qed.

Lemma digit_facts c :
  is_digit c = true ->
  Ascii.eqb c "." = false /\ Ascii.eqb c "e" = false /\ Ascii.eqb c "E" = false
  /\ Ascii.eqb (lower c) "i" = false /\ Ascii.eqb (lower c) "n" = false.
Proof.
  destruct c as [[] [] [] [] [] [] [] []]; intros H; try discriminate H;
    repeat split; reflexivity.
Qed.

Lemma take_digits_app d r :
  forallb is_digit d = true ->
  match r with [] => True | c :: _ => is_digit c = false end ->
  take_digits (d ++ r) = (d, r).
Proof.
  intros Hd Hr. induction d as [|c d IH]; cbn [app].
  - destruct r as [|c r]; [reflexivity|]. cbn [take_digits]. rewrite Hr. reflexivity.
  - cbn [forallb] in Hd. apply andb_prop in Hd. destruct Hd as [Hc Hd].
    cbn [take_digits]. rewrite Hc, (IH Hd). reflexivity.
Qed.

(** A clean exponent part is what [float] reads as an exponent. *)
Lemma parse_exponent_clean ex :
  exponent_shape ex -> clean ex = true ->
  starts_exponent ex /\ exists ev, parse_exponent ex = Some ev.
Proof.
  intros [->|(ec & es & ed & -> & Hec & Hes & Hd & Hne)] Hc.
  - split; [exact I|]. exists 0%Z. reflexivity.
  - unfold clean in Hc. cbn [forallb] in Hc. apply andb_prop in Hc.
    destruct Hc as [Cec Hc]. rewrite forallb_app in Hc. apply andb_prop in Hc.
    destruct Hc as [Ces _].
    assert (Eec : ec = "e" \/ ec = "E") by (apply exp_letter_clean; assumption).
    split; [destruct Eec; subst ec; split; reflexivity|].
    assert (Rs : exists neg, read_sign (es ++ ed) = (neg, ed)).
    { destruct Hes as [->|(c & -> & Hin)].
      - destruct ed as [|d0 ed]; [contradiction|]. cbn [app read_sign].
        cbn [forallb] in Hd. apply andb_prop in Hd. destruct Hd as [Hd0 _].
        destruct (digit_not_sign _ Hd0) as [E1 E2]. rewrite E1, E2. eauto.
      - cbn [forallb] in Ces. apply andb_prop in Ces. destruct Ces as [Cc _].
        destruct (exp_sign_clean _ Hin Cc); subst c; cbn; eauto. }
    destruct Rs as (neg & Rs).
    assert (Pe : parse_exponent (ec :: es ++ ed)
                 = Some (if neg then (- digits_val ed)%Z else digits_val ed)).
    { cbn [parse_exponent].
      replace (Ascii.eqb ec "e" || Ascii.eqb ec "E") with true
        by (destruct Eec; subst ec; reflexivity).
      rewrite Rs, (take_digits_all _ Hd).
      destruct ed; [contradiction|reflexivity]. }
    eauto.
Qed.

(** Digits around an optional point, followed by a clean exponent part, are a
    numeral for [float]. *)
Lemma parse_decimal_clean d1 dt d2 ex :
  forallb is_digit d1 = true -> forallb is_digit d2 = true ->
  dt = [] \/ dt = ["."] -> d1 ++ d2 <> [] ->
  starts_exponent ex -> (exists ev, parse_exponent ex = Some ev) ->
  exists p, parse_decimal (d1 ++ dt ++ d2 ++ ex) = Some p.
Proof.
  intros H1 H2 Hdt Hne Hs (ev & Hev).
  assert (Hex : match ex with [] => True | c :: _ => is_digit c = false end).
  { destruct ex; [exact I|]. apply Hs. }
  destruct Hdt as [->| ->]; cbn [app].
  - rewrite app_assoc. unfold parse_decimal.
    rewrite take_digits_app; [|rewrite forallb_app, H1, H2; reflexivity|exact Hex].
    assert (Hr : (match ex with
                  | c :: t => if Ascii.eqb c "." then take_digits t else ([], ex)
                  | [] => ([], ex)
                  end) = ([], ex)).
    { destruct ex as [|c t]; [reflexivity|]. destruct Hs as [_ Hs]. rewrite Hs. reflexivity. }
    rewrite Hr, app_nil_r. destruct (d1 ++ d2) eqn:E; [contradiction|].
    rewrite Hev. eauto.
  - unfold parse_decimal.
    rewrite take_digits_app; [|exact H1|reflexivity].
    rewrite Ascii.eqb_refl.
    rewrite take_digits_app; [|exact H2|exact Hex].
    destruct (d1 ++ d2) eqn:E; [contradiction|].
    rewrite Hev. eauto.
Qed.

Lemma special_none c b :
  Ascii.eqb (lower c) "i" = false -> Ascii.eqb (lower c) "n" = false ->
  special (c :: b) = None.
Proof.
  intros Hi Hn. unfold special. cbn [map txt list_ascii_of_string text_eqb].
  rewrite Hi, Hn. reflexivity.
Qed.

Lemma drop_space_head c w :
  is_space c = false -> drop_numeral_space (c :: w) = c :: w.
Proof.
  intros H. cbn [drop_numeral_space].
  rewrite (not_space_not_numeral_space _ H). reflexivity.
Qed.

(** Text that neither begins nor ends with white space is its own strip. *)
Lemma strip_inner c w d :
  is_space c = false -> is_space d = false ->
  strip (c :: w ++ [d]) = c :: w ++ [d].
Proof.
  intros Hc Hd. unfold strip. rewrite (drop_space_head _ _ Hc).
  change (c :: w ++ [d]) with ((c :: w) ++ [d]).
  rewrite rev_unit, (drop_space_head _ _ Hd).
  change (d :: rev (c :: w)) with ([d] ++ rev (c :: w)).
  rewrite rev_app_distr, rev_involutive. reflexivity.
Qed.

Lemma strip_single c : is_space c = false -> strip [c] = [c].
Proof.
  intros Hc. unfold strip. rewrite (drop_space_head _ _ Hc).
  cbn [rev app]. rewrite (drop_space_head _ _ Hc). reflexivity.
Qed.

Lemma strip_nonspace w :
  forallb (fun c => negb (is_space c)) w = true -> strip w = w.
Proof.
  destruct w as [|c w]; [reflexivity|].
  destruct w as [|d w] using rev_ind; intros H.
  - cbn [forallb] in H. apply andb_prop in H. destruct H as [H _].
    apply strip_single. apply negb_true_iff. exact H.
  - clear IHw. cbn [forallb] in H. apply andb_prop in H. destruct H as [Hc H].
    rewrite forallb_app in H. apply andb_prop in H. destruct H as [_ Hd].
    cbn [forallb] in Hd. apply andb_prop in Hd. destruct Hd as [Hd _].
    apply strip_inner; apply negb_true_iff; assumption.
Qed.

Lemma forallb_impl (A : Type) (P Q : A -> bool) (w : list A) :
  (forall c, P c = true -> Q c = true) ->
  forallb P w = true -> forallb Q w = true.
Proof.
  intros HPQ H. apply forallb_forall. intros c Hc.
  apply HPQ. rewrite forallb_forall in H. apply H. exact Hc.
Qed.

Lemma digits_nonspace d :
  forallb is_digit d = true -> forallb (fun c => negb (is_space c)) d = true.
Proof.
  apply forallb_impl. intros c Hc. rewrite (digit_not_space _ Hc). reflexivity.
Qed.

(** The unsigned part of a numeral begins with a digit or the point. *)
Lemma numeral_body_head d1 dt d2 ex :
  forallb is_digit d1 = true -> forallb is_digit d2 = true ->
  dt = [] \/ dt = ["."] -> d1 ++ d2 <> [] ->
  exists h b', d1 ++ dt ++ d2 ++ ex = h :: b' /\ (is_digit h = true \/ h = ".").
Proof.
  intros H1 H2 Hdt Hne. destruct d1 as [|h d1].
  - destruct Hdt as [->| ->]; cbn [app].
    + destruct d2 as [|h d2]; [contradiction|]. cbn [forallb] in H2.
      apply andb_prop in H2. destruct H2 as [Hh _]. cbn [app]. eauto.
    + eauto.
  - cbn [forallb] in H1. apply andb_prop in H1. destruct H1 as [Hh _].
    cbn [app]. eauto.
Qed.

Lemma body_head_facts h :
  is_digit h = true \/ h = "." ->
  Ascii.eqb h "-" = false /\ Ascii.eqb h "+" = false
  /\ Ascii.eqb (lower h) "i" = false /\ Ascii.eqb (lower h) "n" = false.
Proof.
  intros [H| ->].
  - destruct (digit_not_sign _ H) as [A B].
    destruct (digit_facts _ H) as (_ & _ & _ & C & D). auto.
  - repeat split; reflexivity.
Qed.

(** [float] converts every numeral of [pos_number] that holds neither a
    space nor a bar. *)
Lemma py_float_clean w :
  numeral_shape w -> clean w = true -> exists v, py_float w = Some v.
Proof.
  intros (sg & d1 & dt & d2 & ex & -> & Hsg & H1 & H2 & Hdt & Hne & Hex) Hc.
  unfold clean in Hc. rewrite forallb_app in Hc. apply andb_prop in Hc.
  destruct Hc as [Csg Hc].
  assert (Cex : clean ex = true).
  { unfold clean. rewrite !forallb_app in Hc.
    apply andb_prop in Hc. destruct Hc as [_ Hc].
    apply andb_prop in Hc. destruct Hc as [_ Hc].
    apply andb_prop in Hc. destruct Hc as [_ Hc]. exact Hc. }
  destruct (parse_exponent_clean _ Hex Cex) as [Sx Px].
  destruct (parse_decimal_clean d1 dt d2 ex H1 H2 Hdt Hne Sx Px) as (p & Pd).
  destruct (numeral_body_head d1 dt d2 ex H1 H2 Hdt Hne) as (h & b' & Eb & Hh).
  destruct (body_head_facts _ Hh) as (Hm & Hp & Hi & Hn).
  assert (Nex : forallb (fun c => negb (is_space c)) ex = true).
  { destruct Hex as [->|(ec & es & ed & -> & Hec & Hes & Hd & _)]; [reflexivity|].
    unfold clean in Cex. cbn [forallb] in Cex. apply andb_prop in Cex.
    destruct Cex as [Cec Cex]. rewrite forallb_app in Cex. apply andb_prop in Cex.
    destruct Cex as [Ces _].
    cbn [forallb]. rewrite forallb_app, (digits_nonspace _ Hd), andb_true_r.
    apply andb_true_intro. split.
    - destruct (exp_letter_clean _ Hec Cec); subst ec; reflexivity.
    - destruct Hes as [->|(c & -> & Hin)]; [reflexivity|].
      cbn [forallb] in Ces. apply andb_prop in Ces. destruct Ces as [Cc _].
      destruct (exp_sign_clean _ Hin Cc); subst c; reflexivity. }
  assert (Nb : forallb (fun c => negb (is_space c)) (d1 ++ dt ++ d2 ++ ex) = true).
  { rewrite !forallb_app, (digits_nonspace _ H1), (digits_nonspace _ H2), Nex.
    destruct Hdt as [->| ->]; reflexivity. }
  assert (Rs : exists neg, read_sign (strip (sg ++ d1 ++ dt ++ d2 ++ ex))
                           = (neg, d1 ++ dt ++ d2 ++ ex)).
  { destruct Hsg as [->|(c & -> & Hin)].
    - cbn [app]. rewrite (strip_nonspace _ Nb), Eb. cbn [read_sign].
      rewrite Hm, Hp. eauto.
    - cbn [forallb] in Csg. apply andb_prop in Csg. destruct Csg as [Cc _].
      rewrite strip_nonspace.
      + destruct (sign_clean _ Hin Cc); subst c; cbn; eauto.
      + rewrite forallb_app, Nb, andb_true_r.
        destruct (sign_clean _ Hin Cc); subst c; reflexivity. }
  destruct Rs as (neg & Rs).
  unfold py_float. rewrite Rs, Eb, (special_none _ _ Hi Hn), <- Eb, Pd.
  destruct p as [m e]. eauto.
Qed.

(** ** The shape of a match of the position pattern *)

Lemma in_lang_sym w : in_lang (Seq [Plus letter; Star alnum]) w -> w <> [].
Proof.
  intros H. cbn [Seq] in H.
  apply in_lang_cat_inv in H. destruct H as (w1 & w2 & -> & H1 & _).
  apply in_lang_plus_set in H1. destruct H1 as [Hne _].
  intros E. apply app_eq_nil in E. destruct E as [E _]. contradiction.
Qed.

Lemma pos_match_shape c e :
  caps c = [] -> reach pos_regex c e ->
  exists cs cx cy cz,
    caps e = [("z"%string, cz); ("y"%string, cy); ("x"%string, cx); ("sym"%string, cs)]
    /\ c_text cs <> [] /\ numeral_shape (c_text cx)
    /\ numeral_shape (c_text cy) /\ numeral_shape (c_text cz).
Proof.
  intros Hc H. unfold pos_regex in H. cbn [Seq] in H.
  apply reach_cat_inv in H. destruct H as (c0 & H0 & H).
  apply reach_bol_inv in H0. destruct H0 as [-> _].
  apply reach_cat_inv in H. destruct H as (c1 & H1 & H).
  pose proof (reach_caps H1 eq_refl) as C1.
  apply reach_cat_inv in H. destruct H as (c2 & H2 & H).
  apply reach_named_lang in H2.
  destruct H2 as (c2' & ws & -> & R2 & _ & T2 & L2).
  pose proof (reach_caps R2 eq_refl) as C2.
  apply reach_cat_inv in H. destruct H as (c3 & H3 & H).
  pose proof (reach_caps H3 eq_refl) as C3.
  apply reach_cat_inv in H. destruct H as (c4 & H4 & H).
  apply reach_named_lang in H4.
  destruct H4 as (c4' & wx & -> & R4 & _ & T4 & L4).
  pose proof (reach_caps R4 eq_refl) as C4.
  apply reach_cat_inv in H. destruct H as (c5 & H5 & H).
  pose proof (reach_caps H5 eq_refl) as C5.
  apply reach_cat_inv in H. destruct H as (c6 & H6 & H).
  apply reach_named_lang in H6.
  destruct H6 as (c6' & wy & -> & R6 & _ & T6 & L6).
  pose proof (reach_caps R6 eq_refl) as C6.
  apply reach_cat_inv in H. destruct H as (c7 & H7 & H).
  pose proof (reach_caps H7 eq_refl) as C7.
  apply reach_named_lang in H.
  destruct H as (c8 & wz & -> & R8 & _ & T8 & L8).
  pose proof (reach_caps R8 eq_refl) as C8.
  eexists _, _, _, _. cbn [caps set_cap] in *.
  rewrite C8, C7. cbn [caps set_cap]. rewrite C6, C5. cbn [caps set_cap].
  rewrite C4, C3. cbn [caps set_cap]. rewrite C2, C1, Hc.
  split; [reflexivity|]. cbn [c_text].
  rewrite T2, T4, T6, T8.
  split; [apply in_lang_sym; exact L2|].
  split; [apply pos_number_shape; exact L4|].
  split; apply pos_number_shape; assumption.
Qed.

Lemma finditer_atom_good t : Forall good_atom_match (finditer pos_regex t).
Proof.
  apply finditer_spec. intros st b' pre s' e _ _ Hm.
  destruct (rmatch_sound _ _ _ Hm) as (e' & Hr & He). injection He as ->.
  apply pos_match_shape in Hr; [|reflexivity].
  destruct Hr as (cs & cx & cy & cz & Hcaps & Hs & Hx & Hy & Hz).
  exists (c_text cs), (c_text cx), (c_text cy), (c_text cz).
  unfold group. cbn [m_groups]. rewrite Hcaps. cbn.
  repeat split; assumption.
Qed.

Lemma float_group_clean m n t :
  group m n = Some t -> numeral_shape t -> clean_group m n = true ->
  exists v, float_group m n = Return v.
Proof.
  intros G S C. unfold clean_group in C. rewrite G in C.
  destruct (py_float_clean t S C) as (v & Hv).
  exists v. unfold float_group. rewrite G, Hv. reflexivity.
Qed.

Lemma atom_of_clean_match m b :
  good_atom_match m -> clean_match m = true ->
  is_return (atom_of_match m b) = true.
Proof.
  intros (sym & x & y & z & Gs & Gx & Gy & Gz & _ & Sx & Sy & Sz) C.
  unfold clean_match in C. apply andb_prop in C. destruct C as [C Cz].
  apply andb_prop in C. destruct C as [Cx Cy].
  destruct (float_group_clean m "x" x Gx Sx Cx) as (vx & Ex).
  destruct (float_group_clean m "y" y Gy Sy Cy) as (vy & Ey).
  destruct (float_group_clean m "z" z Gz Sz Cz) as (vz & Ez).
  unfold atom_of_match. rewrite Ex, Ey, Ez. destruct b; reflexivity.
Qed.

(** ** Where matches of the position pattern start *)

Lemma atom_matches_start_on_letters t :
  Forall (fun m => exists pre rest,
              t = pre ++ rest /\ m_start m = List.length pre
              /\ skip_line_start rest = false)
         (finditer pos_regex t).
Proof.
  apply finditer_spec. intros st b' pre s' e Es Est Hm.
  destruct (rmatch_sound _ _ _ Hm) as (e' & Hr & _).
  apply reach_pos_regex_start in Hr. destruct Hr as [_ Hr].
  exists pre, s'. auto.
Qed.

Lemma skipn_length_app (A : Type) (l1 l2 : list A) :
  skipn (List.length l1) (l1 ++ l2) = l2.
Proof. rewrite skipn_app, skipn_all, Nat.sub_diag. reflexivity. Qed.

(** No match of the position pattern starts on a line that is blank or
    commented out. *)
Lemma skipped_line_starts_no_match pre line post :
  blank_or_comment line = true ->
  Forall (fun m => m_start m <> List.length pre)
         (finditer pos_regex (pre ++ line ++ LF :: post)).
Proof.
  intros Hb. eapply Forall_impl; [|apply atom_matches_start_on_letters].
  intros m (pre' & rest' & E & Hs & Hk) Heq.
  assert (R : rest' = line ++ LF :: post).
  { rewrite <- (skipn_length_app _ pre' rest'), <- E, <- Hs, Heq.
    apply skipn_length_app. }
  rewrite R, (blank_or_comment_skips _ _ Hb) in Hk. discriminate.
Qed.

(** ** Frames and the matches they come from *)

(** The atom sequence of a frame wraps the matches of the position pattern in
    the frame's positions block. *)
Lemma frame_atoms_from_block s b f :
  In f (fst (xyz_parser_iterator s b)) ->
  _it (f_atomiter f) = finditer pos_regex (f_positions f).
Proof.
  intros H. destruct (frame_origin _ _ _ H) as (m & n & c & p & _ & _ & Gp & ->).
  unfold f_positions. cbn [frame_for f_block f_atomiter BlockIterator_init _it].
  rewrite Gp. reflexivity.
Qed.

Lemma frame_of_block_block m b f :
  frame_of_block m b = Return f -> f_block f = Some m.
Proof.
  unfold frame_of_block.
  destruct (int_group m "natoms"); [|discriminate].
  destruct (group m "positions"); [|discriminate].
  destruct b; intros H; injection H as <-; reflexivity.
Qed.

(** The fourth components of the tuples are the matches of the framing
    pattern, in order, up to where the generator ends. *)
Lemma frame_blocks s b :
  exists ms rest,
    finditer pos_block_regex s = ms ++ rest
    /\ map f_block (fst (xyz_parser_iterator s b)) = map Some ms
    /\ (snd (xyz_parser_iterator s b) = None -> rest = []).
Proof.
  unfold xyz_parser_iterator.
  destruct (frames_of_prefix b (finditer pos_block_regex s)) as (ms & rest & E & F2 & Hn).
  exists ms, rest. split; [exact E|]. split; [|exact Hn].
  clear E Hn. induction F2 as [|m f ms' fs Hmf F2 IH]; [reflexivity|].
  cbn [map]. rewrite IH, (frame_of_block_block _ _ _ Hmf). reflexivity.
Qed.

(** The matches of the framing pattern follow one another in the text without
    overlap. *)
Lemma frame_spans_ordered s : ordered_from 0 (finditer pos_block_regex s).
Proof. apply finditer_from_ordered. Qed.

(** A loop over an atom sequence always ends, with [StopIteration] or with an
    exception. *)
Lemma drain_ends self : exists e, snd (drain Python2 self) = Some e.
Proof. apply drain_from_ends. lia. Qed.

(** ** Runs of digits *)

Lemma digit_run_from_mono : forall s cur best cur' best',
  cur <= cur' -> best <= best' ->
  digit_run_from cur best s <= digit_run_from cur' best' s.
Proof.
  induction s as [|c s IH]; intros cur best cur' best' Hc Hb; cbn [digit_run_from].
  - lia.
  - destruct (is_digit c); apply IH; lia.
Qed.

Lemma digit_run_from_lower : forall s cur best,
  Nat.max cur best <= digit_run_from cur best s.
Proof.
  induction s as [|c s IH]; intros cur best; cbn [digit_run_from]; [lia|].
  destruct (is_digit c).
  - specialize (IH (S cur) best). lia.
  - specialize (IH 0 (Nat.max cur best)). lia.
Qed.

Lemma digit_run_from_digits : forall d cur best b,
  forallb is_digit d = true ->
  cur + List.length d <= digit_run_from cur best (d ++ b).
Proof.
  induction d as [|c d IH]; intros cur best b H; cbn [app List.length].
  - pose proof (digit_run_from_lower b cur best). lia.
  - cbn [forallb] in H. apply andb_prop in H. destruct H as [Hc Hd].
    cbn [digit_run_from]. rewrite Hc.
    specialize (IH (S cur) best b Hd). lia.
Qed.

Lemma digit_run_from_skip : forall a cur best t,
  digit_run_from 0 0 t <= digit_run_from cur best (a ++ t).
Proof.
  induction a as [|c a IH]; intros cur best t; cbn [app].
  - apply digit_run_from_mono; lia.
  - cbn [digit_run_from]. destruct (is_digit c); apply IH.
Qed.

(** A run of digits anywhere in a text is no longer than the longest one. *)
Lemma digit_run_bound a d b :
  forallb is_digit d = true ->
  List.length d <= longest_digit_run (a ++ d ++ b).
Proof.
  intros H. unfold longest_digit_run.
  pose proof (digit_run_from_skip a 0 0 (d ++ b)).
  pose proof (digit_run_from_digits d 0 0 b H). lia.
Qed.

(** In a text without a run of more than 4300 digits every count is within
    the limit of [int]. *)
Lemma good_block_count_fits s m :
  good_block s m -> longest_digit_run s <= 4300 ->
  forall t, group m "natoms" = Some t ->
            (Z.of_nat (List.length t) <= int_max_str_digits)%Z.
Proof.
  intros (pre & lead & natoms & trail & comment & positions & post
          & Gn & _ & Hd & _ & _ & _ & Es & _) Hl t Gt.
  rewrite Gn in Gt. injection Gt as <-.
  assert (E : s = (pre ++ lead) ++ natoms
                  ++ (trail ++ LF :: comment ++ LF :: positions ++ [LF]) ++ post).
  { rewrite Es. app_norm. reflexivity. }
  rewrite E in Hl.
  pose proof (digit_run_bound (pre ++ lead) natoms
                ((trail ++ LF :: comment ++ LF :: positions ++ [LF]) ++ post) Hd) as B.
  unfold int_max_str_digits. lia.
Qed.

Lemma short_runs_within_limit s :
  longest_digit_run s <= 4300 -> counts_within_limit s = true.
Proof.
  intros Hl. unfold counts_within_limit. apply forallb_forall. intros m Hm.
  pose proof (finditer_block_good s) as G. rewrite Forall_forall in G.
  unfold count_fits. destruct (group m "natoms") as [t|] eqn:E; [|reflexivity].
  apply Z.leb_le. exact (good_block_count_fits s m (G m Hm) Hl t E).
Qed.

(** When [int] accepts every count the generator runs to its end. *)
Lemma frames_of_fitting_counts s b :
  counts_within_limit s = true ->
  snd (xyz_parser_iterator s b) = None
  /\ Forall2 (fun m f => frame_of_block m b = Return f)
             (finditer pos_block_regex s) (fst (xyz_parser_iterator s b)).
Proof.
  intros Hl. unfold xyz_parser_iterator.
  apply (@frames_of_good s b _ (finditer_block_good s)).
  unfold counts_within_limit in Hl. rewrite forallb_forall in Hl.
  apply Forall_forall. intros m Hm t Gt.
  specialize (Hl m Hm). unfold count_fits in Hl. rewrite Gt in Hl.
  apply Z.leb_le. exact Hl.
Qed.

(** And only then: the first count that [int] refuses ends the generator
    with [ValueError]. *)
Lemma frames_of_long_count s b : forall blocks,
  Forall (good_block s) blocks ->
  forallb count_fits blocks = false ->
  exists t, snd (frames_of blocks b) = Some (ValueError t)
            /\ (int_max_str_digits < Z.of_nat (List.length t))%Z.
Proof.
  induction 1 as [|m blocks Hm Hbs IH]; cbn [forallb frames_of]; [discriminate|].
  intros Hf. destruct (frame_of_good_block b Hm) as (n & c & p & Gn & _ & E).
  unfold count_fits at 1 in Hf. rewrite Gn in Hf. rewrite E.
  destruct (Z.leb_spec (Z.of_nat (List.length n)) int_max_str_digits) as [L|L].
  - cbn [andb] in Hf. destruct (IH Hf) as (t & Et & Lt).
    destruct (frames_of blocks b) as [l e]. cbn [snd] in *. exists t. auto.
  - exists n. cbn [snd]. auto.
Qed.

(** ** No match is empty *)

Lemma reach_pos_regex_grows c e : reach pos_regex c e -> pos c < pos e.
Proof.
  intros H. unfold pos_regex in H. cbn [Seq] in H.
  apply reach_cat_inv in H. destruct H as (c0 & H0 & H).
  apply reach_bol_inv in H0. destruct H0 as [-> _].
  apply reach_cat_inv in H. destruct H as (c1 & H1 & H).
  apply reach_pos_le in H1.
  apply reach_cat_inv in H. destruct H as (c2 & H2 & H).
  apply reach_pos_le in H.
  apply reach_named_lang in H2.
  destruct H2 as (c2' & ws & -> & R2 & E2 & _ & L2).
  apply in_lang_sym in L2.
  destruct (reach_consumes R2) as (w & Ew & Pw).
  assert (w = ws) by (rewrite E2 in Ew; apply app_inv_tail in Ew; auto). subst w.
  cbn [pos set_cap] in H.
  destruct ws as [|x ws]; [contradiction|]. cbn [List.length] in Pw. lia.
Qed.

Lemma matches_not_empty t :
  Forall (fun m => m_start m < m_end m) (finditer pos_regex t)
  /\ Forall (fun m => m_start m < m_end m) (finditer pos_block_regex t).
Proof.
  split.
  - apply finditer_spec. intros st b' pre s' e _ _ Hm.
    destruct (rmatch_sound _ _ _ Hm) as (e' & Hr & He). injection He as ->.
    apply reach_pos_regex_grows in Hr. exact Hr.
  - eapply Forall_impl; [|apply finditer_block_good].
    intros m (pre & lead & natoms & trail & comment & positions & post
              & _ & _ & _ & _ & _ & _ & _ & -> & ->).
    rewrite !length_app. cbn [List.length]. rewrite !length_app. cbn [List.length].
    rewrite !length_app. cbn [List.length]. lia.
Qed.
(** * The claims *)

Unset Implicit Arguments.
Local Open Scope string_scope.
Local Open Scope list_scope.

(** ** C1: the tuple yielded for a frame *)

(** Whatever [include_match_object] is, lines 147-155 and 157-164 build the
    same four-component tuple. *)
Lemma frame_tuple_always_four s b :
  Forall (fun f => tuple_len f = 4) (fst (xyz_parser_iterator s b)).
Proof.
  apply Forall_forall. intros f H.
  destruct (frame_origin _ _ _ H) as (m & n & c & p & _ & _ & _ & ->).
  reflexivity.
Qed.

(** C1.  With [include_match_object=False] the docstring and the claim
    promise the triple [(natoms, comment, atomiter)]; on the water monomer the
    generator yields one tuple and it has four components, the block's match
    object being the fourth. *)
Theorem default_frame_tuple_has_match_object :
  map tuple_len (fst (xyz_parser_iterator water_monomer false)) = [4]
  /\ map tuple_len (fst (xyz_parser_iterator water_monomer true)) = [4].
Proof. split; vm_compute; reflexivity. Qed.

(** ** C2: what [float] makes of the captured numerals *)

(** The line [H 1.0 2.0 3.0 4] is accepted by the framing pattern and matched
    by the position pattern, whose group z captures ["3.0 4"]: the bracketed
    set [[E | e]] holds a space.  [float] refuses that text, so lines 74 to 90
    raise [ValueError] for that match, and so does the first call of
    [__next__] where the call of line 55 succeeds. *)
Lemma float_refuses_matched_field :
  map (fun f => map (fun m => group m "z") (_it (f_atomiter f)))
      (fst (xyz_parser_iterator extra_column false))
  = [[Some (txt "3.0 4")]]
  /\ py_float (txt "3.0 4") = None
  /\ map (fun f => map (fun m => atom_of_match m false) (_it (f_atomiter f)))
         (fst (xyz_parser_iterator extra_column false))
     = [[Raise (ValueError (txt "3.0 4"))]]
  /\ map (fun f => fst (pulls Python2 1 (f_atomiter f)))
         (fst (xyz_parser_iterator extra_column false))
     = [[Raise (ValueError (txt "3.0 4"))]].
Proof. repeat split; vm_compute; reflexivity. Qed.

(** C2, as stated, fails: the frame is accepted, group z captures
    ["3.0e999"], and [float] turns it into the infinity of binary64, which is
    not a finite double; lines 74 to 90 build the tuple with it, and where
    the call of line 55 succeeds the tuple is returned. *)
Lemma captured_numeral_not_finite :
  map (fun f => map (fun m => group m "z") (_it (f_atomiter f)))
      (fst (xyz_parser_iterator huge_coordinate false))
  = [[Some (txt "3.0e999")]]
  /\ py_float (txt "3.0e999") = Some (S754_infinity false)
  /\ map (fun f => map (fun m => atom_of_match m false) (_it (f_atomiter f)))
         (fst (xyz_parser_iterator huge_coordinate false))
     = [[Return (Atom2 (Some (txt "H")) (f_1_0, f_2_0, S754_infinity false))]]
  /\ map (fun f => drain Python2 (f_atomiter f))
         (fst (xyz_parser_iterator huge_coordinate false))
     = [([Atom2 (Some (txt "H")) (f_1_0, f_2_0, S754_infinity false)],
         Some StopIteration)]
  /\ is_finite (S754_infinity false) = false.
Proof. repeat split; vm_compute; reflexivity. Qed.

(** C2, amended.  For every match the position pattern produces in any text
    (the positions block of a frame is one, lemma [frame_atoms_from_block]):
    the groups sym, x, y and z are set, x, y and z hold a sign, digits around
    an optional point and an exponent as the bracketed sets allow them, and
    when the three of them hold neither a space nor a bar, [float] converts
    each one and [__next__] builds the tuple without a conversion failure. *)
Theorem clean_captures_convert t b m :
  In m (finditer pos_regex t) ->
  clean_match m = true ->
  good_atom_match m /\ is_return (atom_of_match m b) = true.
Proof.
  intros Hin Hc.
  pose proof (finditer_atom_good t) as G. rewrite Forall_forall in G.
  split; [apply G; exact Hin|].
  apply atom_of_clean_match; [apply G; exact Hin|exact Hc].
Qed.

Lemma clean_captures_convert_witness :
  In (first_match pos_regex (lines ["H 0.000 0.000 0.957"]))
     (finditer pos_regex (lines ["H 0.000 0.000 0.957"]))
  /\ clean_match (first_match pos_regex (lines ["H 0.000 0.000 0.957"])) = true
  /\ is_return (atom_of_match (first_match pos_regex (lines ["H 0.000 0.000 0.957"]))
                              false) = true.
Proof.
  assert (H1 : In (first_match pos_regex (lines ["H 0.000 0.000 0.957"]))
                  (finditer pos_regex (lines ["H 0.000 0.000 0.957"])))
    by (vm_compute; left; reflexivity).
  assert (H2 : clean_match (first_match pos_regex (lines ["H 0.000 0.000 0.957"])) = true)
    by (vm_compute; reflexivity).
  split; [exact H1|]. split; [exact H2|].
  exact (proj2 (clean_captures_convert _ false _ H1 H2)).
Defined.

(** ** C3: pulling only part of a frame *)




(** Where the call of line 55 succeeds the count is checked at every call:
    three atoms are declared, the block holds one atom line, and the second
    of two calls raises the error for too few entries. *)
Lemma partial_drain_can_raise :
  map (fun f => (f_natoms f, fst (pulls Python2 2 (f_atomiter f))))
      (fst (xyz_parser_iterator one_of_three false))
  = [(3%Z, [Return (Atom2 (Some (txt "H")) (f_1_0, f_2_0, f_3_0));
            Raise (TypeError_smaller 1 3)])].
Proof. vm_compute. reflexivity. Qed.

(** There, for every frame with declared count N and every k < N that does
    not exceed the number of matches of the position pattern in the block,
    the first k calls give, in order, the tuples of the first k matches (or
    the exception of their conversion) and none raises an arity error. *)
Lemma partial_drain_within_content s b f k :
  In f (fst (xyz_parser_iterator s b)) ->
  (Z.of_nat k < f_natoms f)%Z ->
  k <= List.length (_it (f_atomiter f)) ->
  fst (pulls Python2 k (f_atomiter f))
  = map (fun m => atom_of_match m b) (firstn k (_it (f_atomiter f)))
  /\ forallb no_arity_error (fst (pulls Python2 k (f_atomiter f))) = true.
Proof.
  intros Hin Hk Hm.
  rewrite (frame_atomiter_fresh _ _ _ Hin) at 1 3.
  rewrite pulls_within; cbn [_it _catom _natoms _include_match_object BlockIterator_init fst];
    [|assumption|lia].
  split; [reflexivity|].
  apply forallb_forall. intros r Hr. apply in_map_iff in Hr.
  destruct Hr as (m & <- & _). apply atom_of_match_no_arity.
Qed.

(** ** C4 and C5: the arity check *)

(** C4.  One atom is declared and the positions block holds two atom lines.
    The claim has the second call raise the error for too many entries,
    after one tuple.  The first call, and every later one, raises
    [AttributeError] at line 55: no tuple is returned, nothing is counted,
    and a loop over the sequence ends at once with that exception.  Where
    the call of line 55 succeeds, the two calls do what the claim says. *)
Theorem overpopulated_frame_fails_at_line_55 :
  map (fun f => (f_natoms f, List.length (_it (f_atomiter f)),
                 fst (pulls Python3 2 (f_atomiter f)), drain Python3 (f_atomiter f)))
      (fst (xyz_parser_iterator two_for_one false))
  = [(1%Z, 2, [Raise AttributeError_next; Raise AttributeError_next],
      ([], Some AttributeError_next))]
  /\ map (fun f => fst (pulls Python2 2 (f_atomiter f)))
         (fst (xyz_parser_iterator two_for_one false))
     = [[Return (Atom2 (Some (txt "H")) (f_1_0, f_2_0, f_3_0));
         Raise (TypeError_larger 2 1)]].
Proof. split; vm_compute; reflexivity. Qed.

(** Where the call of line 55 succeeds: for every frame of every text whose
    positions block holds more matches of the position pattern than the
    declared count N, the first N calls of [__next__] give the tuples of the
    first N matches (each one the tuple, or the exception of its conversion,
    never an arity error), call N + 1 raises the error for too many entries
    carrying (N + 1, N) instead of returning a tuple, and the wrapped
    iterator has then given up exactly N + 1 matches.  When the first N
    conversions succeed, a loop over the sequence collects those N tuples and
    ends with that error. *)
Lemma overpopulated_frame_raises_at_next_record s b f :
  In f (fst (xyz_parser_iterator s b)) ->
  (f_natoms f < Z.of_nat (List.length (_it (f_atomiter f))))%Z ->
  let it := f_atomiter f in
  let n := Z.to_nat (f_natoms f) in
  pulls Python2 (S n) it
  = (map (fun m => atom_of_match m b) (firstn n (_it it))
       ++ [Raise (TypeError_larger (f_natoms f + 1) (f_natoms f))],
     after_pulls (S n) it)
  /\ forallb no_arity_error (firstn n (fst (pulls Python2 (S n) it))) = true
  /\ _it (snd (pulls Python2 (S n) it)) = skipn (S n) (_it it)
  /\ (forall recs,
         map Return recs = map (fun m => atom_of_match m b) (firstn n (_it it)) ->
         drain Python2 it = (recs, Some (TypeError_larger (f_natoms f + 1) (f_natoms f)))).
Proof.
  intros Hin Hlt it n.
  pose proof (frame_natoms_nonneg _ _ _ Hin) as H0.
  pose proof (frame_atomiter_fresh _ _ _ Hin) as Hit. fold it in Hit.
  assert (HN : f_natoms f = Z.of_nat n) by (unfold n; lia).
  assert (Hn : n < List.length (_it it)) by (unfold it; lia).
  assert (P : pulls Python2 (S n) it
              = (map (fun m => atom_of_match m b) (firstn n (_it it))
                   ++ [Raise (TypeError_larger (f_natoms f + 1) (f_natoms f))],
                 after_pulls (S n) it)).
  { rewrite Hit at 1 3. rewrite HN. apply pulls_over. exact Hn. }
  split; [exact P|]. rewrite P. cbn [fst snd].
  assert (L : List.length (map (fun m => atom_of_match m b) (firstn n (_it it))) = n).
  { rewrite length_map, length_firstn. lia. }
  split; [|split; [reflexivity|]].
  - rewrite <- L at 1. rewrite firstn_app, firstn_all, Nat.sub_diag. simpl.
    rewrite app_nil_r. apply forallb_forall. intros r Hr.
    apply in_map_iff in Hr. destruct Hr as (m & <- & _). apply atom_of_match_no_arity.
  - intros recs Hrecs. unfold drain.
    pose proof (map_Return_length _ _ Hrecs) as Lr. rewrite L in Lr.
    apply (@drain_from_pulls Python2 recs _ _ it (after_pulls (S n) it)); [|lia].
    rewrite Lr, Hrecs. exact P.
Qed.

(** C5.  Three atoms are declared and the positions block holds one atom
    line; in the water monomer two are declared and two lines are there.
    The claim has the first sequence give one tuple and then the error for
    too few entries, and the second one end normally after two tuples.  Both
    end at the first call with [AttributeError], raised at line 55, with no
    tuple.  Where the call of line 55 succeeds, both do what the claim
    says. *)
Theorem underpopulated_frame_fails_at_line_55 :
  map (fun f => (f_natoms f, List.length (_it (f_atomiter f)), drain Python3 (f_atomiter f)))
      (fst (xyz_parser_iterator one_of_three false))
  = [(3%Z, 1, ([], Some AttributeError_next))]
  /\ map (fun f => (f_natoms f, List.length (_it (f_atomiter f)), drain Python3 (f_atomiter f)))
         (fst (xyz_parser_iterator water_monomer false))
     = [(2%Z, 2, ([], Some AttributeError_next))]
  /\ map (fun f => drain Python2 (f_atomiter f))
         (fst (xyz_parser_iterator one_of_three false))
     = [([Atom2 (Some (txt "H")) (f_1_0, f_2_0, f_3_0)], Some (TypeError_smaller 1 3))]
  /\ map (fun f => drain Python2 (f_atomiter f))
         (fst (xyz_parser_iterator water_monomer false))
     = [([Atom2 (Some (txt "O")) (f_0_0, f_0_0, f_0_0);
          Atom2 (Some (txt "H")) (f_0_0, f_0_0, f_0_957)], Some StopIteration)].
Proof. repeat split; vm_compute; reflexivity. Qed.

(** Where the call of line 55 succeeds: for every frame of every text whose
    positions block holds no more matches of the position pattern than the
    declared count, the call after the last match raises the error for too
    few entries, carrying (seen, declared) with seen < declared, when the
    block holds fewer; it raises [StopIteration] when the counts agree; and at
    no call of any frame does [StopIteration] come out unless the number of
    matches equals the declared count.  When the conversions succeed, a loop
    over the sequence collects one tuple per match and ends in that way. *)
Lemma exhausted_frame_checks_count s b f :
  In f (fst (xyz_parser_iterator s b)) ->
  let it := f_atomiter f in
  let m := List.length (_it it) in
  let all := map (fun x => atom_of_match x b) (_it it) in
  ((Z.of_nat m < f_natoms f)%Z ->
     pulls Python2 (S m) it
     = (all ++ [Raise (TypeError_smaller (Z.of_nat m) (f_natoms f))], after_pulls m it)
     /\ (forall recs, map Return recs = all ->
           drain Python2 it = (recs, Some (TypeError_smaller (Z.of_nat m) (f_natoms f)))))
  /\ (Z.of_nat m = f_natoms f ->
        pulls Python2 (S m) it = (all ++ [Raise StopIteration], after_pulls m it)
        /\ (forall recs, map Return recs = all ->
              drain Python2 it = (recs, Some StopIteration)))
  /\ (forall j, In (Raise StopIteration) (fst (pulls Python2 j it)) -> Z.of_nat m = f_natoms f).
Proof.
  intros Hin.
  destruct (frame_origin _ _ _ Hin) as (mb & nt & cm & ps & _ & _ & _ & ->).
  exact (exhausted_init (finditer pos_regex (ps ++ [LF])) (digits_val nt) b).
Qed.

(** ** C6: one well-formed frame *)

(** The concrete scenario of C6: one frame, count 2, the comment line, and
    two matches whose tuples are the two records.  Where the call of line 55
    succeeds the sequence gives them in order and ends normally; with the
    [AttributeError] of line 55 it gives none (see C5). *)
Lemma water_monomer_scenario :
  map (fun f => (f_natoms f, f_comment f,
                 map (fun m => atom_of_match m false) (_it (f_atomiter f)),
                 drain Python2 (f_atomiter f)))
      (fst (xyz_parser_iterator water_monomer false))
  = [(2%Z, Some (txt "water monomer"),
      [Return (Atom2 (Some (txt "O")) (f_0_0, f_0_0, f_0_0));
       Return (Atom2 (Some (txt "H")) (f_0_0, f_0_0, f_0_957))],
      ([Atom2 (Some (txt "O")) (f_0_0, f_0_0, f_0_0);
        Atom2 (Some (txt "H")) (f_0_0, f_0_0, f_0_957)],
       Some StopIteration))]
  /\ snd (xyz_parser_iterator water_monomer false) = None.
Proof. split; vm_compute; reflexivity. Qed.

(** C6.  The general statement fails on a frame whose coordinates have no
    decimal point: the position pattern matches the line [H 1 2 3], the
    framing pattern does not, and the text yields no frame at all.  In lines
    121-130 of the source the bar of line 126 ends the first alternative after
    [\d*[\.]\d+], so a number without a point is only accepted where no white
    space precedes it. *)
Theorem integer_coordinates_yield_no_frame :
  xyz_parser_iterator integer_coordinates false = ([], None)
  /\ map (fun m => (group m "sym", group m "x", group m "y", group m "z"))
         (finditer pos_regex (lines ["H 1 2 3"]))
     = [(Some (txt "H"), Some (txt "1"), Some (txt "2"), Some (txt "3"))].
Proof. split; vm_compute; reflexivity. Qed.

(** ** C7: the frame sequence itself *)

(** C7, as stated, fails: the count line holds 4301 digits, the framing
    pattern accepts the frame, and [int] at line 145 refuses the count, so
    the generator raises [ValueError] before it yields anything. *)
Lemma long_count_line_raises :
  List.length (finditer pos_block_regex long_count) = 1
  /\ xyz_parser_iterator long_count false
     = ([], Some (ValueError (repeat "1"%char 4301)))
  /\ xyz_parser_iterator long_count true
     = ([], Some (ValueError (repeat "1"%char 4301))).
Proof. repeat split; vm_compute; reflexivity. Qed.

(** C7, amended.  For every text in which no count line that the framing
    pattern matches holds more than 4300 digits, and either value of
    [include_match_object], the generator runs to its end without raising:
    it yields one tuple per match of the framing pattern, none when the
    pattern matches nowhere, and every tuple carries an atom iterator on
    which [__next__] has not been called yet, so that what the frame's lines
    hold is examined only when that iterator is pulled. *)
Theorem frame_sequence_never_raises s b :
  counts_within_limit s = true ->
  snd (xyz_parser_iterator s b) = None
  /\ List.length (fst (xyz_parser_iterator s b))
     = List.length (finditer pos_block_regex s)
  /\ Forall (fun f => _catom (f_atomiter f) = 0%Z /\ _natoms (f_atomiter f) = f_natoms f)
            (fst (xyz_parser_iterator s b)).
Proof.
  intros Hl. destruct (frames_of_fitting_counts s b Hl) as [E F2].
  split; [exact E|]. split.
  - symmetry. eapply Forall2_length. exact F2.
  - apply Forall_forall. intros f Hin.
    rewrite (frame_atomiter_fresh _ _ _ Hin). auto.
Qed.

Lemma frame_sequence_never_raises_witness :
  snd (xyz_parser_iterator two_frames false) = None
  /\ List.length (fst (xyz_parser_iterator two_frames false))
     = List.length (finditer pos_block_regex two_frames)
  /\ Forall (fun f => _catom (f_atomiter f) = 0%Z /\ _natoms (f_atomiter f) = f_natoms f)
            (fst (xyz_parser_iterator two_frames false)).
Proof.
  assert (H1 : counts_within_limit two_frames = true) by (vm_compute; reflexivity).
  exact (frame_sequence_never_raises two_frames false H1).
Defined.

(** The condition is the exact one: where some matched count line is longer,
    the generator ends with the [ValueError] of [int].  A text without a run
    of more than 4300 digits meets it (lemma [short_runs_within_limit]). *)
Lemma long_count_always_raises s b :
  counts_within_limit s = false ->
  exists t, snd (xyz_parser_iterator s b) = Some (ValueError t)
            /\ (int_max_str_digits < Z.of_nat (List.length t))%Z.
Proof.
  intros H. apply (frames_of_long_count s b _ (finditer_block_good s) H).
Qed.

(** ** C8: blank lines and commented lines *)

(** Blank and commented lines give no match of the position pattern and,
    where the call of line 55 succeeds, no tuple; they are not counted. *)
Lemma skipped_lines_scenario :
  map (fun f => (f_natoms f, List.length (_it (f_atomiter f)), drain Python2 (f_atomiter f)))
      (fst (xyz_parser_iterator with_skipped_lines false))
  = [(2%Z, 2, ([Atom2 (Some (txt "H")) (f_1_0, f_2_0, f_3_0);
                Atom2 (Some (txt "O")) (f_1_0, f_2_0, f_3_0)],
               Some StopIteration))].
Proof. vm_compute. reflexivity. Qed.

(** C8.  One atom is declared and the positions block is one commented line
    and one atom line; the atom line has a fifth column, which the exponent
    part of group z takes in because the bracketed set [[E | e]] holds a
    space: z captures ["3.0 4"], which [float] refuses.  Where the call of
    line 55 succeeds the frame drains with no tuple and a [ValueError];
    with the [AttributeError] of line 55 it drains with no tuple either. *)
Theorem skipped_lines_frame_fails_to_drain :
  map (fun f => (f_natoms f, drain Python2 (f_atomiter f)))
      (fst (xyz_parser_iterator commented_and_extra_column false))
  = [(1%Z, ([], Some (ValueError (txt "3.0 4"))))]
  /\ map (fun m => group m "positions")
         (finditer pos_block_regex commented_and_extra_column)
     = [Some (lines ["# note"; "H 1.0 2.0 3.0 4"])]
  /\ map (fun f => map (fun m => atom_of_match m false) (_it (f_atomiter f)))
         (fst (xyz_parser_iterator commented_and_extra_column false))
     = [[Raise (ValueError (txt "3.0 4"))]]
  /\ map (fun f => (f_natoms f, drain Python3 (f_atomiter f)))
         (fst (xyz_parser_iterator commented_and_extra_column false))
     = [(1%Z, ([], Some AttributeError_next))].
Proof. repeat split; vm_compute; reflexivity. Qed.

(** ** C9: two frames back to back *)

(** With a decimal point in every coordinate the two frames come out in
    order, each with its own count and comment, on adjacent spans, and, where
    the call of line 55 succeeds, with its own tuples. *)
Lemma two_frames_scenario :
  map (fun f => (f_natoms f, f_comment f, drain Python2 (f_atomiter f)))
      (fst (xyz_parser_iterator two_frames false))
  = [(1%Z, Some (txt "first"),
      ([Atom2 (Some (txt "H")) (f_1_0, f_2_0, f_3_0)], Some StopIteration));
     (2%Z, Some (txt "second"),
      ([Atom2 (Some (txt "O")) (f_1_0, f_2_0, f_3_0);
        Atom2 (Some (txt "H")) (f_0_0, f_0_0, f_0_957)], Some StopIteration))]
  /\ map span (finditer pos_block_regex two_frames) = [(0, 22); (22, 65)].
Proof. split; vm_compute; reflexivity. Qed.

(** C9.  Two frames whose coordinates have no decimal point, one after the
    other: the framing pattern accepts neither positions block and the text
    yields no frame. *)
Theorem two_integer_frames_yield_no_frame :
  xyz_parser_iterator two_integer_frames false = ([], None).
Proof. vm_compute. reflexivity. Qed.

(** ** C10: a last line without its line feed *)

(** C10.  Two atoms are declared and two atom lines follow, the second one
    without its line feed; in the second text one atom is declared and its
    only line has no line feed.  As the claim says, the unterminated line is
    no part of the positions block: the first frame is matched with one line
    in its block, the second text yields no frame.  The claim then has the
    sequence of the first frame give one tuple and raise the error for too
    few entries; it ends at the first call with [AttributeError], raised at
    line 55, with no tuple.  Where the call of line 55 succeeds, it does
    what the claim says. *)
Theorem unterminated_line_frame_fails_at_line_55 :
  map (fun f => (f_natoms f, f_positions f, List.length (_it (f_atomiter f)),
                 drain Python3 (f_atomiter f)))
      (fst (xyz_parser_iterator (terminated_part ++ unterminated_part) false))
  = [(2%Z, lines ["H 1.0 2.0 3.0"], 1, ([], Some AttributeError_next))]
  /\ xyz_parser_iterator no_final_newline false = ([], None)
  /\ map (fun f => drain Python2 (f_atomiter f))
         (fst (xyz_parser_iterator (terminated_part ++ unterminated_part) false))
     = [([Atom2 (Some (txt "H")) (f_1_0, f_2_0, f_3_0)], Some (TypeError_smaller 1 2))].
Proof. repeat split; vm_compute; reflexivity. Qed.

(** Every line group of a positions block ends with a line feed.  So for
    every text that ends in a line without line feed ([tail]), every frame
    lies wholly before that line: its match ends in [head], its positions
    block is not empty, ends with a line feed and is the end of the match,
    and the atom sequence holds the matches of the position pattern in that
    block only.  Where the call of line 55 succeeds, the call after the last
    of them raises the error for too few entries when they are fewer than
    the declared count, and [StopIteration] when they are as many. *)
Lemma unterminated_line_outside_frames head tail b f :
  no_LF tail = true ->
  In f (fst (xyz_parser_iterator (head ++ tail) b)) ->
  let it := f_atomiter f in
  let m := List.length (_it it) in
  let all := map (fun x => atom_of_match x b) (_it it) in
  f_span_end f <= List.length head
  /\ last (f_positions f) " "%char = LF
  /\ skipn (f_span_end f - List.length (f_positions f)) (firstn (f_span_end f) head)
     = f_positions f
  /\ _it it = finditer pos_regex (f_positions f)
  /\ ((Z.of_nat m < f_natoms f)%Z ->
        pulls Python2 (S m) it
        = (all ++ [Raise (TypeError_smaller (Z.of_nat m) (f_natoms f))], after_pulls m it))
  /\ (Z.of_nat m = f_natoms f ->
        pulls Python2 (S m) it = (all ++ [Raise StopIteration], after_pulls m it)).
Proof.
  intros Ht Hin.
  destruct (frame_origin _ _ _ Hin) as (mb & nt & cm & ps & _ & G & Gp & ->).
  destruct G as (pre & lead & natoms & trail & comment & positions & post
                 & _ & _ & _ & _ & _ & Gp' & Es & _ & Ee).
  rewrite Gp in Gp'. injection Gp' as Eps. apply app_inj_tail in Eps. destruct Eps as [<- _].
  cbn [frame_for f_atomiter f_natoms BlockIterator_init _it].
  unfold f_span_end, f_positions. cbn [frame_for f_block]. rewrite Gp.
  set (front := pre ++ lead ++ natoms ++ trail ++ LF :: comment ++ [LF]).
  assert (Ex : pre ++ (lead ++ natoms ++ trail ++ LF :: comment ++ LF :: ps ++ [LF])
               = (front ++ ps) ++ [LF]).
  { unfold front. app_norm. reflexivity. }
  assert (El : m_end mb = List.length ((front ++ ps) ++ [LF])).
  { rewrite <- Ex, length_app. exact Ee. }
  rewrite app_assoc, Ex in Es.
  destruct (before_unterminated_tail _ _ _ _ Es Ht) as (l & Eh).
  destruct (exhausted_init (finditer pos_regex (ps ++ [LF])) (digits_val nt) b)
    as (U & S & _).
  split; [rewrite Eh, El, (length_app _ l); lia|].
  split; [apply last_last|].
  split.
  { rewrite Eh, El, firstn_app, firstn_all, Nat.sub_diag. cbn [firstn].
    rewrite app_nil_r, <- app_assoc, skipn_app.
    replace (List.length (front ++ ps ++ [LF]) - List.length (ps ++ [LF]))
      with (List.length front) by (rewrite (length_app front); lia).
    rewrite skipn_all, Nat.sub_diag. reflexivity. }
  split; [reflexivity|].
  split; [intros H; exact (proj1 (U H))|intros H; exact (proj1 (S H))].
Qed.

(** * Further properties of the parser and of its caller *)

(** ** Spans *)

Lemma good_block_in_bounds s m : good_block s m -> m_start m <= m_end m <= List.length s.
Proof.
  intros (pre & lead & natoms & trail & comment & positions & post
          & _ & _ & _ & _ & _ & _ & -> & -> & ->).
  rewrite !length_app. lia.
Qed.

Lemma ordered_from_prefix : forall ms rest p,
  ordered_from p (ms ++ rest) -> ordered_from p ms.
Proof.
  induction ms as [|m ms IH]; intros rest p H; [exact I|].
  cbn [app ordered_from] in *. destruct H as (A & B & C).
  repeat split; auto. apply (IH rest). exact C.
Qed.

(** X1.  In every text the frames are yielded in the order of the text: the
    fourth components of the tuples are the matches of the framing pattern
    from the first one on, all of them when the generator ends normally;
    their spans follow one another without overlap and end within the
    text. *)
Theorem frame_spans_in_order s b :
  blocks_of (fst (xyz_parser_iterator s b))
  = firstn (List.length (fst (xyz_parser_iterator s b))) (finditer pos_block_regex s)
  /\ (snd (xyz_parser_iterator s b) = None ->
      blocks_of (fst (xyz_parser_iterator s b)) = finditer pos_block_regex s)
  /\ ordered_from 0 (blocks_of (fst (xyz_parser_iterator s b)))
  /\ Forall (fun m => m_end m <= List.length s)
            (blocks_of (fst (xyz_parser_iterator s b))).
Proof.
  destruct (frame_blocks s b) as (ms & rest & E & Hb & Hn).
  assert (Eb : blocks_of (fst (xyz_parser_iterator s b)) = ms).
  { revert Hb. generalize (fst (xyz_parser_iterator s b)). clear.
    induction ms as [|m ms IH]; intros [|f fs] H; try discriminate H; [reflexivity|].
    cbn [map] in H. injection H as Hf Hfs. cbn [blocks_of]. rewrite Hf, (IH fs Hfs).
    reflexivity. }
  assert (El : List.length (fst (xyz_parser_iterator s b)) = List.length ms).
  { apply (f_equal (@List.length _)) in Hb. rewrite !length_map in Hb. exact Hb. }
  rewrite Eb, El, E.
  split; [rewrite firstn_app, firstn_all, Nat.sub_diag; cbn [firstn];
          symmetry; apply app_nil_r|].
  split; [intros H; rewrite (Hn H); symmetry; apply app_nil_r|].
  pose proof (frame_spans_ordered s) as O. rewrite E in O.
  split; [exact (ordered_from_prefix ms rest 0 O)|].
  pose proof (finditer_block_good s) as G. rewrite E in G.
  apply Forall_app in G. destruct G as [G _].
  eapply Forall_impl; [|exact G].
  intros m Gm. apply good_block_in_bounds in Gm. lia.
Qed.

(** ** The text of a frame *)

(** The count line of a match of the framing pattern: blanks, digits,
    blanks. *)
Lemma block_match_parts c e :
  caps c = [] -> reach pos_block_regex c e ->
  exists lead natoms trail comment positions cn cc cp,
    caps e = [("positions"%string, cp); ("comment"%string, cc); ("natoms"%string, cn)]
    /\ c_text cn = natoms /\ c_text cc = comment /\ c_text cp = positions ++ [LF]
    /\ blanks lead = true /\ blanks trail = true
    /\ natoms <> [] /\ forallb is_digit natoms = true
    /\ no_LF comment = true
    /\ rest c = lead ++ natoms ++ trail ++ LF :: comment
                   ++ LF :: (positions ++ [LF]) ++ rest e.
Proof.
  intros Hc H. unfold pos_block_regex in H. cbn [Seq] in H.
  apply reach_cat_inv in H. destruct H as (c0 & H0 & H).
  apply reach_bol_inv in H0. destruct H0 as [-> _].
  apply reach_cat_inv in H. destruct H as (c1 & H1 & H).
  pose proof (reach_caps H1 eq_refl) as C1.
  apply reach_star_set in H1. destruct H1 as (lead & E1 & F1).
  apply reach_cat_inv in H. destruct H as (c2 & H2 & H).
  apply reach_named_lang in H2. destruct H2 as (c2' & d & -> & R2 & E2 & T2 & L2).
  pose proof (reach_caps R2 eq_refl) as C2.
  apply in_lang_plus_set in L2. destruct L2 as [Hne Fd].
  apply reach_cat_inv in H. destruct H as (c3 & H3 & H).
  pose proof (reach_caps H3 eq_refl) as C3.
  apply reach_star_set in H3. destruct H3 as (trail & E3 & F3).
  apply reach_cat_inv in H. destruct H as (c4 & H4 & H).
  apply reach_newline in H4. destruct H4 as (tl4 & E4 & ->).
  apply reach_cat_inv in H. destruct H as (c5 & H5 & H).
  apply reach_named_lang in H5. destruct H5 as (c5' & cm & -> & R5 & E5 & T5 & L5).
  pose proof (reach_caps R5 eq_refl) as C5.
  apply reach_star_dot in R5. destruct R5 as (cm' & E5' & F5).
  assert (cm' = cm) by (rewrite E5 in E5'; apply app_inv_tail in E5'; auto). subst cm'.
  apply reach_cat_inv in H. destruct H as (c6 & H6 & H).
  apply reach_newline in H6. destruct H6 as (tl6 & E6 & ->).
  apply reach_named_lang in H. destruct H as (c7 & ps & -> & R7 & E7 & T7 & L7).
  pose proof (reach_caps R7 eq_refl) as C7.
  apply reach_plus_block_line in R7. destruct R7 as (pw & E7' & _).
  assert (Eps : ps = pw ++ [LF]) by (rewrite E7 in E7'; apply app_inv_tail in E7'; auto).
  cbn [caps rest pos set_cap advance] in *.
  exists lead, d, trail, cm, pw. eexists _, _, _.
  cbn [caps set_cap]. rewrite C7. cbn [caps advance set_cap]. rewrite C5.
  cbn [caps advance]. rewrite C3. cbn [caps set_cap]. rewrite C2, C1, Hc.
  split; [reflexivity|]. cbn [c_text].
  rewrite T2, T5, T7, Eps.
  repeat split; auto.
  - rewrite forallb_forall in *. intros x Hx. rewrite <- in_set_09. apply Fd. exact Hx.
  - rewrite E1, E2, E3, E4, E5, E6, E7, Eps. reflexivity.
Qed.

Lemma finditer_block_parts s : Forall (block_parts s) (finditer pos_block_regex s).
Proof.
  apply finditer_spec. intros st b' pre s' e Es Est Hm.
  destruct (rmatch_sound _ _ _ Hm) as (e' & Hr & He). injection He as ->.
  destruct (reach_consumes Hr) as (w & Ew & Pw). simpl in Ew, Pw.
  apply block_match_parts in Hr; [|reflexivity].
  destruct Hr as (lead & natoms & trail & comment & positions & cn & cc & cp
                  & Hcaps & Tn & Tc & Tp & Bl & Bt & Hne & Hd & Hl & Ht).
  simpl in Ht.
  assert (Hw : w = lead ++ natoms ++ trail ++ LF :: comment ++ LF :: positions ++ [LF]).
  { apply (app_inv_tail (rest e)).
    rewrite <- Ew, Ht. app_norm. reflexivity. }
  exists pre, lead, natoms, trail, comment, positions, (rest e).
  unfold group, span. cbn [m_groups m_start m_end]. rewrite Hcaps. cbn.
  rewrite Tn, Tc, Tp.
  repeat split; auto.
  - rewrite Es, Ew, Hw. reflexivity.
  - rewrite Pw, Est, Hw. reflexivity.
Qed.

(** A yielded frame comes from a match of the framing pattern whose parts
    are known. *)
Lemma frame_parts s b f :
  In f (fst (xyz_parser_iterator s b)) ->
  exists m, In m (finditer pos_block_regex s) /\ block_parts s m
            /\ f_block f = Some m /\ frame_of_block m b = Return f.
Proof.
  intros Hin. destruct (frame_block _ _ _ Hin) as (m & Hm & Hr).
  pose proof (finditer_block_parts s) as G. rewrite Forall_forall in G.
  exists m. split; [exact Hm|]. split; [apply G; exact Hm|].
  split; [exact (frame_of_block_block _ _ _ Hr)|exact Hr].
Qed.

Lemma blanks_space w : blanks w = true -> forallb is_numeral_space w = true.
Proof.
  unfold blanks. rewrite !forallb_forall. intros H x Hx.
  specialize (H x Hx).
  destruct x as [[] [] [] [] [] [] [] []]; try discriminate H; reflexivity.
Qed.

Lemma blanks_no_LF w : blanks w = true -> no_LF w = true.
Proof.
  unfold blanks, no_LF. rewrite !forallb_forall. intros H x Hx.
  specialize (H x Hx).
  destruct x as [[] [] [] [] [] [] [] []]; try discriminate H; reflexivity.
Qed.

Lemma digits_no_LF w : forallb is_digit w = true -> no_LF w = true.
Proof.
  unfold no_LF. rewrite !forallb_forall. intros H x Hx.
  specialize (H x Hx).
  destruct x as [[] [] [] [] [] [] [] []]; try discriminate H; reflexivity.
Qed.

Lemma drop_space_spaces w t :
  forallb is_numeral_space w = true ->
  drop_numeral_space (w ++ t) = drop_numeral_space t.
Proof.
  induction w as [|c w IH]; simpl; intros H; [reflexivity|].
  apply andb_prop in H. destruct H as [Hc Hw]. rewrite Hc. auto.
Qed.

(** [strip] removes the blanks around a run of digits. *)
Lemma strip_padded_digits lead c d trail :
  forallb is_numeral_space lead = true -> forallb is_numeral_space trail = true ->
  forallb is_digit (c :: d) = true ->
  strip (lead ++ (c :: d) ++ trail) = c :: d.
Proof.
  intros Hl Ht Hd. unfold strip.
  rewrite (drop_space_spaces _ _ Hl).
  pose proof Hd as Hd'. cbn [forallb] in Hd'. apply andb_prop in Hd'.
  destruct Hd' as [Hc Hd'].
  cbn [app]. rewrite (@drop_space_head _ _ (digit_not_space _ Hc)).
  change (c :: d ++ trail) with ((c :: d) ++ trail).
  rewrite rev_app_distr.
  rewrite drop_space_spaces by (rewrite forallb_rev; exact Ht).
  rewrite drop_space_digits by (rewrite forallb_rev; exact Hd).
  apply rev_involutive.
Qed.

(** [int] reads a run of digits between blanks as it reads the run. *)
Lemma py_int_padded_digits lead c d trail :
  blanks lead = true -> blanks trail = true ->
  forallb is_digit (c :: d) = true ->
  py_int (lead ++ (c :: d) ++ trail) = py_int (c :: d).
Proof.
  intros Hl Ht Hd. unfold py_int.
  rewrite (strip_padded_digits _ _ _ _ (blanks_space _ Hl) (blanks_space _ Ht) Hd).
  rewrite (strip_digits _ Hd). reflexivity.
Qed.

Lemma slice_middle (pre w post : text) :
  slice (pre ++ w ++ post) (List.length pre) (List.length pre + List.length w) = w.
Proof.
  unfold slice. rewrite skipn_app, skipn_all, Nat.sub_diag. cbn [skipn app].
  replace (List.length pre + List.length w - List.length pre) with (List.length w) by lia.
  rewrite firstn_app, firstn_all, Nat.sub_diag. cbn [firstn]. apply app_nil_r.
Qed.

(** The slice of the input at a frame's span, part by part. *)
Lemma frame_slice_layout s b f :
  In f (fst (xyz_parser_iterator s b)) ->
  exists count_line comment positions,
    slice s (f_span_start f) (f_span_end f)
      = count_line ++ LF :: comment ++ LF :: positions ++ [LF]
    /\ no_LF count_line = true
    /\ py_int count_line = Some (f_natoms f)
    /\ f_comment f = Some comment /\ no_LF comment = true
    /\ f_positions f = positions ++ [LF]
    /\ (0 <= f_natoms f)%Z.
Proof.
  intros Hin. pose proof (frame_natoms_nonneg _ _ _ Hin) as Hnn.
  destruct (frame_parts _ _ _ Hin) as (m & _ & Hp & Hb & Hf).
  destruct Hp as (pre & lead & natoms & trail & comment & positions & post
                  & Gn & Hne & Hd & Bl & Bt & Gc & Hc & Gp & Es & Ms & Me).
  exists (lead ++ natoms ++ trail), comment, positions.
  unfold f_span_start, f_span_end, f_positions. rewrite Hb, Gp, Ms, Me.
  unfold frame_of_block, int_group in Hf. rewrite Gn in Hf.
  destruct natoms as [|c d]; [contradiction|].
  destruct (py_int (c :: d)) as [v|] eqn:Ei; [|discriminate Hf].
  rewrite Gc, Gp in Hf.
  split.
  { rewrite Es at 1. rewrite slice_middle. app_norm. reflexivity. }
  split.
  { unfold no_LF. rewrite !forallb_app.
    fold (no_LF lead). fold (no_LF (c :: d)). fold (no_LF trail).
    rewrite (blanks_no_LF _ Bl), (blanks_no_LF _ Bt), (digits_no_LF _ Hd). reflexivity. }
  split.
  { rewrite (py_int_padded_digits _ _ _ _ Bl Bt Hd), Ei.
    destruct b; injection Hf as <-; reflexivity. }
  split; [destruct b; injection Hf as <-; reflexivity|].
  split; [exact Hc|]. split; [reflexivity|exact Hnn].
Qed.

(** X2. The text of a frame.  The slice of the input at a yielded frame's
    span is a count line, a line feed, the comment, a line feed and the
    positions block.  [int] of the whole count line, blanks included, is the
    frame's count, which is not negative; the comment is the tuple's second
    component and holds no line feed; the positions block is group
    [positions] and ends with a line feed. *)
Theorem frame_text_layout s b f :
  In f (fst (xyz_parser_iterator s b)) ->
  exists count_line comment positions,
    slice s (f_span_start f) (f_span_end f)
      = count_line ++ LF :: comment ++ LF :: positions ++ [LF]
    /\ no_LF count_line = true
    /\ py_int count_line = Some (f_natoms f)
    /\ f_comment f = Some comment /\ no_LF comment = true
    /\ f_positions f = positions ++ [LF]
    /\ (0 <= f_natoms f)%Z.
Proof. apply frame_slice_layout. Qed.

Lemma frame_text_layout_witness :
  exists count_line comment positions,
    slice water_monomer (f_span_start (first_frame water_monomer false))
          (f_span_end (first_frame water_monomer false))
      = count_line ++ LF :: comment ++ LF :: positions ++ [LF]
    /\ no_LF count_line = true
    /\ py_int count_line = Some (f_natoms (first_frame water_monomer false))
    /\ f_comment (first_frame water_monomer false) = Some comment
    /\ no_LF comment = true
    /\ f_positions (first_frame water_monomer false) = positions ++ [LF]
    /\ (0 <= f_natoms (first_frame water_monomer false))%Z.
Proof.
  assert (H1 : In (first_frame water_monomer false)
                  (fst (xyz_parser_iterator water_monomer false)))
    by (vm_compute; left; reflexivity).
  exact (frame_text_layout water_monomer false _ H1).
Defined.

(** ** Line starts *)

Lemma at_bol_snoc pre ch : at_bol (pre ++ [ch]) = Ascii.eqb ch LF.
Proof. unfold at_bol. rewrite rev_unit. reflexivity. Qed.

Lemma synced_advance all p b ch tl :
  synced all p b (ch :: tl) -> synced all (S p) (Ascii.eqb ch LF) tl.
Proof.
  intros (pre & E & P & B). exists (pre ++ [ch]).
  rewrite <- app_assoc, length_app, at_bol_snoc. cbn [app List.length].
  repeat split; auto. lia.
Qed.

(** A match keeps the line-start flag of the cursor in step with the text. *)
Lemma reach_synced all r c e :
  reach r c e -> synced all (pos c) (bol c) (rest c) ->
  synced all (pos e) (bol e) (rest e).
Proof.
  induction 1; intros S0; auto.
  - cbn [advance pos bol rest]. rewrite H in S0. apply synced_advance with (b := bol c). exact S0.
  - cbn [advance pos bol rest]. rewrite H in S0. apply synced_advance with (b := bol c). exact S0.
Qed.

Lemma scan_synced all r : forall s p b st e,
  scan r p b s = Some (st, e) -> synced all p b s ->
  exists b' s',
    synced all st b' s'
    /\ rmatch r {| pos := st; bol := b'; rest := s'; caps := [] |} Some = Some e.
Proof.
  induction s as [|ch tl IH]; intros p b st e H S0; simpl in H.
  - destruct (rmatch r _ Some) as [e0|] eqn:E; [|discriminate].
    injection H as <- <-. exists b, []. auto.
  - destruct (rmatch r _ Some) as [e0|] eqn:E.
    + injection H as <- <-. exists b, (ch :: tl). auto.
    + apply IH in H; [exact H|]. apply synced_advance with (b := b). exact S0.
Qed.

Lemma finditer_from_synced all r (P : match_object -> Prop) :
  (forall st b' s' e,
      synced all st b' s' ->
      rmatch r {| pos := st; bol := b'; rest := s'; caps := [] |} Some = Some e ->
      P {| m_start := st; m_end := pos e; m_groups := caps e |}) ->
  forall fuel p b s,
    synced all p b s -> Forall P (finditer_from r fuel p b s).
Proof.
  intros HP. induction fuel as [|f IH]; intros p b s S0; cbn [finditer_from].
  - constructor.
  - destruct (scan r p b s) as [[st e]|] eqn:E; [|constructor].
    destruct (scan_synced all _ _ _ _ _ _ E S0) as (b' & s' & S1 & Hm).
    constructor; [eapply HP; eauto|].
    destruct (rmatch_sound _ _ _ Hm) as (e' & Hr & He). injection He as ->.
    pose proof (reach_synced all _ _ _ Hr S1) as S2.
    destruct (Nat.ltb st (pos e)); [apply IH; exact S2|].
    destruct (rest e) as [|ch tl] eqn:Re; [constructor|].
    apply IH. apply synced_advance with (b := bol e). exact S2.
Qed.

Lemma finditer_synced r (P : match_object -> Prop) s :
  (forall st b' s' e,
      synced s st b' s' ->
      rmatch r {| pos := st; bol := b'; rest := s'; caps := [] |} Some = Some e ->
      P {| m_start := st; m_end := pos e; m_groups := caps e |}) ->
  Forall P (finditer r s).
Proof.
  intros HP. apply (finditer_from_synced s r P HP).
  exists []. repeat split.
Qed.

(** X3. Atom matches begin lines.  Every match of the position pattern in a
    text starts at the beginning of the text or just after a line feed, and
    what follows that point is spaces and tabs and then a letter. *)
Theorem atom_matches_begin_lines t :
  Forall (fun m => exists pre rest,
              t = pre ++ rest /\ m_start m = List.length pre
              /\ at_bol pre = true /\ skip_line_start rest = false)
         (finditer pos_regex t).
Proof.
  apply finditer_synced. intros st b' s' e (pre & E & P & B) Hm.
  destruct (rmatch_sound _ _ _ Hm) as (e' & Hr & He). injection He as ->.
  apply reach_pos_regex_start in Hr. cbn [bol rest] in Hr. destruct Hr as [Hb Hk].
  exists pre, s'. cbn [m_start]. repeat split; auto. congruence.
Qed.

(** X4. Frames begin lines.  The span of every yielded frame starts at the
    beginning of the input or just after a line feed. *)
Theorem frames_begin_lines s b :
  Forall (fun f => at_bol (firstn (f_span_start f) s) = true)
         (fst (xyz_parser_iterator s b)).
Proof.
  assert (G : Forall (fun m => at_bol (firstn (m_start m) s) = true)
                     (finditer pos_block_regex s)).
  { apply finditer_synced. intros st b' s' e (pre & E & P & B) Hm.
    destruct (rmatch_sound _ _ _ Hm) as (e' & Hr & He). injection He as ->.
    unfold pos_block_regex in Hr. cbn [Seq] in Hr.
    apply reach_cat_inv in Hr. destruct Hr as (c0 & H0 & _).
    apply reach_bol_inv in H0. destruct H0 as [_ Hb]. cbn [bol] in Hb.
    cbn [m_start]. rewrite E, P, firstn_app, firstn_all, Nat.sub_diag.
    cbn [firstn]. rewrite app_nil_r. congruence. }
  apply Forall_forall. intros f Hin.
  destruct (frame_parts _ _ _ Hin) as (m & Hm & _ & Hb & _).
  unfold f_span_start. rewrite Hb.
  rewrite Forall_forall in G. apply G. exact Hm.
Qed.

Lemma app_split_longer (A : Type) (p1 r1 p2 r2 : list A) :
  p1 ++ r1 = p2 ++ r2 -> List.length p2 <= List.length p1 ->
  exists mid, p1 = p2 ++ mid /\ r2 = mid ++ r1.
Proof.
  revert p2. induction p1 as [|a p1 IH]; intros p2 E L.
  - destruct p2; [|simpl in L; lia]. exists []. simpl in *. auto.
  - destruct p2 as [|a' p2].
    + exists (a :: p1). simpl in *. auto.
    + simpl in E, L. injection E as <- E.
      destruct (IH p2 E) as (mid & -> & ->); [lia|]. exists mid. auto.
Qed.

Lemma at_bol_inside pre mid :
  mid <> [] -> no_LF mid = true -> at_bol (pre ++ mid) = false.
Proof.
  intros Hne Hn. destruct (exists_last Hne) as (mid' & ch & ->).
  rewrite app_assoc, at_bol_snoc.
  unfold no_LF in Hn. rewrite forallb_app in Hn. apply andb_prop in Hn.
  destruct Hn as [_ Hn]. cbn [forallb] in Hn. rewrite andb_true_r in Hn.
  apply negb_true_iff. exact Hn.
Qed.

(** X5. Skipped lines.  A line of a text that is white space only or has [#]
    as its first character after white space holds the start of no match of
    the position pattern: no match starts on any of its characters or on the
    line feed that ends it. *)
Theorem no_match_starts_in_skipped_line pre line post :
  blank_or_comment line = true -> no_LF line = true ->
  Forall (fun m => m_start m < List.length pre
                   \/ List.length pre + List.length line < m_start m)
         (finditer pos_regex (pre ++ line ++ LF :: post)).
Proof.
  intros Hb Hn. eapply Forall_impl; [|apply atom_matches_begin_lines].
  intros m (pre' & rest' & E & Hs & Hbol & Hk).
  destruct (Nat.lt_ge_cases (m_start m) (List.length pre)) as [Hlt|Hge]; [left; exact Hlt|].
  right. rewrite Hs in *.
  destruct (Nat.lt_ge_cases (List.length pre + List.length line) (List.length pre'))
    as [Hlt|Hle]; [exact Hlt|exfalso].
  symmetry in E.
  destruct (app_split_longer _ _ _ _ _ E Hge) as (mid & -> & E2).
  rewrite length_app in Hle.
  destruct (app_split_longer _ line (LF :: post) mid rest') as (line2 & -> & E3);
    [exact E2|lia|].
  destruct mid as [|c mid].
  - cbn [app] in E3. subst rest'.
    rewrite (blank_or_comment_skips _ _ Hb) in Hk. discriminate.
  - unfold no_LF in Hn. rewrite forallb_app in Hn. apply andb_prop in Hn.
    destruct Hn as [Hn _].
    rewrite at_bol_inside in Hbol; [discriminate|discriminate|exact Hn].
Qed.

Lemma no_match_starts_in_skipped_line_witness :
  Forall (fun m => m_start m < List.length (lines ["H 1.0 2.0 3.0"])
                   \/ List.length (lines ["H 1.0 2.0 3.0"])
                      + List.length (txt "# O 9.0 9.0 9.0") < m_start m)
         (finditer pos_regex
            (lines ["H 1.0 2.0 3.0"] ++ txt "# O 9.0 9.0 9.0"
               ++ LF :: lines ["O 1.0 2.0 3.0"])).
Proof.
  assert (H1 : blank_or_comment (txt "# O 9.0 9.0 9.0") = true)
    by (vm_compute; reflexivity).
  assert (H2 : no_LF (txt "# O 9.0 9.0 9.0") = true) by (vm_compute; reflexivity).
  exact (no_match_starts_in_skipped_line (lines ["H 1.0 2.0 3.0"])
           (txt "# O 9.0 9.0 9.0") (lines ["O 1.0 2.0 3.0"]) H1 H2).
Defined.

(** ** [BlockIterator.__next__] past the declared count and past the end *)

(** The lemmas of this section that name [Python2] say what lines 56 to 90
    do where the call of line 55 succeeds. *)

Lemma next_state_cons self m it' :
  _it self = m :: it' ->
  _it (snd (next Python2 self)) = it'
  /\ _catom (snd (next Python2 self)) = (_catom self + 1)%Z
  /\ _natoms (snd (next Python2 self)) = _natoms self
  /\ _include_match_object (snd (next Python2 self)) = _include_match_object self.
Proof.
  intros E. rewrite next_Python2. rewrite E. cbn [_catom _natoms].
  destruct (_catom self + 1 >? _natoms self)%Z; cbn; auto.
Qed.

(** Calls past the declared count.  While matches remain, every call made
    when the counter has reached the declared count raises the larger-than
    error, and each such call still takes one match and counts it: the error
    of call number [i + 1] from a state with counter [c] carries
    [c + i + 1]. *)
Lemma calls_past_declared_count : forall n self i,
  i < n -> i < List.length (_it self) ->
  (_natoms self <= _catom self + Z.of_nat i)%Z ->
  nth_error (fst (pulls Python2 n self)) i
  = Some (Raise (TypeError_larger (_catom self + Z.of_nat i + 1) (_natoms self))).
Proof.
  induction n as [|n IH]; intros self i Hn Hl Hc; [lia|].
  rewrite pulls_S. cbn [fst].
  destruct (_it self) as [|m it'] eqn:E; [simpl in Hl; lia|].
  destruct (next_state_cons _ _ _ E) as (Ei & Ec & En & _).
  destruct i as [|i].
  - cbn [nth_error]. rewrite Z.add_0_r in *.
    rewrite (@next_over self m it' E) by lia. reflexivity.
  - cbn [nth_error]. rewrite IH.
    + rewrite Ec, En. do 3 f_equal. lia.
    + lia.
    + rewrite Ei. simpl in Hl. lia.
    + rewrite Ec, En. lia.
Qed.

(** Calls after the end.  Once the matches are used up every call raises
    the same exception and leaves the iterator as it is: [StopIteration] when
    the number of matches equals the declared count, and otherwise the
    smaller-than error carrying the number of matches, also when that number
    is the larger one. *)
Lemma calls_after_exhaustion : forall n self i,
  i < n -> List.length (_it self) <= i ->
  nth_error (fst (pulls Python2 n self)) i
  = Some (Raise
            (if (_catom self + Z.of_nat (List.length (_it self)) =? _natoms self)%Z
             then StopIteration
             else TypeError_smaller (_catom self + Z.of_nat (List.length (_it self)))
                                    (_natoms self))).
Proof.
  induction n as [|n IH]; intros self i Hn Hl; [lia|].
  rewrite pulls_S. cbn [fst].
  destruct (_it self) as [|m it'] eqn:E.
  - rewrite (@next_exhausted self E). cbn [fst snd List.length].
    rewrite Z.add_0_r.
    destruct i as [|i]; cbn [nth_error]; [reflexivity|].
    rewrite IH; [|lia|rewrite E; simpl; lia].
    rewrite E. cbn [List.length]. rewrite Z.add_0_r. reflexivity.
  - destruct (next_state_cons _ _ _ E) as (Ei & Ec & En & _).
    destruct i as [|i]; [simpl in Hl; lia|].
    cbn [nth_error]. rewrite IH; [|lia|rewrite Ei; simpl in Hl; lia].
    rewrite Ei, Ec, En. cbn [List.length].
    replace (_catom self + 1 + Z.of_nat (List.length it'))%Z
      with (_catom self + Z.of_nat (S (List.length it')))%Z by lia.
    reflexivity.
Qed.

Lemma returned_cons r rs :
  returned (r :: rs) = (if is_return r then 1 else 0) + returned rs.
Proof. unfold returned. cbn [filter]. destruct (is_return r); reflexivity. Qed.

Lemma next_return_room self a self' :
  next Python2 self = (Return a, self') -> (_catom self < _natoms self)%Z.
Proof.
  rewrite next_Python2. destruct (_it self) as [|m it'].
  - destruct (_catom self =? _natoms self)%Z; discriminate.
  - cbn [_catom _natoms].
    destruct (_catom self + 1 >? _natoms self)%Z eqn:G; [discriminate|].
    intros _. rewrite Z.gtb_ltb in G. apply Z.ltb_ge in G. lia.
Qed.

Lemma returned_bound : forall n self,
  (Z.of_nat (returned (fst (pulls Python2 n self))) <= Z.max 0 (_natoms self - _catom self))%Z
  /\ returned (fst (pulls Python2 n self)) <= List.length (_it self).
Proof.
  induction n as [|n IH]; intros self.
  - cbn. split; lia.
  - rewrite pulls_S. cbn [fst]. rewrite returned_cons.
    destruct (IH (snd (next Python2 self))) as [A B].
    destruct (next Python2 self) as [r self'] eqn:E. cbn [fst snd] in *.
    destruct r as [a|e]; cbn [is_return].
    + pose proof (next_return_room _ _ _ E) as Hroom.
      pose proof (next_returns _ _ _ E) as Hlen.
      destruct (_it self) as [|m it'] eqn:Ei; [simpl in Hlen; lia|].
      destruct (next_state_cons _ _ _ Ei) as (_ & Ec & En & _).
      rewrite E in Ec, En. cbn [snd] in Ec, En. rewrite Ec, En in A.
      split; [lia|]. cbn [List.length] in *. lia.
    + pose proof (next_count self) as [Hc Hn]. rewrite E in Hc, Hn. cbn [snd] in Hc, Hn.
      destruct (_it self) as [|m it'] eqn:Ei.
      * rewrite (@next_exhausted self Ei) in E. injection E as _ <-.
        split; [lia|]. cbn [List.length] in *. lia.
      * destruct (next_state_cons _ _ _ Ei) as (Eit & Ec & En & _).
        rewrite E in Eit, Ec, En. cbn [snd] in Eit, Ec, En.
        rewrite Ec, En in A. rewrite Eit in B. split; [lia|]. cbn [List.length]. lia.
Qed.

Lemma returned_repeat_raise e : forall n, returned (repeat (Raise e) n) = 0.
Proof. induction n as [|n IH]; [reflexivity|exact IH]. Qed.

(** X8. Never more than declared.  However many calls are made on the atom
    iterator of a yielded frame, under either protocol, the tuples returned
    are at most the declared count and at most the matches of the position
    pattern in the frame's positions block. *)
Theorem frame_returns_at_most_declared p s b f n :
  In f (fst (xyz_parser_iterator s b)) ->
  (Z.of_nat (returned (fst (pulls p n (f_atomiter f)))) <= f_natoms f)%Z
  /\ returned (fst (pulls p n (f_atomiter f)))
     <= List.length (finditer pos_regex (f_positions f)).
Proof.
  intros Hin.
  pose proof (frame_natoms_nonneg _ _ _ Hin) as Hnn.
  destruct p.
  { rewrite pulls_Python3. cbn [fst]. rewrite returned_repeat_raise. split; lia. }
  pose proof (frame_atoms_from_block _ _ _ Hin) as Hit.
  pose proof (frame_atomiter_fresh _ _ _ Hin) as Hf.
  destruct (returned_bound n (f_atomiter f)) as [A B].
  rewrite Hit in B. split; [|exact B].
  rewrite Hf in A. cbn [BlockIterator_init _natoms _catom] in A.
  rewrite <- Hf in A. lia.
Qed.

Lemma frame_returns_at_most_declared_witness :
  (Z.of_nat (returned (fst (pulls Python3 5 (f_atomiter (first_frame two_for_one false)))))
   <= f_natoms (first_frame two_for_one false))%Z
  /\ returned (fst (pulls Python3 5 (f_atomiter (first_frame two_for_one false))))
     <= List.length (finditer pos_regex (f_positions (first_frame two_for_one false))).
Proof.
  assert (H1 : In (first_frame two_for_one false)
                  (fst (xyz_parser_iterator two_for_one false)))
    by (vm_compute; left; reflexivity).
  exact (frame_returns_at_most_declared Python3 two_for_one false _ 5 H1).
Defined.

(** ** The flag [include_match_object] *)

Lemma atom_of_match_erase m :
  erase_result (atom_of_match m true) = atom_of_match m false.
Proof.
  unfold atom_of_match.
  destruct (float_group m "x"); [|reflexivity].
  destruct (float_group m "y"); [|reflexivity].
  destruct (float_group m "z"); reflexivity.
Qed.

Lemma pulls_erase_Python2 : forall n ms N c,
  map erase_result
      (fst (pulls Python2 n {| _it := ms; _natoms := N; _catom := c;
                       _include_match_object := true |}))
  = fst (pulls Python2 n {| _it := ms; _natoms := N; _catom := c;
                    _include_match_object := false |}).
Proof.
  induction n as [|n IH]; intros ms N c; [reflexivity|].
  rewrite !pulls_S. cbn [fst map].
  destruct ms as [|m ms]; rewrite !next_Python2; cbn [_it _natoms _catom _include_match_object].
  - destruct (c =? N)%Z; cbn [fst snd erase_result]; f_equal; apply IH.
  - destruct (c + 1 >? N)%Z; cbn [fst snd erase_result]; f_equal;
      try apply IH. apply atom_of_match_erase.
Qed.

Lemma pulls_erase p n ms N c :
  map erase_result
      (fst (pulls p n {| _it := ms; _natoms := N; _catom := c;
                         _include_match_object := true |}))
  = fst (pulls p n {| _it := ms; _natoms := N; _catom := c;
                      _include_match_object := false |}).
Proof.
  destruct p; [|apply pulls_erase_Python2].
  rewrite !pulls_Python3. cbn [fst]. apply map_repeat.
Qed.

(** X9. What the flag changes.  With and without [include_match_object] the
    generator ends the same way and yields frames with the same counts,
    comments and match objects; call for call, under either protocol, the
    two atom iterators of a frame raise the same exceptions and return the
    same tuples, up to the match object the flag appends. *)
Theorem flag_changes_atom_tuples_only s :
  snd (xyz_parser_iterator s true) = snd (xyz_parser_iterator s false)
  /\ Forall2 (fun ft ff =>
                f_natoms ft = f_natoms ff /\ f_comment ft = f_comment ff
                /\ f_block ft = f_block ff
                /\ forall p n, map erase_result (fst (pulls p n (f_atomiter ft)))
                               = fst (pulls p n (f_atomiter ff)))
             (fst (xyz_parser_iterator s true)) (fst (xyz_parser_iterator s false)).
Proof.
  unfold xyz_parser_iterator.
  induction (finditer pos_block_regex s) as [|m ms IH]; cbn [frames_of].
  - split; [reflexivity|constructor].
  - unfold frame_of_block.
    destruct (int_group m "natoms") as [N|e]; [|split; [reflexivity|constructor]].
    destruct (group m "positions") as [p|]; [|split; [reflexivity|constructor]].
    destruct (frames_of ms true) as [lt et], (frames_of ms false) as [lf ef].
    cbn [fst snd] in *. destruct IH as [IH1 IH2]. split; [exact IH1|].
    constructor; [|exact IH2].
    cbn [f_natoms f_comment f_block f_atomiter]. repeat split.
    intros pr n. apply pulls_erase.
Qed.

(** ** Short inputs *)

Lemma count_LF_app a b : count_LF (a ++ b) = count_LF a + count_LF b.
Proof. apply count_occ_app. Qed.

Lemma count_LF_cons t : count_LF (LF :: t) = S (count_LF t).
Proof. unfold count_LF. apply count_occ_cons_eq. reflexivity. Qed.

Lemma block_parts_three_LF s m : block_parts s m -> 3 <= count_LF s.
Proof.
  intros (pre & lead & natoms & trail & comment & positions & post
          & _ & _ & _ & _ & _ & _ & _ & _ & -> & _).
  rewrite !count_LF_app, count_LF_cons, !count_LF_app, count_LF_cons,
    count_LF_app, count_LF_cons. lia.
Qed.

(** X10. Fewer than three line feeds.  A text with fewer than three line
    feeds, the empty text among them, yields no frame and raises nothing: a
    frame needs the line feeds of its count line, of its comment and of one
    positions line. *)
Theorem fewer_than_three_line_feeds_no_frame s b :
  count_LF s < 3 -> xyz_parser_iterator s b = ([], None).
Proof.
  intros H. unfold xyz_parser_iterator.
  pose proof (finditer_block_parts s) as G.
  destruct (finditer pos_block_regex s) as [|m ms]; [reflexivity|].
  inversion G as [|? ? Gm _]; subst.
  apply block_parts_three_LF in Gm. lia.
Qed.

Lemma fewer_than_three_line_feeds_no_frame_witness :
  xyz_parser_iterator no_final_newline false = ([], None).
Proof.
  assert (H1 : count_LF no_final_newline < 3) by (vm_compute; lia).
  exact (fewer_than_three_line_feeds_no_frame no_final_newline false H1).
Defined.

(** ** [try_verify_by_system_ca_bundle] *)

Lemma first_existing_spec path_exists : forall paths,
  match first_existing path_exists paths with
  | Some p =>
      exists before after,
        paths = before ++ p :: after /\ path_exists p = true
        /\ Forall (fun q => path_exists q = false) before
  | None => Forall (fun q => path_exists q = false) paths
  end.
Proof.
  induction paths as [|q paths IH]; cbn [first_existing]; [constructor|].
  destruct (path_exists q) eqn:Eq.
  - exists [], paths. repeat split; auto.
  - destruct (first_existing path_exists paths) as [p|].
    + destruct IH as (before & after & -> & Hp & Hb).
      exists (q :: before), after. repeat split; auto.
    + constructor; assumption.
Qed.

(** X11. The system CA bundle.  Whatever files exist, the function returns
    the first path of [CA_BUNDLE_SEARCH_PATHS], in the order of the list,
    that exists, and [None] when none of them exists. *)
Theorem system_ca_bundle_is_first_existing path_exists :
  match try_verify_by_system_ca_bundle path_exists with
  | Some p =>
      exists before after,
        CA_BUNDLE_SEARCH_PATHS = before ++ p :: after /\ path_exists p = true
        /\ Forall (fun q => path_exists q = false) before
  | None => Forall (fun q => path_exists q = false) CA_BUNDLE_SEARCH_PATHS
  end.
Proof. apply first_existing_spec. Qed.

(** ** The scan of [struct_add] *)

Lemma text_eqb_eq : forall a b, text_eqb a b = true <-> a = b.
Proof.
  induction a as [|x a IH]; destruct b as [|y b]; cbn [text_eqb];
    try (split; [discriminate|discriminate]); [split; reflexivity|].
  rewrite andb_true_iff, Ascii.eqb_eq, IH.
  split; [intros [-> ->]; reflexivity|intros E; injection E; auto].
Qed.

Lemma text_eqb_refl a : text_eqb a a = true.
Proof. apply text_eqb_eq. reflexivity. Qed.

Lemma dict_get_set (V : Type) (k k' : text) (v : V) : forall d,
  dict_get k (dict_set k' v d) = if text_eqb k k' then Some v else dict_get k d.
Proof.
  induction d as [|[k0 v0] d IH]; cbn [dict_set dict_get]; [reflexivity|].
  destruct (text_eqb k' k0) eqn:E0; cbn [dict_get].
  - apply text_eqb_eq in E0. subst k0.
    destruct (text_eqb k k'); reflexivity.
  - destruct (text_eqb k k0) eqn:E1.
    + destruct (text_eqb k k') eqn:E2; [|reflexivity].
      apply text_eqb_eq in E1, E2. subst. rewrite text_eqb_refl in E0. discriminate.
    + exact IH.
Qed.

Lemma dict_set_Forall (V : Type) (P : text * V -> Prop) k v : forall d,
  P (k, v) -> Forall P d -> Forall P (dict_set k v d).
Proof.
  induction d as [|[k0 v0] d IH]; cbn [dict_set]; intros Hp Hd.
  - constructor; [exact Hp|constructor].
  - inversion Hd; subst. destruct (text_eqb k k0); constructor; auto.
Qed.

Lemma struct_add_scan_unfold s name prefix field dump :
  struct_add_scan s name prefix field dump
  = struct_add_loop s name prefix field dump {| structures := []; echoed := [] |}
                    (fst (xyz_parser_iterator s true)) (snd (xyz_parser_iterator s true)).
Proof.
  unfold struct_add_scan. destruct (xyz_parser_iterator s true). reflexivity.
Qed.

Lemma frames_have_blocks s b :
  Forall (fun f => exists n c a m, f = Frame4 n (Some c) a m)
         (fst (xyz_parser_iterator s b)).
Proof.
  apply Forall_forall. intros f Hin.
  destruct (frame_origin _ _ _ Hin) as (m & n & c & p & _ & _ & _ & ->).
  unfold frame_for. eauto.
Qed.

(** X12. The scan with [--name].  With a name that is not empty the scan
    raises [BadParameter] at the second frame the generator yields.  When
    the generator yields fewer, the scan ends as the generator does: with
    its exception if it raises one, and otherwise with nothing kept for no
    frame and with the span of the frame kept under the given name for one
    frame. *)
Theorem scan_with_name s c n prefix field dump :
  match xyz_parser_iterator s true with
  | ([], None) => fst (struct_add_scan s (Some (c :: n)) prefix field dump) = inl []
  | ([f], None) =>
      fst (struct_add_scan s (Some (c :: n)) prefix field dump)
      = inl [(c :: n, (f_span_start f, f_span_end f))]
  | ([], Some e) | ([_], Some e) =>
      fst (struct_add_scan s (Some (c :: n)) prefix field dump)
      = inr (FromGenerator e)
  | (_ :: _ :: _, _) =>
      fst (struct_add_scan s (Some (c :: n)) prefix field dump)
      = inr (BadParameter (txt "more than one structure found in XYZ file"))
  end.
Proof.
  rewrite struct_add_scan_unfold.
  pose proof (frames_have_blocks s true) as G.
  destruct (xyz_parser_iterator s true) as [frames ended]. cbn [fst snd] in *.
  destruct frames as [|f1 fs]; [destruct ended; reflexivity|].
  inversion G as [|? ? (n1 & c1 & a1 & m1 & ->) G']; subst.
  destruct fs as [|f2 fs]; [destruct ended; reflexivity|].
  inversion G' as [|? ? (n2 & c2 & a2 & m2 & ->) _]; subst.
  reflexivity.
Qed.

Lemma loop_named_no_UsageError s c n prefix field dump ended : forall frames st,
  is_UsageError (fst (struct_add_loop s (Some (c :: n)) prefix field dump
                                      st frames ended)) = false.
Proof.
  induction frames as [|f frames IH]; intros st; cbn [struct_add_loop].
  - destruct ended; reflexivity.
  - destruct f as [? ? ?|n0 c0 a0 m0]; [reflexivity|].
    cbn [struct_add_step truthy].
    destruct (structures st) as [|kv d] eqn:E; cbn [List.length Nat.leb dict_has existsb].
    + apply IH.
    + reflexivity.
Qed.

Lemma loop_unnamed_no_UsageError s prefix field dump ended : forall frames st,
  is_UsageError (fst (struct_add_loop s None prefix field dump
                                      st frames ended)) = false.
Proof.
  induction frames as [|f frames IH]; intros st; cbn [struct_add_loop].
  - destruct ended; reflexivity.
  - destruct f as [? ? ?|n0 c0 a0 m0]; [reflexivity|].
    cbn [struct_add_step truthy].
    destruct c0 as [c0|]; [|reflexivity].
    destruct (py_index (split_on ";" c0) field); [apply IH|reflexivity].
Qed.

(** X13. The duplicate check.  Unless [--name] is given as the empty text,
    the scan never raises the [UsageError] for a duplicated name: the test
    of line 470 looks for the option [name], not for the name of the
    structure at hand. *)
Theorem duplicate_name_error_unreachable s name prefix field dump :
  name <> Some [] ->
  is_UsageError (fst (struct_add_scan s name prefix field dump)) = false.
Proof.
  intros Hn. rewrite struct_add_scan_unfold.
  destruct name as [[|c n]|].
  - contradiction Hn; reflexivity.
  - apply loop_named_no_UsageError.
  - apply loop_unnamed_no_UsageError.
Qed.

Lemma duplicate_name_error_unreachable_witness :
  is_UsageError (fst (struct_add_scan same_name_twice None [] 0 false)) = false.
Proof.
  assert (H1 : @None text <> Some []) by discriminate.
  exact (duplicate_name_error_unreachable same_name_twice None [] 0 false H1).
Defined.

Lemma loop_unnamed_get s prefix field dump ended k : forall frames st d,
  fst (struct_add_loop s None prefix field dump st frames ended) = inl d ->
  dict_get k d = match last_span_named prefix field k frames with
                 | Some sp => Some sp
                 | None => dict_get k (structures st)
                 end.
Proof.
  induction frames as [|f frames IH]; intros st d H; cbn [struct_add_loop] in H.
  - destruct ended; [discriminate|]. cbn [fst] in H. injection H as <-. reflexivity.
  - destruct f as [? ? ?|n0 c0 a0 m0]; [discriminate|].
    cbn [struct_add_step truthy] in H.
    destruct c0 as [c0|]; [|discriminate].
    cbn [last_span_named]. unfold parsed_name at 1. cbn [f_comment].
    destruct (py_index (split_on ";" c0) field) as [part|]; [|discriminate].
    apply IH in H. rewrite H. cbn [structures option_map].
    destruct (last_span_named prefix field k frames); [reflexivity|].
    rewrite dict_get_set. unfold f_span_start, f_span_end, span. cbn [f_block].
    destruct (text_eqb k (prefix ++ part)); reflexivity.
Qed.

(** X14. Frames with the same name.  Without [--name], when the scan
    succeeds the span kept under a name is that of the last frame whose
    comment gives that name: an earlier frame of the same name is replaced
    without any error, and a name no frame gives is absent. *)
Theorem same_name_last_frame_wins s prefix field dump d :
  fst (struct_add_scan s None prefix field dump) = inl d ->
  forall k, dict_get k d
            = last_span_named prefix field k (fst (xyz_parser_iterator s true)).
Proof.
  intros H k. rewrite struct_add_scan_unfold in H.
  rewrite (loop_unnamed_get _ _ _ _ _ k _ _ _ H). cbn [structures dict_get].
  destruct (last_span_named _ _ _ _); reflexivity.
Qed.

Lemma same_name_last_frame_wins_witness :
  dict_get (txt "water") [(txt "water", (28, 57))]
  = last_span_named [] 0 (txt "water") (fst (xyz_parser_iterator same_name_twice true)).
Proof.
  assert (H1 : fst (struct_add_scan same_name_twice None [] 0 false)
               = inl [(txt "water", (28, 57))])
    by (vm_compute; reflexivity).
  exact (same_name_last_frame_wins same_name_twice [] 0 false _ H1 (txt "water")).
Defined.

Lemma loop_unnamed_short_comment s prefix field dump f ended : forall frames st,
  Forall (fun f => exists n c a m, f = Frame4 n (Some c) a m) frames ->
  In f frames -> parsed_name prefix field f = None ->
  fst (struct_add_loop s None prefix field dump st frames ended) = inr IndexError.
Proof.
  induction frames as [|f1 frames IH]; intros st G Hin Hp; [contradiction|].
  inversion G as [|? ? (n1 & c1 & a1 & m1 & ->) G']; subst.
  cbn [struct_add_loop struct_add_step truthy].
  destruct (py_index (split_on ";" c1) field) as [part|] eqn:E; [|reflexivity].
  destruct Hin as [<-|Hin].
  - unfold parsed_name in Hp. cbn [f_comment] in Hp. rewrite E in Hp. discriminate.
  - apply IH; assumption.
Qed.

(** X15. A comment with too few fields.  Without [--name], if the comment of
    some frame has no field number [name_field] when split at [;], the scan
    ends with [IndexError]. *)
Theorem short_comment_raises_IndexError s prefix field dump f :
  In f (fst (xyz_parser_iterator s true)) ->
  parsed_name prefix field f = None ->
  fst (struct_add_scan s None prefix field dump) = inr IndexError.
Proof.
  intros Hin Hp. rewrite struct_add_scan_unfold.
  apply (loop_unnamed_short_comment s prefix field dump f _ _ _
           (frames_have_blocks s true) Hin Hp).
Qed.

Lemma short_comment_raises_IndexError_witness :
  fst (struct_add_scan same_name_twice None [] 2 false) = inr IndexError.
Proof.
  assert (H1 : In (first_frame same_name_twice true)
                  (fst (xyz_parser_iterator same_name_twice true)))
    by (vm_compute; left; reflexivity).
  assert (H2 : parsed_name [] 2 (first_frame same_name_twice true) = None)
    by (vm_compute; reflexivity).
  exact (short_comment_raises_IndexError same_name_twice [] 2 false _ H1 H2).
Defined.

Lemma split_on_nonempty sep : forall s, split_on sep s <> [].
Proof.
  induction s as [|c t IH]; cbn [split_on]; [discriminate|].
  destruct (Ascii.eqb c sep); [discriminate|].
  destruct (split_on sep t); discriminate.
Qed.

Lemma py_index_first_last (A : Type) (l : list A) (i : Z) :
  l <> [] -> i = 0%Z \/ i = (-1)%Z -> py_index l i <> None.
Proof.
  intros Hne Hi. unfold py_index.
  assert (Hl : 0 < List.length l) by (destruct l; [contradiction|simpl; lia]).
  destruct Hi as [-> | ->].
  - replace ((0 <=? 0) && (0 <? Z.of_nat (List.length l)))%Z with true
      by (symmetry; apply andb_true_iff; split; [apply Z.leb_le|apply Z.ltb_lt]; lia).
    apply nth_error_Some. simpl. lia.
  - replace ((0 <=? -1) && (-1 <? Z.of_nat (List.length l)))%Z with false
      by reflexivity.
    replace ((- Z.of_nat (List.length l) <=? -1) && (-1 <? 0))%Z with true
      by (symmetry; apply andb_true_iff; split; [apply Z.leb_le|apply Z.ltb_lt]; lia).
    apply nth_error_Some. lia.
Qed.

Lemma loop_unnamed_succeeds s prefix field dump ended : forall frames st,
  Forall (fun f => exists n c a m, f = Frame4 n (Some c) a m) frames ->
  (forall f, In f frames -> parsed_name prefix field f <> None) ->
  match ended with
  | None =>
      exists d, fst (struct_add_loop s None prefix field dump st frames ended) = inl d
  | Some e =>
      fst (struct_add_loop s None prefix field dump st frames ended)
      = inr (FromGenerator e)
  end.
Proof.
  induction frames as [|f1 frames IH]; intros st G Hp.
  - destruct ended; cbn; eauto.
  - inversion G as [|? ? (n1 & c1 & a1 & m1 & ->) G']; subst.
    cbn [struct_add_loop struct_add_step truthy].
    pose proof (Hp _ (or_introl eq_refl)) as H1.
    unfold parsed_name in H1. cbn [f_comment] in H1.
    destruct (py_index (split_on ";" c1) field) as [part|]; [|contradiction H1; reflexivity].
    apply IH; [exact G'|]. intros f Hin. apply Hp. right. exact Hin.
Qed.

(** X16. The first and the last field.  Without [--name] and with
    [--name-field] 0, the default, or -1, the body of the scan loop never
    raises: splitting a comment at [;] always gives at least one field.  The
    scan succeeds when the generator ends normally, and ends with the
    exception of the generator otherwise. *)
Theorem first_or_last_field_never_fails s prefix field dump :
  field = 0%Z \/ field = (-1)%Z ->
  match snd (xyz_parser_iterator s true) with
  | None => exists d, fst (struct_add_scan s None prefix field dump) = inl d
  | Some e => fst (struct_add_scan s None prefix field dump) = inr (FromGenerator e)
  end.
Proof.
  intros Hf. rewrite struct_add_scan_unfold.
  apply loop_unnamed_succeeds; [apply frames_have_blocks|].
  intros f Hin.
  pose proof (frames_have_blocks s true) as G. rewrite Forall_forall in G.
  destruct (G f Hin) as (n & c & a & m & ->).
  unfold parsed_name. cbn [f_comment].
  pose proof (py_index_first_last _ (split_on ";" c) field (split_on_nonempty ";" c) Hf) as Hi.
  destruct (py_index (split_on ";" c) field); [discriminate|contradiction Hi; reflexivity].
Qed.

Lemma first_or_last_field_never_fails_witness :
  match snd (xyz_parser_iterator same_name_twice true) with
  | None => exists d, fst (struct_add_scan same_name_twice None [] (-1) false) = inl d
  | Some e =>
      fst (struct_add_scan same_name_twice None [] (-1) false) = inr (FromGenerator e)
  end.
Proof.
  assert (H1 : (-1 = 0)%Z \/ (-1 = -1)%Z) by (right; reflexivity).
  exact (first_or_last_field_never_fails same_name_twice [] (-1) false H1).
Defined.

Lemma loop_spans_from_frames s name prefix field dump ended (all : list frame_tuple)
      (P := fun kv : text * (nat * nat) =>
              exists f, In f all /\ snd kv = (f_span_start f, f_span_end f)) :
  forall frames st d,
    incl frames all -> Forall P (structures st) ->
    fst (struct_add_loop s name prefix field dump st frames ended) = inl d ->
    Forall P d.
Proof.
  induction frames as [|f frames IH]; intros st d Hi Hs H; cbn [struct_add_loop] in H.
  - destruct ended; [discriminate|]. cbn [fst] in H. injection H as <-. exact Hs.
  - destruct (struct_add_step s name prefix field dump st f) as [st'|e] eqn:E;
      [|discriminate].
    apply (IH st' d); [intros x Hx; apply Hi; right; exact Hx| |exact H].
    destruct f as [? ? ?|n0 c0 a0 m0]; [discriminate|].
    cbn [struct_add_step] in E.
    match type of E with
    | match ?named with _ => _ end = _ => destruct named as [sn|e0]; [|discriminate]
    end.
    match type of E with
    | (if ?t then _ else _) = _ => destruct t; [discriminate|]
    end.
    injection E as <-. cbn [structures].
    apply dict_set_Forall; [|exact Hs].
    exists (Frame4 n0 c0 a0 m0). split; [apply Hi; left; reflexivity|reflexivity].
Qed.

(** X17. What is uploaded.  When the scan succeeds, with or without
    [--name], every payload [complete_input[spos:epos]] of the upload loop is
    the text of one yielded frame: its count line, which [int] reads as the
    frame's count, a line feed, its comment, a line feed, and its positions
    block, which ends with a line feed. *)
Theorem uploaded_payload_is_frame_text s name prefix field dump d :
  fst (struct_add_scan s name prefix field dump) = inl d ->
  Forall (fun entry =>
            exists f count_line comment positions,
              In f (fst (xyz_parser_iterator s true))
              /\ snd entry = count_line ++ LF :: comment ++ LF :: positions ++ [LF]
              /\ py_int count_line = Some (f_natoms f)
              /\ f_comment f = Some comment
              /\ f_positions f = positions ++ [LF])
         (struct_add_payloads s d).
Proof.
  intros H. rewrite struct_add_scan_unfold in H.
  pose proof (loop_spans_from_frames s name prefix field dump _
                (fst (xyz_parser_iterator s true)) _
                {| structures := []; echoed := [] |} d
                (incl_refl _) (Forall_nil _) H) as G.
  unfold struct_add_payloads. apply Forall_map.
  eapply Forall_impl; [|exact G].
  intros [k [spos epos]] (f & Hin & Hsp). cbn [snd] in *.
  injection Hsp as -> ->.
  destruct (frame_slice_layout _ _ _ Hin) as (cl & cm & ps & E & _ & Hi & Hc & _ & Hp & _).
  exists f, cl, cm, ps. auto.
Qed.

Lemma uploaded_payload_is_frame_text_witness :
  Forall (fun entry =>
            exists f count_line comment positions,
              In f (fst (xyz_parser_iterator water_monomer true))
              /\ snd entry = count_line ++ LF :: comment ++ LF :: positions ++ [LF]
              /\ py_int count_line = Some (f_natoms f)
              /\ f_comment f = Some comment
              /\ f_positions f = positions ++ [LF])
         (struct_add_payloads water_monomer [(txt "water", (0, 56))]).
Proof.
  assert (H1 : fst (struct_add_scan water_monomer (Some (txt "water")) [] 0 false)
               = inl [(txt "water", (0, 56))])
    by (vm_compute; reflexivity).
  exact (uploaded_payload_is_frame_text water_monomer (Some (txt "water")) [] 0 false
           _ H1).
Defined.

(** ** The symbol of a match *)

Lemma letter_is_alnum c :
  in_set [Rg "A" "Z"; Rg "a" "z"] c = true ->
  in_set [Rg "A" "Z"; Rg "a" "z"; Rg "0" "9"] c = true.
Proof.
  unfold in_set. cbn [existsb]. rewrite !orb_false_r.
  intros H. apply orb_true_iff in H. rewrite !orb_true_iff. tauto.
Qed.

Lemma in_lang_symbol w :
  in_lang (Seq [Plus letter; Star alnum]) w -> symbol_shape w = true.
Proof.
  intros H. cbn [Seq] in H.
  apply in_lang_cat_inv in H. destruct H as (w1 & w2 & -> & H1 & H2).
  apply in_lang_plus_set in H1. destruct H1 as [Hne F1].
  apply in_lang_star_set in H2.
  destruct w1 as [|c w1]; [contradiction|].
  cbn [app symbol_shape]. cbn [forallb] in F1. apply andb_prop in F1.
  destruct F1 as [Fc F1]. rewrite Fc. cbn [andb].
  rewrite forallb_app, H2, andb_true_r.
  rewrite forallb_forall in *. intros x Hx. apply letter_is_alnum. apply F1. exact Hx.
Qed.

Lemma pos_match_symbol c e :
  caps c = [] -> reach pos_regex c e ->
  exists cs, assoc "sym" (caps e) = Some cs /\ symbol_shape (c_text cs) = true.
Proof.
  intros Hc H.
  destruct (pos_match_shape c e Hc H) as (cs & cx & cy & cz & Hcaps & _).
  unfold pos_regex in H. cbn [Seq] in H.
  apply reach_cat_inv in H. destruct H as (c0 & H0 & H).
  apply reach_bol_inv in H0. destruct H0 as [-> _].
  apply reach_cat_inv in H. destruct H as (c1 & H1 & H).
  pose proof (reach_caps H1 eq_refl) as C1.
  apply reach_cat_inv in H. destruct H as (c2 & H2 & H).
  apply reach_named_lang in H2.
  destruct H2 as (c2' & ws & -> & R2 & _ & T2 & L2).
  pose proof (reach_caps R2 eq_refl) as C2.
  apply reach_cat_inv in H. destruct H as (c3 & H3 & H).
  pose proof (reach_caps H3 eq_refl) as C3.
  apply reach_cat_inv in H. destruct H as (c4 & H4 & H).
  apply reach_named_lang in H4.
  destruct H4 as (c4' & wx & -> & R4 & _ & T4 & L4).
  pose proof (reach_caps R4 eq_refl) as C4.
  apply reach_cat_inv in H. destruct H as (c5 & H5 & H).
  pose proof (reach_caps H5 eq_refl) as C5.
  apply reach_cat_inv in H. destruct H as (c6 & H6 & H).
  apply reach_named_lang in H6.
  destruct H6 as (c6' & wy & -> & R6 & _ & T6 & L6).
  pose proof (reach_caps R6 eq_refl) as C6.
  apply reach_cat_inv in H. destruct H as (c7 & H7 & H).
  pose proof (reach_caps H7 eq_refl) as C7.
  apply reach_named_lang in H.
  destruct H as (c8 & wz & -> & R8 & _ & T8 & L8).
  pose proof (reach_caps R8 eq_refl) as C8.
  cbn [caps set_cap] in *.
  rewrite C8, C7 in Hcaps. cbn [caps set_cap] in Hcaps.
  rewrite C6, C5 in Hcaps. cbn [caps set_cap] in Hcaps.
  rewrite C4, C3 in Hcaps. cbn [caps set_cap] in Hcaps.
  rewrite C2, C1, Hc in Hcaps.
  injection Hcaps as _ _ _ Hs.
  exists cs. rewrite C8, C7. cbn [caps set_cap]. rewrite C6, C5. cbn [caps set_cap].
  rewrite C4, C3. cbn [caps set_cap]. rewrite C2, C1, Hc.
  split; [cbn; rewrite <- Hs; reflexivity|].
  rewrite <- Hs. cbn [c_text]. rewrite T2. apply in_lang_symbol. exact L2.
Qed.

Lemma finditer_atom_symbol t :
  Forall (fun m => exists sym, group m "sym" = Some sym /\ symbol_shape sym = true)
         (finditer pos_regex t).
Proof.
  apply finditer_spec. intros st b' pre s' e _ _ Hm.
  destruct (rmatch_sound _ _ _ Hm) as (e' & Hr & He). injection He as ->.
  apply pos_match_symbol in Hr; [|reflexivity].
  destruct Hr as (cs & Ha & Hs).
  exists (c_text cs). unfold group. cbn [m_groups]. rewrite Ha. auto.
Qed.

(** X18. The symbol of a match.  In every match of the position pattern in
    any text, group [sym] is set and holds a letter followed by letters and
    digits; lines 74 to 90 put that text, as it is, in the tuple they build
    for the match, with the match itself as third component when
    [include_match_object] is set and with two components otherwise. *)
Theorem symbol_group_is_element_label t b :
  Forall (fun m =>
            exists sym,
              group m "sym" = Some sym /\ symbol_shape sym = true
              /\ forall a, atom_of_match m b = Return a ->
                           atom_sym a = Some sym
                           /\ atom_match a = if b then Some m else None)
         (finditer pos_regex t).
Proof.
  eapply Forall_impl; [|apply finditer_atom_symbol].
  intros m (sym & Gs & Hs). exists sym. split; [exact Gs|]. split; [exact Hs|].
  intros a. unfold atom_of_match. rewrite Gs.
  destruct (float_group m "x"); [|discriminate].
  destruct (float_group m "y"); [|discriminate].
  destruct (float_group m "z"); [|discriminate].
  destruct b; intros H; injection H as <-; auto.
Qed.

(** ** [validate_basis_set_families] *)

Lemma parse_families_get k : forall values d0 d,
  parse_families values d0 = Some d ->
  dict_get k d = match last_family k values with
                 | Some x => Some x
                 | None => dict_get k d0
                 end.
Proof.
  induction values as [|v values IH]; intros d0 d H; cbn [parse_families] in H.
  - injection H as <-. reflexivity.
  - cbn [last_family].
    destruct (unpack_pair (split_once ":" v)) as [[k0 x0]|]; [|discriminate].
    rewrite (IH _ _ H).
    destruct (last_family k values); [reflexivity|].
    rewrite dict_get_set. destruct (text_eqb k k0); reflexivity.
Qed.

Lemma dict_get_In (V : Type) (k : text) (v : V) : forall d,
  dict_get k d = Some v -> In (k, v) d.
Proof.
  induction d as [|[k0 v0] d IH]; cbn [dict_get]; [discriminate|].
  destruct (text_eqb k k0) eqn:E.
  - intros H. injection H as <-. apply text_eqb_eq in E. subst. left. reflexivity.
  - intros H. right. apply IH. exact H.
Qed.

(** X19. Basis set families, value for value.  When the callback accepts
    the values, the dictionary it returns maps each type to the family of the
    last value given for that type, and neither a type nor a family in it is
    empty. *)
Theorem families_last_value_wins values d :
  validate_basis_set_families values = inl d ->
  forall k, dict_get k d = last_family k values
            /\ (forall v, dict_get k d = Some v -> k <> [] /\ v <> []).
Proof.
  unfold validate_basis_set_families. intros H k.
  destruct (parse_families values []) as [parsed|] eqn:E; [|discriminate].
  destruct (forallb nonempty (map fst parsed) && forallb nonempty (map snd parsed))
    eqn:F; [|discriminate].
  injection H as <-. apply andb_prop in F. destruct F as [Fk Fv].
  split.
  - rewrite (parse_families_get k _ _ _ E). cbn [dict_get].
    destruct (last_family k values); reflexivity.
  - intros v Hg. apply dict_get_In in Hg.
    rewrite forallb_forall in Fk, Fv.
    specialize (Fk k (in_map fst _ _ Hg)). specialize (Fv v (in_map snd _ _ Hg)).
    split; intros ->; discriminate.
Qed.

Lemma families_last_value_wins_witness :
  dict_get (txt "a") [(txt "a", txt "x")] = last_family (txt "a") [txt "a:"; txt "a:x"]
  /\ (forall v, dict_get (txt "a") [(txt "a", txt "x")] = Some v
                -> txt "a" <> [] /\ v <> []).
Proof.
  assert (H1 : validate_basis_set_families [txt "a:"; txt "a:x"]
               = inl [(txt "a", txt "x")])
    by (vm_compute; reflexivity).
  exact (families_last_value_wins [txt "a:"; txt "a:x"] _ H1 (txt "a")).
Defined.

Lemma split_once_no_sep sep : forall v,
  ~ In sep v -> split_once sep v = [v].
Proof.
  induction v as [|c v IH]; intros Hn; cbn [split_once]; [reflexivity|].
  destruct (Ascii.eqb c sep) eqn:E.
  - apply Ascii.eqb_eq in E. subst. contradiction Hn. left. reflexivity.
  - rewrite IH; [reflexivity|]. intros Hin. apply Hn. right. exact Hin.
Qed.

Lemma split_once_at_sep sep : forall k x,
  ~ In sep k -> split_once sep (k ++ sep :: x) = [k; x].
Proof.
  induction k as [|c k IH]; intros x Hn; cbn [app split_once].
  - rewrite Ascii.eqb_refl. reflexivity.
  - destruct (Ascii.eqb c sep) eqn:E.
    + apply Ascii.eqb_eq in E. subst. contradiction Hn. left. reflexivity.
    + rewrite IH; [reflexivity|]. intros Hin. apply Hn. right. exact Hin.
Qed.

Lemma parse_families_no_colon v : forall values d0,
  In v values -> ~ In ":"%char v -> parse_families values d0 = None.
Proof.
  induction values as [|v0 values IH]; intros d0 Hin Hn; [contradiction|].
  cbn [parse_families]. destruct Hin as [->|Hin].
  - rewrite (split_once_no_sep _ _ Hn). reflexivity.
  - destruct (unpack_pair (split_once ":" v0)) as [[k0 x0]|]; [|reflexivity].
    apply IH; assumption.
Qed.

(** X20. A value without colon.  If one of the values holds no colon the
    callback raises [BadParameter], whatever the other values are. *)
Theorem family_without_colon_rejected values v :
  In v values -> ~ In ":"%char v ->
  validate_basis_set_families values
  = inr (BadParameter (txt "basis set family must be in format type:name")).
Proof.
  intros Hin Hn. unfold validate_basis_set_families.
  rewrite (parse_families_no_colon v values [] Hin Hn). reflexivity.
Qed.

Lemma family_without_colon_rejected_witness :
  validate_basis_set_families [txt "orb:DZVP"; txt "TZVP"]
  = inr (BadParameter (txt "basis set family must be in format type:name")).
Proof.
  assert (H1 : In (txt "TZVP") [txt "orb:DZVP"; txt "TZVP"])
    by (right; left; reflexivity).
  assert (H2 : ~ In ":"%char (txt "TZVP"))
    by (vm_compute; intuition discriminate).
  exact (family_without_colon_rejected [txt "orb:DZVP"; txt "TZVP"] (txt "TZVP") H1 H2).
Defined.

Lemma parse_families_well_formed : forall values d0,
  Forall (fun v => exists k x, v = k ++ ":"%char :: x /\ k <> []
                               /\ ~ In ":"%char k /\ x <> []) values ->
  Forall (fun kv => fst kv <> [] /\ snd kv <> []) d0 ->
  exists d, parse_families values d0 = Some d
            /\ Forall (fun kv : text * text => fst kv <> [] /\ snd kv <> []) d.
Proof.
  induction values as [|v values IH]; intros d0 Hw Hd.
  - exists d0. auto.
  - inversion Hw as [|? ? (k & x & -> & Hk & Hc & Hx) Hw']; subst.
    cbn [parse_families]. rewrite (split_once_at_sep _ _ x Hc). cbn [unpack_pair].
    apply IH; [exact Hw'|].
    apply dict_set_Forall; [split; assumption|exact Hd].
Qed.

(** X21. Well-formed values.  Values that each consist of a type that is
    not empty and holds no colon, a colon, and a family that is not empty
    are accepted. *)
Theorem well_formed_families_accepted values :
  Forall (fun v => exists k x, v = k ++ ":"%char :: x /\ k <> []
                               /\ ~ In ":"%char k /\ x <> []) values ->
  exists d, validate_basis_set_families values = inl d.
Proof.
  intros Hw.
  destruct (parse_families_well_formed values [] Hw (Forall_nil _)) as (d & E & F).
  exists d. unfold validate_basis_set_families.
  replace (parse_families values _) with (Some d) by (symmetry; exact E).
  assert (Fk : forallb nonempty (map fst d) = true).
  { apply forallb_forall. intros k Hk. apply in_map_iff in Hk.
    destruct Hk as (kv & <- & Hin). rewrite Forall_forall in F.
    destruct (F kv Hin) as [Hne _]. destruct (fst kv); [contradiction|reflexivity]. }
  assert (Fv : forallb nonempty (map snd d) = true).
  { apply forallb_forall. intros k Hk. apply in_map_iff in Hk.
    destruct Hk as (kv & <- & Hin). rewrite Forall_forall in F.
    destruct (F kv Hin) as [_ Hne]. destruct (snd kv); [contradiction|reflexivity]. }
  rewrite Fk, Fv. reflexivity.
Qed.

Lemma well_formed_families_accepted_witness :
  exists d, validate_basis_set_families [txt "orb:DZVP"] = inl d.
Proof.
  assert (H1 : Forall (fun v => exists k x, v = k ++ ":"%char :: x /\ k <> []
                                            /\ ~ In ":"%char k /\ x <> [])
                      [txt "orb:DZVP"]).
  { constructor; [|constructor].
    exists (txt "orb"), (txt "DZVP").
    split; [reflexivity|]. split; [discriminate|].
    split; [vm_compute; intuition discriminate|discriminate]. }
  exact (well_formed_families_accepted [txt "orb:DZVP"] H1).
Defined.
